(** * A 2D skeletal-animation engine: timeline, bone hierarchy, CCD solver

    Shallow embedding of [animation-studio/timeline.ts] (class
    [TimelineSystem]), [animation-studio/bones.ts] (class [BoneSystem])
    and the viewport of the graphics engine (class [GraphicsEngine]).

    Conventions of the embedding:
    - a JavaScript [number] that carries a coordinate, an angle, a length
      or a property value is a real number ([R]); frame numbers are
      integers ([Z]);
    - where the result of the source depends on the rounding of binary64
      numbers or on the sign of a zero, the module [Doubles] repeats the
      lines concerned on primitive floats; a decimal literal there is the
      nearest binary64 number, as it is in the source;
    - string ids produced from [Date.now()] / [Math.random()] are inputs
      of the operation that generates them;
    - a [Map] that is iterated is a list in insertion order, a [Map] that
      is only looked up is a [gmap];
    - objects held in a [Map] are mutated in place by the source; the
      embedding rewrites the entry of the store instead, and every read
      goes through the store;
    - DOM, PIXI and GSAP calls are presentation only and are left out;
      [emit] is modelled by the list of events it dispatches;
    - the recursive walks of the bone tree ([updateBonePosition],
      [moveChildren], [deleteBone]) and the [while] loop of [solveIK] take
      a fuel argument and return [None] when it runs out; the facts below
      show that enough fuel exists in every hierarchy the operations can
      build. *)

From Stdlib Require Floats.
From Stdlib Require Import Reals Lra Lia ZArith.
From stdpp Require Import gmap strings list sorting.

Set Warnings "-inexact-float".

Module Timeline.

Open Scope Z_scope.

(** ** Data model *)

Record Keyframe := mkKeyframe {
  kf_id : string;
  kf_frame : Z;
  kf_boneId : string;
  kf_properties : gmap string R;
  kf_easing : string
}.

Record Track := mkTrack {
  tr_id : string;
  tr_name : string;
  tr_boneId : string;
  tr_keyframes : list Keyframe;
  tr_isVisible : bool;
  tr_isLocked : bool
}.

(** [tracks] is the [Map<string, Track>] in insertion order; the key of an
    entry is always the [id] of the track it holds. *)
Record TimelineSystem := mkTimeline {
  tracks : list Track;
  currentFrame : Z;
  totalFrames : Z;
  fps : Z;
  isPlaying : bool;
  onionSkin : bool
}.

(** The two [throw new Error(...)] of the class.  Both are raised before
    the method has assigned anything, so a [Throw] leaves the timeline as
    it was before the call. *)
Inductive Error := TrackNotFound | KeyframeNotFound.

Inductive result (A : Type) :=
| Ok (a : A)
| Throw (e : Error).
Arguments Ok {A} a.
Arguments Throw {A} e.

(** What [emit] dispatches on [window]. *)
Inductive Event :=
| boneUpdate (boneId : string) (properties : gmap string R)
| frameChanged (frame : Z)
| keyframeSelected (keyframe : Keyframe).

Definition initial : TimelineSystem :=
  {| tracks := []; currentFrame := 1; totalFrames := 300; fps := 24;
     isPlaying := false; onionSkin := false |}.

Definition set_tracks (ts : list Track) (s : TimelineSystem) : TimelineSystem :=
  {| tracks := ts; currentFrame := currentFrame s; totalFrames := totalFrames s;
     fps := fps s; isPlaying := isPlaying s; onionSkin := onionSkin s |}.

Definition set_currentFrame (f : Z) (s : TimelineSystem) : TimelineSystem :=
  {| tracks := tracks s; currentFrame := f; totalFrames := totalFrames s;
     fps := fps s; isPlaying := isPlaying s; onionSkin := onionSkin s |}.

Definition set_isPlaying (b : bool) (s : TimelineSystem) : TimelineSystem :=
  {| tracks := tracks s; currentFrame := currentFrame s; totalFrames := totalFrames s;
     fps := fps s; isPlaying := b; onionSkin := onionSkin s |}.

Definition set_keyframes (kfs : list Keyframe) (t : Track) : Track :=
  {| tr_id := tr_id t; tr_name := tr_name t; tr_boneId := tr_boneId t;
     tr_keyframes := kfs; tr_isVisible := tr_isVisible t; tr_isLocked := tr_isLocked t |}.

Definition set_properties (p : gmap string R) (k : Keyframe) : Keyframe :=
  {| kf_id := kf_id k; kf_frame := kf_frame k; kf_boneId := kf_boneId k;
     kf_properties := p; kf_easing := kf_easing k |}.

(** ** The track map *)

(** [this.tracks.get(id)] *)
Fixpoint tracks_get (ts : list Track) (id : string) : option Track :=
  match ts with
  | [] => None
  | t :: ts' => if decide (tr_id t = id) then Some t else tracks_get ts' id
  end.

(** [this.tracks.set(t.id, t)]: an existing key keeps its place. *)
Fixpoint tracks_set (ts : list Track) (t : Track) : list Track :=
  match ts with
  | [] => [t]
  | t' :: ts' =>
      if decide (tr_id t' = tr_id t) then t :: ts' else t' :: tracks_set ts' t
  end.

(** [createTrack(name, boneId)]; [now] is the reading of [Date.now()]. *)
Definition createTrack (now : string) (name boneId : string)
    (s : TimelineSystem) : TimelineSystem * Track :=
  let track := {| tr_id := "track_" +:+ now; tr_name := name; tr_boneId := boneId;
                  tr_keyframes := []; tr_isVisible := true; tr_isLocked := false |} in
  (set_tracks (tracks_set (tracks s) track) s, track).

(** ** Keyframes *)

(** [keyframes.sort((a, b) => a.frame - b.frame)]: the sort of an array is
    stable, so it is the insertion sort that puts an element in front of
    the later elements of the same frame. *)
Fixpoint insert_by_frame (k : Keyframe) (l : list Keyframe) : list Keyframe :=
  match l with
  | [] => [k]
  | k' :: l' =>
      if kf_frame k <=? kf_frame k' then k :: l else k' :: insert_by_frame k l'
  end.

Definition sort_by_frame (l : list Keyframe) : list Keyframe :=
  foldr insert_by_frame [] l.

(** [{ ...kf.properties, ...properties }]; [properties] may be [undefined],
    which spreads to nothing. *)
Definition merge_properties (old : gmap string R)
    (properties : option (gmap string R)) : gmap string R :=
  default ∅ properties ∪ old.

(** The loop of [updateKeyframe] over [this.tracks.values()]: the first
    track that holds a keyframe of that id, and in it the first such
    keyframe. *)
Fixpoint updateKeyframe_loop (ts : list Track) (keyframeId : string)
    (properties : option (gmap string R)) : option (list Track * Keyframe) :=
  match ts with
  | [] => None
  | track :: rest =>
      match list_find (λ k, kf_id k = keyframeId) (tr_keyframes track) with
      | Some (i, kf) =>
          let kf' := set_properties (merge_properties (kf_properties kf) properties) kf in
          Some (set_keyframes (<[i := kf']> (tr_keyframes track)) track :: rest, kf')
      | None =>
          match updateKeyframe_loop rest keyframeId properties with
          | Some (rest', kf') => Some (track :: rest', kf')
          | None => None
          end
      end
  end.

Definition updateKeyframe (keyframeId : string)
    (properties : option (gmap string R)) (s : TimelineSystem)
    : result (TimelineSystem * Keyframe) :=
  match updateKeyframe_loop (tracks s) keyframeId properties with
  | Some (ts, kf) => Ok (set_tracks ts s, kf)
  | None => Throw KeyframeNotFound
  end.

(** [addKeyframe(trackId, frame, properties?)]; [now] is the reading of
    [Date.now()] that names a new keyframe. *)
Definition addKeyframe (now : string) (trackId : string) (frame : Z)
    (properties : option (gmap string R)) (s : TimelineSystem)
    : result (TimelineSystem * Keyframe) :=
  match tracks_get (tracks s) trackId with
  | None => Throw TrackNotFound
  | Some track =>
      match list_find (λ kf, kf_frame kf = frame) (tr_keyframes track) with
      | Some (_, existing) => updateKeyframe (kf_id existing) properties s
      | None =>
          let keyframe := {| kf_id := "kf_" +:+ now; kf_frame := frame;
                             kf_boneId := tr_boneId track;
                             kf_properties := default ∅ properties;
                             kf_easing := "linear" |} in
          let track' :=
            set_keyframes (sort_by_frame (tr_keyframes track ++ [keyframe])) track in
          Ok (set_tracks (tracks_set (tracks s) track') s, keyframe)
      end
  end.

(** The loop of [deleteKeyframe]: [findIndex] then [splice(index, 1)] in
    the first track that holds the id; [None] when the loop falls through. *)
Fixpoint deleteKeyframe_loop (ts : list Track) (keyframeId : string)
    : option (list Track) :=
  match ts with
  | [] => None
  | track :: rest =>
      match list_find (λ k, kf_id k = keyframeId) (tr_keyframes track) with
      | Some (index, _) =>
          Some (set_keyframes (delete index (tr_keyframes track)) track :: rest)
      | None =>
          match deleteKeyframe_loop rest keyframeId with
          | Some rest' => Some (track :: rest')
          | None => None
          end
      end
  end.

Definition deleteKeyframe (keyframeId : string) (s : TimelineSystem)
    : TimelineSystem :=
  match deleteKeyframe_loop (tracks s) keyframeId with
  | Some ts => set_tracks ts s
  | None => s
  end.

(** ** Interpolation *)

(** [applyEasing(t, type)]: a [switch] on the tag with a [default]. *)
Definition applyEasing (t : R) (type : string) : R :=
  if decide (type = "easeIn") then (t * t)%R
  else if decide (type = "easeOut") then (1 - (1 - t) * (1 - t))%R
  else if decide (type = "easeInOut") then
    if Rlt_dec t 0.5 then (2 * t * t)%R else (1 - (-2 * t + 2) ^ 2 / 2)%R
  else t.

(** The [for] loop that looks for the first adjacent pair around [frame];
    the result is the index [i] at which it [break]s. *)
Fixpoint scan_bracket (i : nat) (kfs : list Keyframe) (frame : Z) : option nat :=
  match kfs with
  | a :: (b :: _) as rest =>
      if (kf_frame a <=? frame) && (kf_frame b >=? frame) then Some i
      else scan_bracket (S i) rest frame
  | _ => None
  end.

(** Positions of [prevKf] and [nextKf] in the array: the pair found by the
    scan, or else the first and the last keyframe. *)
Definition findBracket (kfs : list Keyframe) (frame : Z) : nat * nat :=
  match scan_bracket 0 kfs frame with
  | Some i => (i, S i)
  | None => (0%nat, (length kfs - 1)%nat)
  end.

(** [v || 0] on an optional number: [undefined] and [0] give [0]. *)
Definition or_zero (v : option R) : R :=
  match v with
  | Some r => if Req_dec_T r 0 then 0%R else r
  | None => 0%R
  end.
Global Arguments or_zero : simpl never.

(** The [for (const key in prevKf.properties)] loop. *)
Definition interpolateProperties (prevKf nextKf : Keyframe) (easedProgress : R)
    : gmap string R :=
  map_imap (λ key v,
    let start := or_zero (Some v) in
    let end_ := or_zero (kf_properties nextKf !! key) in
    Some (start + (end_ - start) * easedProgress)%R) (kf_properties prevKf).

(** [progress] of [frame] in the bracket. *)
Definition progress_of (prevKf nextKf : Keyframe) (frame : Z) : R :=
  (IZR (frame - kf_frame prevKf) / IZR (kf_frame nextKf - kf_frame prevKf))%R.

(** The body of the loop of [interpolateFrame] for one track: [None] is a
    [continue].  The keyframes of an array are distinct objects, so
    [prevKf === nextKf] compares their positions. *)
Definition interpolateTrack (frame : Z) (track : Track) : option Event :=
  let kfs := tr_keyframes track in
  if (length kfs <? 2)%nat then None
  else
    let '(i, j) := findBracket kfs frame in
    if (i =? j)%nat then None
    else
      match kfs !! i, kfs !! j with
      | Some prevKf, Some nextKf =>
          let easedProgress :=
            applyEasing (progress_of prevKf nextKf frame) (kf_easing prevKf) in
          Some (boneUpdate (tr_boneId track)
                  (interpolateProperties prevKf nextKf easedProgress))
      | _, _ => None
      end.

(** [interpolateFrame(frame)]: the [boneUpdate] events, in track order. *)
Definition interpolateFrame (frame : Z) (s : TimelineSystem) : list Event :=
  omap (interpolateTrack frame) (tracks s).

(** ** Playback clock *)

(** [goToFrame(frame)] *)
Definition goToFrame (frame : Z) (s : TimelineSystem) : TimelineSystem * list Event :=
  let s' := set_currentFrame (Z.max 1 (Z.min (totalFrames s) frame)) s in
  (s', interpolateFrame (currentFrame s') s' ++ [frameChanged (currentFrame s')]).

(** The callback that [play] hands to [setInterval]. *)
Definition tick (s : TimelineSystem) : TimelineSystem * list Event :=
  if currentFrame s >=? totalFrames s then goToFrame 1 s
  else goToFrame (currentFrame s + 1) s.

(** [play()] and [stop()], without the timer handle. *)
Definition play (s : TimelineSystem) : TimelineSystem :=
  if isPlaying s then s else set_isPlaying true s.

Definition stop (s : TimelineSystem) : TimelineSystem := set_isPlaying false s.

(** [n] firings of the interval. *)
Fixpoint ticks (n : nat) (s : TimelineSystem) : TimelineSystem :=
  match n with
  | O => s
  | S n' => ticks n' (fst (tick s))
  end.

(** ** Predicates used by the statements *)

(** Frames strictly ascending: sorted, one keyframe per frame. *)
Definition ascending (kfs : list Keyframe) : Prop :=
  StronglySorted Z.lt (kf_frame <$> kfs).

(** Sorted ascending by frame, as [sort] leaves an array. *)
Definition sorted_by_frame (kfs : list Keyframe) : Prop :=
  StronglySorted Z.le (kf_frame <$> kfs).

(** Number of keyframes of a track at a frame. *)
Definition count_at (frame : Z) (kfs : list Keyframe) : nat :=
  length (filter (λ k, kf_frame k = frame) kfs).

(** All keyframes of the timeline, in iteration order. *)
Definition all_keyframes (ts : list Track) : list Keyframe :=
  ts ≫= tr_keyframes.

(** [easing] tag rewritten, the rest of the keyframe kept. *)
Definition set_easing (tag : string) (k : Keyframe) : Keyframe :=
  {| kf_id := kf_id k; kf_frame := kf_frame k; kf_boneId := kf_boneId k;
     kf_properties := kf_properties k; kf_easing := tag |}.

(** ** Concrete timelines used by the examples *)

(** The track of the scenario: [{frame: 1, x: 0}] and [{frame: 10, x: 100}],
    easing [linear]. *)
Definition scenario_first : Keyframe :=
  {| kf_id := "kf_1"; kf_frame := 1; kf_boneId := "bone_1";
     kf_properties := {[ "x" := 0%R ]}; kf_easing := "linear" |}.

Definition scenario_last : Keyframe :=
  {| kf_id := "kf_2"; kf_frame := 10; kf_boneId := "bone_1";
     kf_properties := {[ "x" := 100%R ]}; kf_easing := "linear" |}.

Definition scenario_track : Track :=
  {| tr_id := "track_1"; tr_name := "arm"; tr_boneId := "bone_1";
     tr_keyframes := [scenario_first; scenario_last];
     tr_isVisible := true; tr_isLocked := false |}.

(** A bracket whose two keyframes carry different property keys. *)
Definition sparse_prev : Keyframe :=
  {| kf_id := "kf_1"; kf_frame := 1; kf_boneId := "bone_1";
     kf_properties := {[ "x" := 5%R ]}; kf_easing := "easeIn" |}.

Definition sparse_next : Keyframe :=
  {| kf_id := "kf_2"; kf_frame := 10; kf_boneId := "bone_1";
     kf_properties := {[ "x" := 100%R; "y" := 50%R ]}; kf_easing := "linear" |}.

Definition sparse_track : Track :=
  {| tr_id := "track_1"; tr_name := "arm"; tr_boneId := "bone_1";
     tr_keyframes := [sparse_prev; sparse_next];
     tr_isVisible := true; tr_isLocked := false |}.

(** One track with a keyframe at frame 1 that was created while
    [Date.now()] read 7, so that it is named [kf_7]. *)
Definition same_ms : TimelineSystem :=
  let s1 := fst (createTrack "1" "arm" "bone_a" initial) in
  match addKeyframe "7" "track_1" 1 (Some {[ "x" := 0%R ]}) s1 with
  | Ok (s2, _) => s2
  | Throw _ => s1
  end.

End Timeline.

Module Bones.

Open Scope R_scope.

(** ** Data model *)

Record Vector2 := mkVector2 { vx : R; vy : R }.

Inductive BoneType := FK | IK.

Record BoneData := mkBone {
  bone_id : string;
  bone_name : string;
  bone_x : R;
  bone_y : R;
  bone_length : R;
  bone_angle : R;
  bone_color : string;
  bone_thickness : R;
  bone_parentId : option string;
  bone_children : list string;
  bone_type : BoneType;
  bone_isSelected : bool
}.

(** The fields of [BoneSystem] that are not graphics. *)
Record BoneSystem := mkBoneSystem {
  bones : gmap string BoneData;
  selectedBoneId : option string
}.

Definition empty : BoneSystem := {| bones := ∅; selectedBoneId := None |}.

Definition ikIterations : nat := 10.
Definition ikTolerance : R := 0.1.

(** ** Field assignments *)

Definition set_position (p : Vector2) (b : BoneData) : BoneData :=
  {| bone_id := bone_id b; bone_name := bone_name b; bone_x := vx p; bone_y := vy p;
     bone_length := bone_length b; bone_angle := bone_angle b;
     bone_color := bone_color b; bone_thickness := bone_thickness b;
     bone_parentId := bone_parentId b; bone_children := bone_children b;
     bone_type := bone_type b; bone_isSelected := bone_isSelected b |}.

Definition set_angle (a : R) (b : BoneData) : BoneData :=
  {| bone_id := bone_id b; bone_name := bone_name b; bone_x := bone_x b; bone_y := bone_y b;
     bone_length := bone_length b; bone_angle := a;
     bone_color := bone_color b; bone_thickness := bone_thickness b;
     bone_parentId := bone_parentId b; bone_children := bone_children b;
     bone_type := bone_type b; bone_isSelected := bone_isSelected b |}.

Definition set_children (c : list string) (b : BoneData) : BoneData :=
  {| bone_id := bone_id b; bone_name := bone_name b; bone_x := bone_x b; bone_y := bone_y b;
     bone_length := bone_length b; bone_angle := bone_angle b;
     bone_color := bone_color b; bone_thickness := bone_thickness b;
     bone_parentId := bone_parentId b; bone_children := c;
     bone_type := bone_type b; bone_isSelected := bone_isSelected b |}.

Definition set_isSelected (v : bool) (b : BoneData) : BoneData :=
  {| bone_id := bone_id b; bone_name := bone_name b; bone_x := bone_x b; bone_y := bone_y b;
     bone_length := bone_length b; bone_angle := bone_angle b;
     bone_color := bone_color b; bone_thickness := bone_thickness b;
     bone_parentId := bone_parentId b; bone_children := bone_children b;
     bone_type := bone_type b; bone_isSelected := v |}.

(** [child.x += dx; child.y += dy] *)
Definition translate (dx dy : R) (b : BoneData) : BoneData :=
  set_position {| vx := bone_x b + dx; vy := bone_y b + dy |} b.

Definition set_bones (m : gmap string BoneData) (st : BoneSystem) : BoneSystem :=
  {| bones := m; selectedBoneId := selectedBoneId st |}.

(** The test [if (id)] on an optional string: [undefined], [null] and the
    empty string are falsy. *)
Definition truthy (o : option string) : option string :=
  match o with
  | Some s => if decide (s = EmptyString) then None else Some s
  | None => None
  end.

(** ** Vector helpers *)

(** [Math.hypot(a, b)] *)
Definition hypot (a b : R) : R := sqrt (a * a + b * b).

(** [Math.atan2(y, x)] on real numbers. *)
Definition atan2 (y x : R) : R :=
  if Rlt_dec 0 x then atan (y / x)
  else if Rlt_dec x 0 then
    if Rle_dec 0 y then atan (y / x) + PI else atan (y / x) - PI
  else if Rlt_dec 0 y then PI / 2
  else if Rlt_dec y 0 then - PI / 2
  else 0.

Definition distance (a b : Vector2) : R := hypot (vx b - vx a) (vy b - vy a).

Definition normalize (v : Vector2) : Vector2 :=
  let len := hypot (vx v) (vy v) in
  if Rlt_dec 0 len then {| vx := vx v / len; vy := vy v / len |}
  else {| vx := 0; vy := 0 |}.

Definition getBoneEnd (bone : BoneData) : Vector2 :=
  {| vx := bone_x bone + cos (bone_angle bone) * bone_length bone;
     vy := bone_y bone + sin (bone_angle bone) * bone_length bone |}.

(** ** Operations on the hierarchy *)

(** [array.forEach(body)] where the body may fail to return (fuel). *)
Fixpoint forEach {S : Type} (body : string → S → option S) (l : list string) (s : S)
    : option S :=
  match l with
  | [] => Some s
  | a :: l' =>
      match body a s with
      | Some s' => forEach body l' s'
      | None => None
      end
  end.

(** [createBone(name, x, y, length, angle, type, parentId?)]; [id] is the
    string the function builds from [Date.now()] and [Math.random()]. *)
Definition createBone (id : string) (name : string) (x y length angle : R)
    (type : BoneType) (parentId : option string) (st : BoneSystem)
    : BoneSystem * BoneData :=
  let bone := {| bone_id := id; bone_name := name; bone_x := x; bone_y := y;
                 bone_length := length; bone_angle := angle;
                 bone_color := "#00ff88"; bone_thickness := 3;
                 bone_parentId := parentId; bone_children := [];
                 bone_type := type; bone_isSelected := false |} in
  let m := <[id := bone]> (bones st) in
  let m' :=
    match truthy parentId with
    | Some pid =>
        match m !! pid with
        | Some parent =>
            alter (set_position (getBoneEnd parent)) id
              (alter (λ p, set_children (bone_children p ++ [id]) p) pid m)
        | None => m
        end
    | None => m
    end in
  (set_bones m' st, default bone (m' !! id)).

(** [updateBonePosition(bone)], by the id of the bone. *)
Fixpoint updateBonePosition (fuel : nat) (boneId : string) (m : gmap string BoneData)
    : option (gmap string BoneData) :=
  match fuel with
  | O => None
  | S fuel' =>
      match m !! boneId with
      | None => Some m
      | Some bone =>
          let m1 :=
            match truthy (bone_parentId bone) with
            | Some pid =>
                match m !! pid with
                | Some parent => alter (set_position (getBoneEnd parent)) boneId m
                | None => m
                end
            | None => m
            end in
          forEach (λ childId m',
                     match m' !! childId with
                     | Some _ => updateBonePosition fuel' childId m'
                     | None => Some m'
                     end) (bone_children bone) m1
      end
  end.

(** [moveChildren(bone, dx, dy)] *)
Fixpoint moveChildren (fuel : nat) (boneId : string) (dx dy : R)
    (m : gmap string BoneData) : option (gmap string BoneData) :=
  match fuel with
  | O => None
  | S fuel' =>
      match m !! boneId with
      | None => Some m
      | Some bone =>
          forEach (λ childId m',
                     match m' !! childId with
                     | Some _ =>
                         moveChildren fuel' childId dx dy
                           (alter (translate dx dy) childId m')
                     | None => Some m'
                     end) (bone_children bone) m
      end
  end.

(** [moveBone(boneId, position)] *)
Definition moveBone (fuel : nat) (boneId : string) (position : Vector2)
    (st : BoneSystem) : option BoneSystem :=
  match bones st !! boneId with
  | None => Some st
  | Some bone =>
      let dx := vx position - bone_x bone in
      let dy := vy position - bone_y bone in
      match moveChildren fuel boneId dx dy (alter (set_position position) boneId (bones st)) with
      | Some m => Some (set_bones m st)
      | None => None
      end
  end.

(** [setBoneAngle(boneId, angle)] *)
Definition setBoneAngle (fuel : nat) (boneId : string) (angle : R)
    (st : BoneSystem) : option BoneSystem :=
  match bones st !! boneId with
  | None => Some st
  | Some _ =>
      match updateBonePosition fuel boneId (alter (set_angle angle) boneId (bones st)) with
      | Some m => Some (set_bones m st)
      | None => None
      end
  end.

(** [selectBone(boneId)] *)
Definition selectBone (boneId : option string) (st : BoneSystem) : BoneSystem :=
  let m1 :=
    match truthy (selectedBoneId st) with
    | Some prev => alter (set_isSelected false) prev (bones st)
    | None => bones st
    end in
  let m2 :=
    match truthy boneId with
    | Some b => alter (set_isSelected true) b m1
    | None => m1
    end in
  {| bones := m2; selectedBoneId := boneId |}.

(** [deleteBone(boneId)] *)
Fixpoint deleteBone (fuel : nat) (boneId : string) (st : BoneSystem)
    : option BoneSystem :=
  match fuel with
  | O => None
  | S fuel' =>
      match bones st !! boneId with
      | None => Some st
      | Some bone =>
          let m1 :=
            match truthy (bone_parentId bone) with
            | Some pid =>
                alter (λ parent,
                         set_children
                           (filter (λ id, id ≠ boneId) (bone_children parent)) parent)
                      pid (bones st)
            | None => bones st
            end in
          let kids :=
            match m1 !! boneId with
            | Some bone' => bone_children bone'
            | None => []
            end in
          match forEach (deleteBone fuel') kids (set_bones m1 st) with
          | Some st2 =>
              Some {| bones := delete boneId (bones st2);
                      selectedBoneId :=
                        if decide (selectedBoneId st2 = Some boneId) then None
                        else selectedBoneId st2 |}
          | None => None
          end
      end
  end.

(** ** Inverse kinematics *)

(** The [while (current)] loop of [solveIK] that climbs the [parentId]
    links; [chain.unshift] puts the root first. *)
Fixpoint buildChain (fuel : nat) (current : string) (chain : list string)
    (m : gmap string BoneData) : option (list string) :=
  match fuel with
  | O => None
  | S fuel' =>
      match m !! current with
      | None => Some chain
      | Some bone =>
          match truthy (bone_parentId bone) with
          | Some pid => buildChain fuel' pid (current :: chain) m
          | None => Some (current :: chain)
          end
      end
  end.

(** [getChainEnd(chain)] on the live state. *)
Definition getChainEnd (chain : list string) (m : gmap string BoneData)
    : option Vector2 :=
  match last chain with
  | Some lastId => getBoneEnd <$> m !! lastId
  | None => None
  end.

(** The angle that the body of the inner loop adds to the joint. *)
Definition angleDiff (currentBone : BoneData) (endEffector target : Vector2) : R :=
  let toTarget := normalize {| vx := vx target - bone_x currentBone;
                               vy := vy target - bone_y currentBone |} in
  let toEnd := normalize {| vx := vx endEffector - bone_x currentBone;
                            vy := vy endEffector - bone_y currentBone |} in
  let cross := vx toTarget * vy toEnd - vy toTarget * vx toEnd in
  let dot := vx toTarget * vx toEnd + vy toTarget * vy toEnd in
  atan2 cross dot.

(** One turn of the inner loop for the joint [currentId]; the boolean says
    whether the turn executed [return]. *)
Definition ccdJoint (fuel : nat) (chain : list string) (target : Vector2)
    (currentId : string) (m : gmap string BoneData)
    : option (bool * gmap string BoneData) :=
  match m !! currentId, getChainEnd chain m with
  | Some currentBone, Some endEffector =>
      if Rlt_dec (distance endEffector target) ikTolerance then Some (true, m)
      else
        let d := angleDiff currentBone endEffector target in
        let m1 := alter (λ b, set_angle (bone_angle b + d) b) currentId m in
        match updateBonePosition fuel currentId m1 with
        | Some m2 => Some (false, m2)
        | None => None
        end
  | _, _ => Some (false, m)
  end.

(** The inner loop, over the joints from the effector back to the root. *)
Fixpoint ccdPass (fuel : nat) (chain : list string) (target : Vector2)
    (joints : list string) (m : gmap string BoneData)
    : option (bool * gmap string BoneData) :=
  match joints with
  | [] => Some (false, m)
  | j :: joints' =>
      match ccdJoint fuel chain target j m with
      | Some (true, m') => Some (true, m')
      | Some (false, m') => ccdPass fuel chain target joints' m'
      | None => None
      end
  end.

(** The outer loop: [iterations] passes unless one of them returns. *)
Fixpoint ccdIterations (fuel : nat) (chain : list string) (target : Vector2)
    (iterations : nat) (m : gmap string BoneData)
    : option (bool * gmap string BoneData) :=
  match iterations with
  | O => Some (false, m)
  | S iterations' =>
      match ccdPass fuel chain target (rev chain) m with
      | Some (true, m') => Some (true, m')
      | Some (false, m') => ccdIterations fuel chain target iterations' m'
      | None => None
      end
  end.

(** [solveIK(boneId, target)] together with the way it left its loops:
    [true] for the [return] on the tolerance test, [false] when the
    iterations were used up. *)
Definition solveIK_outcome (fuel : nat) (boneId : string) (target : Vector2)
    (st : BoneSystem) : option (bool * BoneSystem) :=
  match bones st !! boneId with
  | None => Some (false, st)
  | Some _ =>
      match buildChain fuel boneId [] (bones st) with
      | Some chain =>
          match ccdIterations fuel chain target ikIterations (bones st) with
          | Some (r, m) => Some (r, set_bones m st)
          | None => None
          end
      | None => None
      end
  end.

Definition solveIK (fuel : nat) (boneId : string) (target : Vector2)
    (st : BoneSystem) : option BoneSystem :=
  snd <$> solveIK_outcome fuel boneId target st.

(** The end-effector of the chain that ends in [boneId]. *)
Definition endEffectorOf (boneId : string) (st : BoneSystem) : option Vector2 :=
  getBoneEnd <$> bones st !! boneId.

(** ** Sequences of operations *)

Inductive Op :=
| OpCreateBone (id name : string) (x y length angle : R) (type : BoneType)
    (parentId : option string)
| OpDeleteBone (boneId : string)
| OpMoveBone (boneId : string) (position : Vector2)
| OpSetBoneAngle (boneId : string) (angle : R)
| OpSolveIK (boneId : string) (target : Vector2)
| OpSelectBone (boneId : option string).

Definition exec (fuel : nat) (op : Op) (st : BoneSystem) : option BoneSystem :=
  match op with
  | OpCreateBone id name x y length angle type parentId =>
      Some (fst (createBone id name x y length angle type parentId st))
  | OpDeleteBone boneId => deleteBone fuel boneId st
  | OpMoveBone boneId position => moveBone fuel boneId position st
  | OpSetBoneAngle boneId angle => setBoneAngle fuel boneId angle st
  | OpSolveIK boneId target => solveIK fuel boneId target st
  | OpSelectBone boneId => Some (selectBone boneId st)
  end.

(** The id that [createBone] generates is new: it is not empty, names no
    bone and is not yet mentioned as a parent. *)
Definition fresh_id (id : string) (parentId : option string) (st : BoneSystem) : Prop :=
  id ≠ EmptyString ∧ bones st !! id = None ∧ parentId ≠ Some id
  ∧ ∀ k b, bones st !! k = Some b → bone_parentId b ≠ Some id.

Definition valid_op (op : Op) (st : BoneSystem) : Prop :=
  match op with
  | OpCreateBone id _ _ _ _ _ _ parentId => fresh_id id parentId st
  | _ => True
  end.

(** The states that sequences of operations reach from the empty
    hierarchy. *)
Inductive reachable : BoneSystem → Prop :=
| reachable_empty : reachable empty
| reachable_step st op fuel st' :
    reachable st → valid_op op st → exec fuel op st = Some st' → reachable st'.

(** ** Predicates used by the statements *)

(** Every id in [b.children] names a bone whose [parentId] is [b.id]. *)
Definition children_point_back (m : gmap string BoneData) : Prop :=
  ∀ k b c, m !! k = Some b → c ∈ bone_children b →
    ∃ cb, m !! c = Some cb ∧ bone_parentId cb = Some (bone_id b).

(** Every bone whose [parentId] is set names a bone that lists it. *)
Definition parents_list_child (m : gmap string BoneData) : Prop :=
  ∀ k b p, m !! k = Some b → bone_parentId b = Some p →
    ∃ pb, m !! p = Some pb ∧ bone_id b ∈ bone_children pb.

(** The same for the bones whose [parentId] names a bone of the store. *)
Definition resolved_parents_list_child (m : gmap string BoneData) : Prop :=
  ∀ k b p pb, m !! k = Some b → bone_parentId b = Some p → m !! p = Some pb →
    bone_id b ∈ bone_children pb.

(** [c] is a child of [a]. *)
Definition child_of (m : gmap string BoneData) (a c : string) : Prop :=
  ∃ b, m !! a = Some b ∧ c ∈ bone_children b.

(** [d] is below [a] in the tree. *)
Definition descendant (m : gmap string BoneData) : relation string :=
  tc (child_of m).

(** [a] itself or a bone below it. *)
Definition in_subtree (m : gmap string BoneData) (a k : string) : Prop :=
  k = a ∨ descendant m a k.

(** Equal but for the cached position. *)
Definition same_but_position (b b' : BoneData) : Prop :=
  b' = set_position {| vx := bone_x b'; vy := bone_y b' |} b.

(** ** Well-formed hierarchies *)

(** What the links of the tree are made of. *)
Definition shape (b : BoneData) : string * option string * list string :=
  (bone_id b, bone_parentId b, bone_children b).

Definition same_shape (m m' : gmap string BoneData) : Prop :=
  ∀ k, shape <$> m !! k = shape <$> m' !! k.

(** Everything but the cached position. *)
Definition unplaced (b : BoneData) : BoneData :=
  set_position {| vx := 0; vy := 0 |} b.

Definition same_but_positions (m m' : gmap string BoneData) : Prop :=
  ∀ k, unplaced <$> m !! k = unplaced <$> m' !! k.

(** [rank] grows from parent to child and stays below [bound]. *)
Definition ranked (rank : string → nat) (bound : nat) (m : gmap string BoneData) : Prop :=
  (∀ k b, m !! k = Some b → (rank k < bound)%nat)
  ∧ (∀ a c, child_of m a c → (rank a < rank c)%nat).

(** The invariant of the hierarchy.  [D] holds the bones that a running
    [deleteBone] has already taken out of their parent's list and not yet
    removed from the store; between operations [D] is empty. *)
Record inv (D : gset string) (rank : string → nat) (bound : nat)
    (m : gmap string BoneData) : Prop := {
  inv_key : ∀ k b, m !! k = Some b → bone_id b = k;
  inv_nonempty : m !! EmptyString = None;
  inv_children : ∀ k b c, m !! k = Some b → c ∈ bone_children b →
                   ∃ cb, m !! c = Some cb ∧ bone_parentId cb = Some k;
  inv_parents : ∀ k b p pb, m !! k = Some b → bone_parentId b = Some p →
                  m !! p = Some pb → k ∈ bone_children pb ∨ k ∈ D;
  inv_detached : ∀ j k b, j ∈ D → m !! k = Some b → j ∉ bone_children b;
  inv_nodup : ∀ k b, m !! k = Some b → NoDup (bone_children b);
  inv_ranked : ranked rank bound m
}.

Definition wf (m : gmap string BoneData) : Prop :=
  ∃ rank bound, inv ∅ rank bound m.

(** [parent.children.filter(id => id !== k)] stored back in the parent. *)
Definition without (k : string) (parent : BoneData) : BoneData :=
  set_children (filter (λ id, id ≠ k) (bone_children parent)) parent.

(** ** Concrete hierarchies used by the examples *)

(** One bone created with a [parentId] that names no bone. *)
Definition orphan : BoneSystem :=
  fst (createBone "bone_1" "arm" 0 0 50 0 FK (Some "ghost") empty).

(** A two-bone chain along the x axis: [bone_a] of length 1 at the origin
    and its child [bone_b] of length 1, both at angle 0. *)
Definition arm_root : BoneSystem :=
  fst (createBone "bone_a" "arm" 0 0 1 0 IK None empty).

Definition arm_chain : BoneSystem :=
  fst (createBone "bone_b" "forearm" 0 0 1 0 IK (Some "bone_a") arm_root).

(** A target on the segment between the joints of [arm_chain]. *)
Definition arm_target : Vector2 := {| vx := 1.5; vy := 0 |}.

(** The bones of [arm_chain] with their coordinates worked out. *)
Definition arm_a : BoneData :=
  mkBone "bone_a" "arm" 0 0 1 0 "#00ff88" 3 None ["bone_b"] IK false.

Definition arm_b : BoneData :=
  mkBone "bone_b" "forearm" 1 0 1 0 "#00ff88" 3 (Some "bone_a") [] IK false.

Definition arm_bones : gmap string BoneData :=
  <["bone_b" := arm_b]> (<["bone_a" := arm_a]> ∅).

(** A bent two-bone chain: [bone_a] of length 1 at the origin with the
    angle pi/3 and its child [bone_b] of length 1 with the angle 2 pi/3,
    so that the chain ends at (0, sqrt 3). *)
Definition bent_root : BoneSystem :=
  fst (createBone "bone_a" "arm" 0 0 1 (PI / 3) IK None empty).

Definition bent_chain : BoneSystem :=
  fst (createBone "bone_b" "forearm" 0 0 1 (2 * (PI / 3)) IK (Some "bone_a") bent_root).

(** A target off the lines through the joints of [bent_chain], at the
    distance sqrt(1/2) from its root. *)
Definition bent_target : Vector2 := {| vx := 1 / 2; vy := 1 / 2 |}.

(** The bones of that chain when the angles are [alpha] and [beta]. *)
Definition pose_a (alpha : R) : BoneData :=
  mkBone "bone_a" "arm" 0 0 1 alpha "#00ff88" 3 None ["bone_b"] IK false.

Definition pose_b (alpha beta : R) : BoneData :=
  set_position (getBoneEnd (pose_a alpha))
    (mkBone "bone_b" "forearm" 0 0 1 beta "#00ff88" 3 (Some "bone_a") [] IK false).

Definition pose (alpha beta : R) : gmap string BoneData :=
  <["bone_b" := pose_b alpha beta]> (<["bone_a" := pose_a alpha]> ∅).

End Bones.

(** * More of the timeline *)

Module TimelineOps.
Import Timeline.
Open Scope Z_scope.

(** [selectKeyframe(keyframe)] *)
Definition selectKeyframe (keyframe : Keyframe) (s : TimelineSystem)
    : TimelineSystem * list Event :=
  let '(s', events) := goToFrame (kf_frame keyframe) s in
  (s', events ++ [keyframeSelected keyframe]).

(** [togglePlay()] *)
Definition togglePlay (s : TimelineSystem) : TimelineSystem :=
  if isPlaying s then stop s else play s.

(** The object that [serialize] returns and [deserialize] reads; a field
    that the data may lack is optional. *)
Record Snapshot := mkSnapshot {
  snap_tracks : list Track;
  snap_currentFrame : option Z;
  snap_totalFrames : option Z;
  snap_fps : option Z
}.

(** [serialize()] *)
Definition serialize (s : TimelineSystem) : Snapshot :=
  {| snap_tracks := tracks s;
     snap_currentFrame := Some (currentFrame s);
     snap_totalFrames := Some (totalFrames s);
     snap_fps := Some (fps s) |}.

(** [v || d] on an optional integer: [undefined] and [0] give [d]. *)
Definition or_default (v : option Z) (d : Z) : Z :=
  match v with
  | Some z => if decide (z = 0) then d else z
  | None => d
  end.

(** [deserialize(data)]: the map is cleared and refilled in the order of
    the data, then the clock is set and [goToFrame] is called. *)
Definition deserialize (data : Snapshot) (s : TimelineSystem)
    : TimelineSystem * list Event :=
  let s1 := {| tracks := foldl tracks_set [] (snap_tracks data);
               currentFrame := currentFrame s;
               totalFrames := or_default (snap_totalFrames data) 300;
               fps := or_default (snap_fps data) 24;
               isPlaying := isPlaying s;
               onionSkin := onionSkin s |} in
  goToFrame (or_default (snap_currentFrame data) 1) s1.

(** [Math.round(r)]: the integer below [r + 1/2]. *)
Definition round (r : R) : Z := Int_part (r + 1 / 2).

(** [kfEl.style.left] of [renderKeyframe], and the [left] that
    [goToFrame] gives the playhead, in pixels. *)
Definition keyframeLeft (frame : Z) : Z := (frame - 1) * 20.

(** The frame that the click handler of [renderTrack] computes from the
    horizontal offset [x] of the click in the keyframe area. *)
Definition frameAtClick (x : R) : Z := round (x / 20) + 1.

(** ** Sequences of operations *)

Inductive TimelineOp :=
| OpCreateTrack (now name boneId : string)
| OpAddKeyframe (now trackId : string) (frame : Z) (properties : option (gmap string R))
| OpUpdateKeyframe (keyframeId : string) (properties : option (gmap string R))
| OpDeleteKeyframe (keyframeId : string)
| OpGoToFrame (frame : Z)
| OpSelectKeyframe (keyframe : Keyframe)
| OpTick
| OpPlay
| OpStop
| OpTogglePlay.

(** The timeline after an operation; an operation that throws leaves it
    as it was. *)
Definition exec_timeline (op : TimelineOp) (s : TimelineSystem) : TimelineSystem :=
  match op with
  | OpCreateTrack now name boneId => fst (createTrack now name boneId s)
  | OpAddKeyframe now trackId frame properties =>
      match addKeyframe now trackId frame properties s with
      | Ok (s', _) => s'
      | Throw _ => s
      end
  | OpUpdateKeyframe keyframeId properties =>
      match updateKeyframe keyframeId properties s with
      | Ok (s', _) => s'
      | Throw _ => s
      end
  | OpDeleteKeyframe keyframeId => deleteKeyframe keyframeId s
  | OpGoToFrame frame => fst (goToFrame frame s)
  | OpSelectKeyframe keyframe => fst (selectKeyframe keyframe s)
  | OpTick => fst (tick s)
  | OpPlay => play s
  | OpStop => stop s
  | OpTogglePlay => togglePlay s
  end.

(** The timelines that the operations reach from the initial one. *)
Inductive reachable_timeline : TimelineSystem → Prop :=
| reachable_timeline_initial : reachable_timeline initial
| reachable_timeline_step s op :
    reachable_timeline s → reachable_timeline (exec_timeline op s).

(** ** Predicates used by the statements *)

(** The bone that an event of [interpolateFrame] is addressed to. *)
Definition event_boneId (e : Event) : option string :=
  match e with
  | boneUpdate boneId _ => Some boneId
  | _ => None
  end.

(** What the operations keep true of every track. *)
Definition track_ok (t : Track) : Prop :=
  ascending (tr_keyframes t)
  ∧ Forall (λ k, kf_boneId k = tr_boneId t) (tr_keyframes t).

(** [a <= v <= b] or [b <= v <= a]. *)
Definition between (a b v : R) : Prop :=
  (Rmin a b <= v <= Rmax a b)%R.

(** The invariant of the operations. *)
Definition timeline_ok (s : TimelineSystem) : Prop :=
  Forall track_ok (tracks s)
  ∧ NoDup (tr_id <$> tracks s)
  ∧ 1 <= currentFrame s <= totalFrames s
  ∧ totalFrames s = 300
  ∧ fps s = 24.

(** ** A concrete timeline used by the examples *)

(** The track of the scenario on a new timeline. *)
Definition scenario : TimelineSystem := set_tracks [scenario_track] initial.

End TimelineOps.

(** * The viewport of the graphics engine *)

Module Graphics.
Open Scope R_scope.

Record Viewport := mkViewport { vp_x : R; vp_y : R; vp_zoom : R }.

(** The fields of [GraphicsEngine] that are not PIXI objects. *)
Record GraphicsEngine := mkEngine {
  viewport : Viewport;
  isGridVisible : bool
}.

Definition initial_engine : GraphicsEngine :=
  {| viewport := {| vp_x := 0; vp_y := 0; vp_zoom := 1 |}; isGridVisible := true |}.

(** [setZoom(zoom)] *)
Definition setZoom (zoom : R) (g : GraphicsEngine) : GraphicsEngine :=
  {| viewport := {| vp_x := vp_x (viewport g); vp_y := vp_y (viewport g);
                    vp_zoom := Rmax 0.1 (Rmin 5 zoom) |};
     isGridVisible := isGridVisible g |}.

(** The [wheel] listener. *)
Definition wheel (deltaY : R) (g : GraphicsEngine) : GraphicsEngine :=
  let zoomFactor := if Rlt_dec 0 deltaY then 0.9 else 1.1 in
  setZoom (vp_zoom (viewport g) * zoomFactor) g.

(** [pan(dx, dy)] *)
Definition pan (dx dy : R) (g : GraphicsEngine) : GraphicsEngine :=
  {| viewport := {| vp_x := vp_x (viewport g) + dx; vp_y := vp_y (viewport g) + dy;
                    vp_zoom := vp_zoom (viewport g) |};
     isGridVisible := isGridVisible g |}.

(** [resetView()] *)
Definition resetView (g : GraphicsEngine) : GraphicsEngine :=
  {| viewport := {| vp_x := 0; vp_y := 0; vp_zoom := 1 |};
     isGridVisible := isGridVisible g |}.

(** [toggleGrid()] *)
Definition toggleGrid (g : GraphicsEngine) : GraphicsEngine :=
  {| viewport := viewport g; isGridVisible := negb (isGridVisible g) |}.

Inductive ViewOp :=
| OpSetZoom (zoom : R)
| OpWheel (deltaY : R)
| OpPan (dx dy : R)
| OpResetView
| OpToggleGrid.

Definition exec_view (op : ViewOp) (g : GraphicsEngine) : GraphicsEngine :=
  match op with
  | OpSetZoom zoom => setZoom zoom g
  | OpWheel deltaY => wheel deltaY g
  | OpPan dx dy => pan dx dy g
  | OpResetView => resetView g
  | OpToggleGrid => toggleGrid g
  end.

(** The engine after a list of operations, first operation first. *)
Definition run (ops : list ViewOp) (g : GraphicsEngine) : GraphicsEngine :=
  foldl (λ g op, exec_view op g) g ops.

End Graphics.

(** * More of the bone hierarchy *)

Module BonesSpec.
Import Bones.
Open Scope R_scope.

(** [{ x: bone.x, y: bone.y }] *)
Definition getBoneStart (b : BoneData) : Vector2 := {| vx := bone_x b; vy := bone_y b |}.

(** Everything but the pose: the cached position and the angle. *)
Definition unposed (b : BoneData) : BoneData := set_angle 0 (unplaced b).

Definition same_but_pose (m m' : gmap string BoneData) : Prop :=
  ∀ k, unposed <$> m !! k = unposed <$> m' !! k.

(** The bone [k] starts where its parent ends, when it has a parent that
    is in the store. *)
Definition attached (m : gmap string BoneData) (k : string) : Prop :=
  ∀ b pid parent, m !! k = Some b → truthy (bone_parentId b) = Some pid →
    m !! pid = Some parent → getBoneStart b = getBoneEnd parent.

(** A bone that is marked selected is the selected bone. *)
Definition selection_ok (st : BoneSystem) : Prop :=
  ∀ k b, bones st !! k = Some b → bone_isSelected b = true →
    selectedBoneId st = Some k.

(** The marks of [m'] are marks of [m]. *)
Definition marks_of (m m' : gmap string BoneData) : Prop :=
  ∀ k b', m' !! k = Some b' → bone_isSelected b' = true →
    ∃ b, m !! k = Some b ∧ bone_isSelected b = true.

(** The store once [deleteBone] has taken [k] out of the children of the
    parent that the bone names. *)
Definition detach (k : string) (bone : BoneData) (m : gmap string BoneData)
    : gmap string BoneData :=
  match truthy (bone_parentId bone) with
  | Some pid => alter (without k) pid m
  | None => m
  end.

(** How a deletion treats the selection: it is cleared or kept; it is
    not left on a bone that was removed; it is lost only together with
    its bone; no bone appears. *)
Definition selection_survives (st st' : BoneSystem) : Prop :=
  (selectedBoneId st' = None ∨ selectedBoneId st' = selectedBoneId st)
  ∧ (∀ s, is_Some (bones st !! s) → selectedBoneId st' = Some s →
       is_Some (bones st' !! s))
  ∧ (∀ s, selectedBoneId st = Some s → selectedBoneId st' ≠ Some s →
       is_Some (bones st !! s) ∧ bones st' !! s = None)
  ∧ (∀ s, is_Some (bones st' !! s) → is_Some (bones st !! s)).

(** What the place of a bone and of the bones below it is computed
    from. *)
Definition geometry (b : BoneData) : R * R * R * R * option string :=
  (bone_x b, bone_y b, bone_length b, bone_angle b, bone_parentId b).

(** The bone at [x], if there is one in [m'], is in [m] with the same
    geometry. *)
Definition geometry_from (m m' : gmap string BoneData) (x : string) : Prop :=
  ∀ b', m' !! x = Some b' → ∃ b, m !! x = Some b ∧ geometry b = geometry b'.

(** [moveBone] is applied to a bone without a parent in the store only:
    the operations that keep every bone at the end of its parent. *)
Definition fk_op (op : Op) (st : BoneSystem) : Prop :=
  match op with
  | OpMoveBone boneId _ =>
      ∀ b pid, bones st !! boneId = Some b →
        truthy (bone_parentId b) = Some pid → bones st !! pid = None
  | _ => True
  end.

(** The hierarchies that such sequences of operations reach. *)
Inductive posed : BoneSystem → Prop :=
| posed_empty : posed empty
| posed_step st op fuel st' :
    posed st → valid_op op st → fk_op op st → exec fuel op st = Some st' → posed st'.

(** The [pointermove] handler that [setupBoneInteraction] installs for
    the bone [boneId], while the bone is dragged: an FK bone is turned
    towards the pointer, an IK bone is solved for it.  The handler
    belongs to the graphics of the bone, which [deleteBone] destroys, so
    that it runs for bones of the store only. *)
Definition pointermove (fuel : nat) (boneId : string) (localPos : Vector2)
    (st : BoneSystem) : option BoneSystem :=
  match bones st !! boneId with
  | None => Some st
  | Some bone =>
      match bone_type bone with
      | FK =>
          let dx := vx localPos - bone_x bone in
          let dy := vy localPos - bone_y bone in
          setBoneAngle fuel boneId (atan2 dy dx) st
      | IK => solveIK fuel boneId localPos st
      end
  end.

End BonesSpec.

(** * The arithmetic of the source on binary64 numbers

    [Timeline] and [Bones] take a [number] as a real.  The source
    computes with IEEE 754 binary64 numbers, which round and which have
    two zeros.  This module repeats, on primitive floats, the lines of
    the source whose result depends on that: the interpolation of a
    bracket, [moveBone] with [moveChildren], and the vectors of a joint
    visit of [solveIK]. *)

Module Doubles.
Import Floats.
Local Open Scope float_scope.

(** ** timeline.ts *)

Record Keyframe := mkKeyframe {
  kf_id : string;
  kf_frame : float;
  kf_boneId : string;
  kf_properties : gmap string float;
  kf_easing : string
}.

(** [Math.pow(b, 2)], taken as the rounded product [b * b]. *)
Definition pow2 (b : float) : float := b * b.

(** [applyEasing(t, type)] *)
Definition applyEasing (t : float) (type : string) : float :=
  if decide (type = "easeIn") then t * t
  else if decide (type = "easeOut") then 1 - (1 - t) * (1 - t)
  else if decide (type = "easeInOut") then
    if t <? 0.5 then 2 * t * t else 1 - pow2 (-2 * t + 2) / 2
  else t.

(** [v || 0]: [undefined], [NaN], [0] and [-0] give [0]. *)
Definition or_zero (v : option float) : float :=
  match v with
  | Some f => if is_nan f || is_zero f then 0 else f
  | None => 0
  end.

(** [interpolateFrame] from [const range] to the end of the
    [for (const key in prevKf.properties)] loop, for the bracket
    [(prevKf, nextKf)]: the object [interpolated]. *)
Definition interpolated (frame : float) (prevKf nextKf : Keyframe) : gmap string float :=
  let range := kf_frame nextKf - kf_frame prevKf in
  let progress := (frame - kf_frame prevKf) / range in
  let easedProgress := applyEasing progress (kf_easing prevKf) in
  map_imap (λ key v,
    let start := or_zero (Some v) in
    let end_ := or_zero (kf_properties nextKf !! key) in
    Some (start + (end_ - start) * easedProgress)) (kf_properties prevKf).

(** [{frame: 1, x: 0.2}] with the easing [tag], and [{frame: 10, x: 0.9}]. *)
Definition fade_prev (tag : string) : Keyframe :=
  {| kf_id := "kf_1"; kf_frame := 1; kf_boneId := "bone_1";
     kf_properties := {[ "x" := 0.2 ]}; kf_easing := tag |}.

Definition fade_next : Keyframe :=
  {| kf_id := "kf_2"; kf_frame := 10; kf_boneId := "bone_1";
     kf_properties := {[ "x" := 0.9 ]}; kf_easing := "linear" |}.

(** ** bones.ts *)

Record Vector2 := mkVector2 { vx : float; vy : float }.

Record BoneData := mkBone {
  bone_id : string;
  bone_name : string;
  bone_x : float;
  bone_y : float;
  bone_length : float;
  bone_angle : float;
  bone_color : string;
  bone_thickness : float;
  bone_parentId : option string;
  bone_children : list string;
  bone_type : Bones.BoneType;
  bone_isSelected : bool
}.

Definition set_position (p : Vector2) (b : BoneData) : BoneData :=
  {| bone_id := bone_id b; bone_name := bone_name b; bone_x := vx p; bone_y := vy p;
     bone_length := bone_length b; bone_angle := bone_angle b;
     bone_color := bone_color b; bone_thickness := bone_thickness b;
     bone_parentId := bone_parentId b; bone_children := bone_children b;
     bone_type := bone_type b; bone_isSelected := bone_isSelected b |}.

(** [child.x += dx; child.y += dy] *)
Definition translate (dx dy : float) (b : BoneData) : BoneData :=
  set_position {| vx := bone_x b + dx; vy := bone_y b + dy |} b.

(** [moveChildren(bone, dx, dy)] *)
Fixpoint moveChildren (fuel : nat) (boneId : string) (dx dy : float)
    (m : gmap string BoneData) : option (gmap string BoneData) :=
  match fuel with
  | O => None
  | S fuel' =>
      match m !! boneId with
      | None => Some m
      | Some bone =>
          Bones.forEach (λ childId m',
                     match m' !! childId with
                     | Some _ =>
                         moveChildren fuel' childId dx dy
                           (alter (translate dx dy) childId m')
                     | None => Some m'
                     end) (bone_children bone) m
      end
  end.

(** [moveBone(boneId, position)] *)
Definition moveBone (fuel : nat) (boneId : string) (position : Vector2)
    (m : gmap string BoneData) : option (gmap string BoneData) :=
  match m !! boneId with
  | None => Some m
  | Some bone =>
      let dx := vx position - bone_x bone in
      let dy := vy position - bone_y bone in
      moveChildren fuel boneId dx dy (alter (set_position position) boneId m)
  end.

(** [Math.hypot(a, b)], taken as the rounded root of the rounded sum of
    squares. *)
Definition hypot (a b : float) : float := sqrt (a * a + b * b).

Definition normalize (v : Vector2) : Vector2 :=
  let len := hypot (vx v) (vy v) in
  if 0 <? len then {| vx := vx v / len; vy := vy v / len |}
  else {| vx := 0; vy := 0 |}.

(** [cross] and [dot] of a joint visit of [solveIK]. *)
Definition crossDot (currentBone : BoneData) (endEffector target : Vector2)
    : float * float :=
  let toTarget := normalize {| vx := vx target - bone_x currentBone;
                               vy := vy target - bone_y currentBone |} in
  let toEnd := normalize {| vx := vx endEffector - bone_x currentBone;
                            vy := vy endEffector - bone_y currentBone |} in
  let cross := vx toTarget * vy toEnd - vy toTarget * vx toEnd in
  let dot := vx toTarget * vx toEnd + vy toTarget * vy toEnd in
  (cross, dot).

(** The binary64 number next to pi, [Math.PI]. *)
Definition PI : float := 3.141592653589793.

(** [Math.atan2(y, x)] where both arguments are zeros; ECMAScript fixes
    these four results by the signs of the zeros.  The other results are
    implementation-approximated and are not modelled. *)
Definition atan2 (y x : float) : option float :=
  match classify y, classify x with
  | PZero, PZero => Some 0
  | PZero, NZero => Some PI
  | NZero, PZero => Some (-0)
  | NZero, NZero => Some (- PI)
  | _, _ => None
  end.

(** [currentBone.angle += angleDiff]: the angle of the joint after the
    visit, where [Math.atan2] is modelled. *)
Definition turnedAngle (currentBone : BoneData) (endEffector target : Vector2)
    : option float :=
  let '(cross, dot) := crossDot currentBone endEffector target in
  (λ angleDiff, bone_angle currentBone + angleDiff) <$> atan2 cross dot.

(** A root at (0.1, 0) of length 1 along the x axis and its child, which
    [createBone] puts at the end (1.1, 0) of the root. *)
Definition limb : gmap string BoneData :=
  <[ "bone_b" := mkBone "bone_b" "forearm" 1.1 0 1 0 "#00ff88" 3
                   (Some "bone_a") [] Bones.FK false ]>
    (<[ "bone_a" := mkBone "bone_a" "arm" 0.1 0 1 0 "#00ff88" 3
                      None ["bone_b"] Bones.FK false ]> ∅).

(** A bone of length 1 at the origin with the angle 4, and its end
    [(cos 4, sin 4)] in binary64. *)
Definition spur : BoneData :=
  mkBone "bone_a" "arm" 0 0 1 4 "#00ff88" 3 None [] Bones.IK false.

Definition spur_end : Vector2 :=
  {| vx := -0.6536436208636119; vy := -0.7568024953079282 |}.

End Doubles.

(** * Facts about the timeline *)

Module TimelineFacts.
Import Timeline.
Open Scope Z_scope.

(** ** Easing and interpolation *)

Lemma or_zero_Some v : or_zero (Some v) = v.
Proof. unfold or_zero. destruct (Req_dec_T v 0); congruence. Qed.

Lemma applyEasing_0 tag : applyEasing 0 tag = 0%R.
Proof.
  unfold applyEasing. repeat case_decide; try lra.
  destruct (Rlt_dec 0 0.5); lra.
Qed.

Lemma applyEasing_1 tag : applyEasing 1 tag = 1%R.
Proof.
  unfold applyEasing. repeat case_decide; try lra.
  destruct (Rlt_dec 1 0.5); lra.
Qed.

Lemma applyEasing_default t tag :
  tag ∉ ["easeIn"; "easeOut"; "easeInOut"] → applyEasing t tag = t.
Proof.
  intros H. unfold applyEasing.
  repeat case_decide; subst; try done; exfalso; apply H; set_solver.
Qed.

Lemma interpolateProperties_0 p n : interpolateProperties p n 0 = kf_properties p.
Proof.
  apply map_eq. intros k. unfold interpolateProperties.
  rewrite map_lookup_imap. destruct (kf_properties p !! k) as [v|] eqn:E; cbn -[or_zero]; [|done].
  rewrite or_zero_Some. f_equal. lra.
Qed.

Lemma interpolateProperties_1 p n :
  interpolateProperties p n 1 =
  map_imap (λ key _, Some (default 0%R (kf_properties n !! key))) (kf_properties p).
Proof.
  apply map_eq. intros k. unfold interpolateProperties.
  rewrite !map_lookup_imap. destruct (kf_properties p !! k) as [v|] eqn:E; cbn -[or_zero]; [|done].
  f_equal. rewrite or_zero_Some.
  destruct (kf_properties n !! k) as [w|]; cbn -[or_zero].
  - rewrite or_zero_Some. lra.
  - unfold or_zero. lra.
Qed.

Lemma scan_bracket_all_after i kfs frame :
  Forall (λ k, frame < kf_frame k) kfs → scan_bracket i kfs frame = None.
Proof.
  revert i. induction kfs as [|a [|b l] IH]; intros i H; try done.
  cbn [scan_bracket]. inversion H as [|? ? Ha Hl]; subst.
  destruct (kf_frame a <=? frame) eqn:E; [lia|].
  cbn [andb]. apply IH. done.
Qed.

Lemma scan_bracket_all_before i kfs frame :
  Forall (λ k, kf_frame k < frame) kfs → scan_bracket i kfs frame = None.
Proof.
  revert i. induction kfs as [|a [|b l] IH]; intros i H; try done.
  cbn [scan_bracket]. inversion H as [|? ? Ha Hl]; subst.
  inversion Hl as [|? ? Hb Hl']; subst.
  destruct (kf_frame b >=? frame) eqn:E; [lia|].
  rewrite andb_false_r. apply IH. done.
Qed.

Lemma ascending_first_le first rest :
  ascending (first :: rest) → Forall (λ k, kf_frame first <= kf_frame k) (first :: rest).
Proof.
  unfold ascending. rewrite fmap_cons. intros H.
  apply StronglySorted_inv in H as [_ H].
  constructor; [lia|].
  rewrite Forall_fmap in H. eapply Forall_impl; [exact H|]. simpl. intros; lia.
Qed.

Lemma ascending_last_ge init last :
  ascending (init ++ [last]) → Forall (λ k, kf_frame k <= kf_frame last) (init ++ [last]).
Proof.
  unfold ascending. induction init as [|a init IH]; intros H.
  - constructor; [lia|constructor].
  - rewrite <- app_comm_cons, fmap_cons in H. apply StronglySorted_inv in H as [Hs Ha].
    rewrite <- app_comm_cons. constructor; [|by apply IH].
    rewrite Forall_fmap, Forall_app, Forall_singleton in Ha. simpl in Ha. lia.
Qed.

Lemma findBracket_outside first mid last frame :
  ascending (first :: mid ++ [last]) →
  frame < kf_frame first ∨ kf_frame last < frame →
  findBracket (first :: mid ++ [last]) frame = (0%nat, S (length mid)).
Proof.
  intros Hasc Hout. unfold findBracket.
  assert (scan_bracket 0 (first :: mid ++ [last]) frame = None) as ->.
  { destruct Hout as [Hlt|Hgt].
    - apply scan_bracket_all_after.
      eapply Forall_impl; [by apply ascending_first_le|]. simpl; intros; lia.
    - apply scan_bracket_all_before.
      eapply Forall_impl; [by apply (ascending_last_ge (first :: mid))|]. simpl; intros; lia. }
  f_equal. simpl. rewrite length_app. simpl. lia.
Qed.

Lemma interpolateTrack_bracket frame track i j p n :
  (2 <= length (tr_keyframes track))%nat →
  findBracket (tr_keyframes track) frame = (i, j) →
  i ≠ j →
  tr_keyframes track !! i = Some p →
  tr_keyframes track !! j = Some n →
  interpolateTrack frame track =
    Some (boneUpdate (tr_boneId track)
            (interpolateProperties p n
               (applyEasing (progress_of p n frame) (kf_easing p)))).
Proof.
  intros Hlen Hb Hij Hp Hn. unfold interpolateTrack.
  destruct (length (tr_keyframes track) <? 2)%nat eqn:E; [apply Nat.ltb_lt in E; lia|].
  rewrite Hb. destruct (i =? j)%nat eqn:E'; [apply Nat.eqb_eq in E'; done|].
  by rewrite Hp, Hn.
Qed.

(** C2 fails as stated: on the scenario track ([x] from 0 at frame 1 to
    100 at frame 10, linear) [interpolateFrame(19)] emits [x = 200], which
    is neither the value of the last keyframe nor inside [0, 100]. *)
Lemma interpolate_outside_range_extrapolates :
  interpolateTrack 19 scenario_track = Some (boneUpdate "bone_1" {[ "x" := 200%R ]})
  ∧ ({[ "x" := 200%R ]} : gmap string R) ≠ kf_properties scenario_last
  ∧ ¬ (0 <= 200 <= 100)%R.
Proof.
  split; [|split].
  - rewrite (interpolateTrack_bracket 19 scenario_track 0 1 scenario_first scenario_last);
      [|simpl; lia|done|done|done|done].
    do 2 f_equal. apply map_eq. intros k.
    unfold interpolateProperties. rewrite map_lookup_imap.
    assert (applyEasing (progress_of scenario_first scenario_last 19) "linear" = 2%R) as E.
    { rewrite applyEasing_default by (rewrite !elem_of_cons, elem_of_nil; intuition discriminate).
      unfold progress_of. cbn [kf_frame scenario_first scenario_last].
      rewrite !minus_IZR. lra. }
    simpl. rewrite E.
    destruct (decide (k = "x")) as [->|Hk].
    + rewrite !lookup_singleton_eq. simpl. rewrite !or_zero_Some. f_equal. lra.
    + rewrite !lookup_singleton_ne by done. done.
  - intros H. apply (f_equal (λ m : gmap string R, m !! "x")) in H.
    simpl in H. rewrite !lookup_singleton_eq in H. injection H. lra.
  - lra.
Qed.

Lemma progress_of_outside first last frame :
  kf_frame first < kf_frame last →
  (frame < kf_frame first → (progress_of first last frame < 0)%R)
  ∧ (kf_frame last < frame → (1 < progress_of first last frame)%R).
Proof.
  intros Hfl. unfold progress_of.
  assert (0 < IZR (kf_frame last - kf_frame first))%R as Hb by (apply IZR_lt; lia).
  pose proof (Rinv_0_lt_compat _ Hb) as Hi.
  pose proof (Rinv_r (IZR (kf_frame last - kf_frame first))) as Hr.
  split; intros H.
  - assert (IZR (frame - kf_frame first) < 0)%R as Ha by (apply IZR_lt; lia).
    unfold Rdiv. nra.
  - assert (IZR (kf_frame last - kf_frame first) < IZR (frame - kf_frame first))%R as Ha
      by (apply IZR_lt; lia).
    unfold Rdiv. nra.
Qed.

Lemma ascending_first_lt_last first mid last :
  ascending (first :: mid ++ [last]) → kf_frame first < kf_frame last.
Proof.
  unfold ascending. rewrite fmap_cons. intros H.
  apply StronglySorted_inv in H as [_ H].
  rewrite Forall_fmap, Forall_app, Forall_singleton in H. simpl in H. tauto.
Qed.

Lemma interpolateProperties_lookup p n e key :
  interpolateProperties p n e !! key =
    (λ v, let start := or_zero (Some v) in
          let end_ := or_zero (kf_properties n !! key) in
          (start + (end_ - start) * e)%R) <$> kf_properties p !! key.
Proof.
  unfold interpolateProperties. rewrite map_lookup_imap.
  by destruct (kf_properties p !! key).
Qed.

(** C2 (amended): for a track whose keyframes [first :: mid ++ [last]] have
    strictly ascending frames and a frame before the first or after the
    last keyframe, the scan finds no adjacent pair, so [interpolateFrame]
    uses the bracket (first, last) and emits, under each key of [first]
    and under no other key, [start + (end - start) * easedProgress] with
    [start = first[key] || 0], [end = last[key] || 0],
    [easedProgress = applyEasing(progress, first.easing)] and
    [progress = (frame - first.frame) / (last.frame - first.frame)]; that
    progress is negative before the first keyframe and greater than 1
    after the last one.  No step of the computation clamps the progress
    or the value. *)
Theorem interpolate_outside_range track first mid last frame :
  tr_keyframes track = first :: mid ++ [last] →
  ascending (tr_keyframes track) →
  frame < kf_frame first ∨ kf_frame last < frame →
  findBracket (tr_keyframes track) frame = (0%nat, S (length mid))
  ∧ interpolateTrack frame track =
      Some (boneUpdate (tr_boneId track)
              (interpolateProperties first last
                 (applyEasing (progress_of first last frame) (kf_easing first))))
  ∧ (∀ key,
       interpolateProperties first last
         (applyEasing (progress_of first last frame) (kf_easing first)) !! key =
       (λ v, let start := or_zero (Some v) in
             let end_ := or_zero (kf_properties last !! key) in
             (start + (end_ - start)
                      * applyEasing (progress_of first last frame) (kf_easing first))%R)
         <$> kf_properties first !! key)
  ∧ progress_of first last frame =
      (IZR (frame - kf_frame first) / IZR (kf_frame last - kf_frame first))%R
  ∧ (frame < kf_frame first → (progress_of first last frame < 0)%R)
  ∧ (kf_frame last < frame → (1 < progress_of first last frame)%R).
Proof.
  intros Hk Hasc Hout. rewrite Hk in Hasc.
  assert (findBracket (tr_keyframes track) frame = (0%nat, S (length mid))) as Hb
    by (rewrite Hk; by apply findBracket_outside).
  split; [done|]. split; [|split; [|split; [done|]]].
  - apply (interpolateTrack_bracket frame track 0 (S (length mid))); try done.
    + rewrite Hk. simpl. rewrite length_app. simpl. lia.
    + by rewrite Hk.
    + rewrite Hk. simpl. rewrite lookup_app_r by lia. by rewrite Nat.sub_diag.
  - intros key. apply interpolateProperties_lookup.
  - apply progress_of_outside. by eapply ascending_first_lt_last.
Qed.

(** The scenario track at frame 19 satisfies the hypotheses of C2
    (amended): the bracket is (first, last), the progress is 2 and the
    value emitted under [x] is [0 + (100 - 0) * 2]. *)
Lemma interpolate_outside_range_witness :
  findBracket (tr_keyframes scenario_track) 19 = (0%nat, 1%nat)
  ∧ (1 < progress_of scenario_first scenario_last 19)%R
  ∧ ∃ properties,
      interpolateTrack 19 scenario_track = Some (boneUpdate "bone_1" properties)
      ∧ properties !! "x" =
          Some (0 + (100 - 0)
                    * applyEasing (progress_of scenario_first scenario_last 19) "linear")%R
      ∧ properties !! "y" = None.
Proof.
  assert (ascending (tr_keyframes scenario_track)) as Hasc.
  { unfold ascending. simpl. repeat constructor. }
  destruct (interpolate_outside_range scenario_track scenario_first [] scenario_last 19
              eq_refl Hasc) as (Hb & Hi & Hv & _ & _ & Hp).
  - right. simpl. lia.
  - split; [exact Hb|]. split; [apply Hp; simpl; lia|].
    eexists. split; [exact Hi|]. rewrite !Hv. cbn -[or_zero applyEasing progress_of].
    rewrite !lookup_singleton_eq, !lookup_singleton_ne by done.
    cbn -[or_zero applyEasing progress_of]. rewrite !or_zero_Some. done.
Defined.

(** C5 fails as stated: with [prev = {x: 5}] at frame 1 and
    [next = {x: 100, y: 50}] at frame 10, [interpolateFrame(10)] resolves
    the bracket (prev, next), and emits [{x: 100}] only, which is not the
    property set of [next]. *)
Lemma interpolate_at_next_drops_keys :
  findBracket (tr_keyframes sparse_track) 10 = (0%nat, 1%nat)
  ∧ kf_frame sparse_next = 10
  ∧ interpolateTrack 10 sparse_track = Some (boneUpdate "bone_1" {[ "x" := 100%R ]})
  ∧ ({[ "x" := 100%R ]} : gmap string R) ≠ kf_properties sparse_next.
Proof.
  split; [done|]. split; [done|]. split.
  - rewrite (interpolateTrack_bracket 10 sparse_track 0 1 sparse_prev sparse_next);
      [|simpl; lia|done|done|done|done].
    do 2 f_equal.
    assert (progress_of sparse_prev sparse_next 10 = 1%R) as ->.
    { unfold progress_of. cbn [kf_frame sparse_prev sparse_next]. rewrite !minus_IZR. lra. }
    rewrite applyEasing_1, interpolateProperties_1.
    apply map_eq. intros k. rewrite map_lookup_imap. simpl.
    destruct (decide (k = "x")) as [->|Hk].
    + rewrite !lookup_singleton_eq. simpl. done.
    + rewrite !lookup_singleton_ne by done. done.
  - intros H. apply (f_equal (λ m : gmap string R, m !! "y")) in H.
    simpl in H. vm_compute in H. discriminate.
Qed.

(** C5 (amended): for a track with at least 2 keyframes and a resolved
    bracket (prev, next) of two different keyframes on different frames,
    [interpolateFrame] at [prev.frame] computes progress 0 and at
    [next.frame] progress 1; whatever easing tag [prev] carries, the eased
    progress is then 0, respectively 1; and the event carries, under each
    key of [prev] and under no other key, [start + (end - start) * 0],
    respectively [start + (end - start) * 1], with
    [start = prev[key] || 0] and [end = next[key] || 0].  Keys that only
    [next] carries are not emitted. *)
Theorem interpolate_at_bracket_ends track frame i j prev next :
  (2 <= length (tr_keyframes track))%nat →
  findBracket (tr_keyframes track) frame = (i, j) →
  i ≠ j →
  tr_keyframes track !! i = Some prev →
  tr_keyframes track !! j = Some next →
  kf_frame prev ≠ kf_frame next →
  (frame = kf_frame prev →
     progress_of prev next frame = 0%R
     ∧ applyEasing (progress_of prev next frame) (kf_easing prev) = 0%R
     ∧ ∃ properties,
         interpolateTrack frame track = Some (boneUpdate (tr_boneId track) properties)
         ∧ ∀ key, properties !! key =
             (λ v, let start := or_zero (Some v) in
                   let end_ := or_zero (kf_properties next !! key) in
                   (start + (end_ - start) * 0)%R) <$> kf_properties prev !! key)
  ∧ (frame = kf_frame next →
       progress_of prev next frame = 1%R
       ∧ applyEasing (progress_of prev next frame) (kf_easing prev) = 1%R
       ∧ ∃ properties,
           interpolateTrack frame track = Some (boneUpdate (tr_boneId track) properties)
           ∧ ∀ key, properties !! key =
               (λ v, let start := or_zero (Some v) in
                     let end_ := or_zero (kf_properties next !! key) in
                     (start + (end_ - start) * 1)%R) <$> kf_properties prev !! key).
Proof.
  intros Hlen Hb Hij Hp Hn Hne.
  pose proof (interpolateTrack_bracket frame track i j prev next Hlen Hb Hij Hp Hn) as Hi.
  split; intros ->.
  - assert (progress_of prev next (kf_frame prev) = 0%R) as E.
    { unfold progress_of. rewrite Z.sub_diag. unfold Rdiv. lra. }
    split; [done|]. rewrite E, applyEasing_0 in *. split; [done|].
    eexists. split; [exact Hi|]. intros key. apply interpolateProperties_lookup.
  - assert (progress_of prev next (kf_frame next) = 1%R) as E.
    { unfold progress_of. apply Rinv_r. apply not_0_IZR. lia. }
    split; [done|]. rewrite E, applyEasing_1 in *. split; [done|].
    eexists. split; [exact Hi|]. intros key. apply interpolateProperties_lookup.
Qed.

(** The sparse bracket at frame 10 satisfies the hypotheses of C5
    (amended): [prev = {x: 5}] and [next = {x: 100, y: 50}] give
    [x = 5 + (100 - 5) * 1] and no [y]. *)
Lemma interpolate_at_bracket_ends_witness :
  progress_of sparse_prev sparse_next 10 = 1%R
  ∧ ∃ properties,
      interpolateTrack 10 sparse_track = Some (boneUpdate "bone_1" properties)
      ∧ properties !! "x" = Some (5 + (100 - 5) * 1)%R
      ∧ properties !! "y" = None.
Proof.
  destruct (interpolate_at_bracket_ends sparse_track 10 0 1 sparse_prev sparse_next)
    as [_ H]; [simpl; lia|done|done|done|done|done|].
  destruct H as (H & _ & properties & Hi & Hv); [done|].
  split; [exact H|]. exists properties. split; [exact Hi|].
  rewrite !Hv. cbn -[or_zero]. split.
  - rewrite lookup_singleton_eq. cbn -[or_zero].
    by rewrite lookup_insert_eq, !or_zero_Some.
  - by rewrite lookup_singleton_ne.
Defined.

(** X27: with numbers as reals the values at the ends of a bracket are
    the values of the keyframes: for a track with at least 2 keyframes and
    a resolved bracket (prev, next) of two different keyframes on
    different frames, [interpolateFrame] at [prev.frame] emits exactly the
    properties of [prev], whatever easing tag [prev] carries; at
    [next.frame] it emits, for exactly the keys of [prev], the value of
    [next] for that key, or 0 where [next] lacks the key; this is the
    property set of [next] when both keyframes carry the same keys. *)
Theorem bracket_ends_over_reals track frame i j prev next :
  (2 <= length (tr_keyframes track))%nat →
  findBracket (tr_keyframes track) frame = (i, j) →
  i ≠ j →
  tr_keyframes track !! i = Some prev →
  tr_keyframes track !! j = Some next →
  kf_frame prev ≠ kf_frame next →
  (frame = kf_frame prev →
     progress_of prev next frame = 0%R
     ∧ interpolateTrack frame track =
         Some (boneUpdate (tr_boneId track) (kf_properties prev)))
  ∧ (frame = kf_frame next →
       progress_of prev next frame = 1%R
       ∧ interpolateTrack frame track =
           Some (boneUpdate (tr_boneId track)
                   (map_imap (λ key _, Some (default 0%R (kf_properties next !! key)))
                      (kf_properties prev)))
       ∧ (dom (kf_properties prev) = dom (kf_properties next) →
          interpolateTrack frame track =
            Some (boneUpdate (tr_boneId track) (kf_properties next)))).
Proof.
  intros Hlen Hb Hij Hp Hn Hne.
  pose proof (interpolateTrack_bracket frame track i j prev next Hlen Hb Hij Hp Hn) as Hi.
  split; intros ->.
  - assert (progress_of prev next (kf_frame prev) = 0%R) as E.
    { unfold progress_of. rewrite Z.sub_diag. unfold Rdiv. lra. }
    split; [done|]. by rewrite Hi, E, applyEasing_0, interpolateProperties_0.
  - assert (progress_of prev next (kf_frame next) = 1%R) as E.
    { unfold progress_of. apply Rinv_r. apply not_0_IZR. lia. }
    split; [done|].
    rewrite Hi, E, applyEasing_1, interpolateProperties_1.
    split; [done|]. intros Hdom. do 2 f_equal.
    apply map_eq. intros k. rewrite map_lookup_imap.
    destruct (kf_properties prev !! k) as [v|] eqn:Ev; simpl.
    + assert (k ∈ dom (kf_properties next)) as [w Hw]%elem_of_dom
        by (rewrite <- Hdom; apply elem_of_dom; eauto).
      by rewrite Hw.
    + symmetry. apply not_elem_of_dom. rewrite <- Hdom. by apply not_elem_of_dom.
Qed.

(** The sparse bracket at frame 10 over the reals. *)
Lemma bracket_ends_over_reals_witness :
  progress_of sparse_prev sparse_next 10 = 1%R.
Proof.
  destruct (bracket_ends_over_reals sparse_track 10 0 1 sparse_prev sparse_next)
    as [_ H]; [simpl; lia|done|done|done|done|done|].
  destruct H as [H _]; [done|exact H].
Defined.

Lemma scan_bracket_cons i a b l frame :
  scan_bracket i (a :: b :: l) frame =
    if (kf_frame a <=? frame) && (kf_frame b >=? frame) then Some i
    else scan_bracket (S i) (b :: l) frame.
Proof. reflexivity. Qed.

Lemma scan_bracket_fmap (f : Keyframe → Keyframe) i kfs frame :
  (∀ k, kf_frame (f k) = kf_frame k) →
  scan_bracket i (f <$> kfs) frame = scan_bracket i kfs frame.
Proof.
  intros Hf. revert i. induction kfs as [|a [|b l] IH]; intros i; try done.
  specialize (IH (S i)). rewrite !fmap_cons in *.
  rewrite !scan_bracket_cons, !Hf. by rewrite IH.
Qed.

(** C10: for every easing tag other than [easeIn], [easeOut] and
    [easeInOut], [applyEasing(t, tag)] returns [t] for every [t], as it
    does for [linear]; so [interpolateFrame] on a track whose keyframes
    carry such a tag emits what it emits when the tag is [linear]. *)
Theorem applyEasing_unrecognized tag :
  tag ∉ ["easeIn"; "easeOut"; "easeInOut"] →
  (∀ t, applyEasing t tag = t)
  ∧ (∀ t, applyEasing t tag = applyEasing t "linear")
  ∧ (∀ frame track,
       Forall (λ k, kf_easing k = tag) (tr_keyframes track) →
       interpolateTrack frame track =
       interpolateTrack frame
         (set_keyframes (set_easing "linear" <$> tr_keyframes track) track)).
Proof.
  intros Htag.
  assert (∀ t, applyEasing t "linear" = t) as Hlin.
  { intros t. apply applyEasing_default. rewrite !elem_of_cons, elem_of_nil.
    intuition discriminate. }
  split; [intros t; by apply applyEasing_default|].
  split; [intros t; rewrite Hlin; by apply applyEasing_default|].
  intros frame track Hall. unfold interpolateTrack.
  cbn [tr_keyframes set_keyframes tr_boneId]. rewrite length_fmap.
  destruct (length (tr_keyframes track) <? 2)%nat; [done|].
  unfold findBracket. rewrite scan_bracket_fmap, length_fmap by done.
  destruct (match scan_bracket 0 (tr_keyframes track) frame with
            | Some i => (i, S i)
            | None => (0%nat, (length (tr_keyframes track) - 1)%nat)
            end) as [i j].
  destruct (i =? j)%nat; [done|].
  rewrite !list_lookup_fmap.
  destruct (tr_keyframes track !! i) as [p|] eqn:Ep; [|done].
  destruct (tr_keyframes track !! j) as [n|] eqn:En; [|done].
  cbn [fmap option_fmap option_map].
  assert (kf_easing p = tag) as ->.
  { rewrite Forall_forall in Hall. apply Hall. eapply list_elem_of_lookup_2. exact Ep. }
  cbn [set_easing kf_easing]. rewrite Hlin, applyEasing_default by done.
  done.
Qed.

(** A misspelled tag is outside the three recognised ones. *)
Lemma applyEasing_unrecognized_witness :
  applyEasing 0.25 "ease-in" = 0.25%R.
Proof.
  apply (applyEasing_unrecognized "ease-in").
  rewrite !elem_of_cons, elem_of_nil. intuition discriminate.
Defined.

(** ** Playback clock *)

Lemma tick_currentFrame s :
  1 <= currentFrame s <= totalFrames s →
  currentFrame (fst (tick s)) =
    (if currentFrame s <? totalFrames s then currentFrame s + 1 else 1)
  ∧ totalFrames (fst (tick s)) = totalFrames s.
Proof.
  intros H. unfold tick, goToFrame.
  destruct (currentFrame s >=? totalFrames s) eqn:E1;
    destruct (currentFrame s <? totalFrames s) eqn:E2; simpl; lia.
Qed.

Lemma ticks_in_range n s :
  1 <= currentFrame s <= totalFrames s →
  1 <= currentFrame (ticks n s) <= totalFrames s
  ∧ totalFrames (ticks n s) = totalFrames s.
Proof.
  revert s. induction n as [|n IH]; intros s H; [done|].
  cbn [ticks]. destruct (tick_currentFrame s H) as [Hc Ht].
  destruct (IH (fst (tick s))) as [IH1 IH2].
  - rewrite Hc, Ht. destruct (currentFrame s <? totalFrames s) eqn:E; lia.
  - rewrite Ht in *. done.
Qed.

(** C7: for a clock with [1 <= currentFrame <= totalFrames], one tick of
    the playback interval takes [currentFrame] to [currentFrame + 1] when
    it is below [totalFrames] and to 1 when it has reached [totalFrames];
    [totalFrames] is unchanged, and after any number of ticks
    [currentFrame] is still in [1, totalFrames] and never
    [totalFrames + 1]. *)
Theorem tick_advances_and_wraps s :
  1 <= currentFrame s <= totalFrames s →
  currentFrame (fst (tick s)) =
    (if currentFrame s <? totalFrames s then currentFrame s + 1 else 1)
  ∧ totalFrames (fst (tick s)) = totalFrames s
  ∧ ∀ n, 1 <= currentFrame (ticks n s) <= totalFrames s
         ∧ currentFrame (ticks n s) ≠ totalFrames s + 1.
Proof.
  intros H. destruct (tick_currentFrame s H) as [Hc Ht].
  split; [done|]. split; [done|].
  intros n. destruct (ticks_in_range n s H) as [Hn _]. lia.
Qed.

(** The default clock moved to its last frame wraps to frame 1. *)
Lemma tick_advances_and_wraps_witness :
  currentFrame (fst (tick (set_currentFrame 300 initial))) = 1.
Proof.
  apply (tick_advances_and_wraps (set_currentFrame 300 initial)). simpl. lia.
Defined.

(** ** Looking a keyframe up by its id *)

Lemma list_find_split {A} (P : A → Prop) `{!∀ x, Decision (P x)} (l : list A) i x :
  list_find P l = Some (i, x) →
  ∃ pre post, l = pre ++ x :: post ∧ length pre = i ∧ P x ∧ Forall (λ y, ¬ P y) pre.
Proof.
  intros (Hi & HP & Hbefore)%list_find_Some.
  exists (take i l), (drop (S i) l). split; [by rewrite take_drop_middle|].
  pose proof (lookup_lt_Some _ _ _ Hi) as Hlt.
  split; [rewrite length_take; lia|]. split; [done|].
  apply Forall_forall. intros y [j Hj]%list_elem_of_lookup.
  apply lookup_take_Some in Hj as [Hj Hji]. eauto.
Qed.

Lemma insert_middle {A} (pre post : list A) x y :
  <[length pre := y]> (pre ++ x :: post) = pre ++ y :: post.
Proof. rewrite insert_app_r_alt by lia. by rewrite Nat.sub_diag. Qed.

Lemma delete_middle {A} (pre post : list A) (x : A) :
  delete (length pre) (pre ++ x :: post) = pre ++ post.
Proof.
  induction pre as [|a pre IH]; [done|]. simpl. by rewrite IH.
Qed.

Lemma all_keyframes_cons t ts :
  all_keyframes (t :: ts) = tr_keyframes t ++ all_keyframes ts.
Proof. reflexivity. Qed.

Lemma keyframe_loops ts id props :
  ((id ∉ (kf_id <$> all_keyframes ts))
     ∧ updateKeyframe_loop ts id props = None
     ∧ deleteKeyframe_loop ts id = None)
  ∨ (∃ ts1 t ts2 pre kf post,
       ts = ts1 ++ t :: ts2
       ∧ tr_keyframes t = pre ++ kf :: post
       ∧ kf_id kf = id
       ∧ (id ∉ (kf_id <$> (all_keyframes ts1 ++ pre)))
       ∧ updateKeyframe_loop ts id props =
           (let kf' := set_properties (merge_properties (kf_properties kf) props) kf in
            Some (ts1 ++ set_keyframes (pre ++ kf' :: post) t :: ts2, kf'))
       ∧ deleteKeyframe_loop ts id =
           Some (ts1 ++ set_keyframes (pre ++ post) t :: ts2)).
Proof.
  induction ts as [|t ts IH].
  - left. split; [|done]. simpl. apply not_elem_of_nil.
  - cbn [updateKeyframe_loop deleteKeyframe_loop].
    destruct (list_find (λ k, kf_id k = id) (tr_keyframes t)) as [[i kf]|] eqn:Ef.
    + right. apply list_find_split in Ef as (pre & post & Hk & Hlen & Hid & Hpre).
      exists [], t, ts, pre, kf, post. subst i.
      repeat split; try done.
      * simpl. rewrite list_elem_of_fmap. intros (k & Hk1 & Hk2).
        rewrite Forall_forall in Hpre. by apply (Hpre k).
      * simpl. by rewrite Hk, insert_middle.
      * simpl. by rewrite Hk, delete_middle.
    + apply list_find_None in Ef.
      assert (id ∉ (kf_id <$> tr_keyframes t)) as Hnot.
      { rewrite list_elem_of_fmap. intros (k & Hk1 & Hk2).
        rewrite Forall_forall in Ef. by apply (Ef k). }
      destruct IH as [(Habs & -> & ->)|(ts1 & t' & ts2 & pre & kf & post & -> & Hk & Hid & Hfresh & -> & ->)].
      * left. split; [|done].
        rewrite all_keyframes_cons, fmap_app, elem_of_app. tauto.
      * right. exists (t :: ts1), t', ts2, pre, kf, post.
        repeat split; try done.
        rewrite all_keyframes_cons, <- app_assoc, fmap_app, elem_of_app. tauto.
Qed.

Lemma merge_properties_lookup old props key :
  merge_properties old props !! key =
    match props ≫= (.!! key) with
    | Some v => Some v
    | None => old !! key
    end.
Proof.
  unfold merge_properties. rewrite lookup_union.
  destruct props as [p|]; simpl.
  - by destruct (p !! key) as [v|], (old !! key).
  - rewrite lookup_empty. by destruct (old !! key).
Qed.

(** C6: for a keyframe id and any timeline, either no track holds a
    keyframe of that id, and then [updateKeyframe] throws "Keyframe not
    found" while [deleteKeyframe] returns the timeline unchanged; or the
    first keyframe [kf] of that id (first track that holds one, first
    position in it) is found.  Then [updateKeyframe] puts in its place and
    returns the keyframe [kf'] that has the id, frame, bone and easing of
    [kf] and the merged properties: under every key the value that
    [properties] gives, and where [properties] gives none (or is
    [undefined]) the value that [kf] had; and [deleteKeyframe] removes
    exactly [kf].  Every other keyframe and track is left as it was. *)
Theorem keyframe_lookup_miss_and_hit s id props :
  ((id ∉ (kf_id <$> all_keyframes (tracks s)))
     ∧ updateKeyframe id props s = Throw KeyframeNotFound
     ∧ deleteKeyframe id s = s)
  ∨ (∃ ts1 t ts2 pre kf post kf',
       tracks s = ts1 ++ t :: ts2
       ∧ tr_keyframes t = pre ++ kf :: post
       ∧ kf_id kf = id
       ∧ (id ∉ (kf_id <$> (all_keyframes ts1 ++ pre)))
       ∧ updateKeyframe id props s =
           Ok (set_tracks (ts1 ++ set_keyframes (pre ++ kf' :: post) t :: ts2) s, kf')
       ∧ kf_id kf' = id
       ∧ kf_frame kf' = kf_frame kf
       ∧ kf_boneId kf' = kf_boneId kf
       ∧ kf_easing kf' = kf_easing kf
       ∧ (∀ key, kf_properties kf' !! key =
                   match props ≫= (.!! key) with
                   | Some v => Some v
                   | None => kf_properties kf !! key
                   end)
       ∧ deleteKeyframe id s =
           set_tracks (ts1 ++ set_keyframes (pre ++ post) t :: ts2) s).
Proof.
  unfold updateKeyframe, deleteKeyframe.
  destruct (keyframe_loops (tracks s) id props)
    as [(Habs & -> & ->)|(ts1 & t & ts2 & pre & kf & post & Hts & Hk & Hid & Hfresh & -> & ->)].
  - by left.
  - right.
    exists ts1, t, ts2, pre, kf, post,
      (set_properties (merge_properties (kf_properties kf) props) kf).
    cbn [kf_id kf_frame kf_boneId kf_easing kf_properties set_properties].
    repeat split; try done.
    intros key. apply merge_properties_lookup.
Qed.

(** The two cases of C6 on the timeline [same_ms]: no keyframe is named
    [kf_9]; the keyframe [kf_7] holds [{x: 0}], and an update with
    [{x: 4, y: 9}] returns it with [x] overwritten and [y] added, on its
    frame 1. *)
Lemma keyframe_lookup_miss_and_hit_witness :
  (updateKeyframe "kf_9" (Some {[ "y" := 9%R ]}) same_ms = Throw KeyframeNotFound
   ∧ deleteKeyframe "kf_9" same_ms = same_ms)
  ∧ (∃ s' kf', updateKeyframe "kf_7" (Some {[ "x" := 4%R; "y" := 9%R ]}) same_ms
                 = Ok (s', kf')
               ∧ kf_id kf' = "kf_7"
               ∧ kf_properties kf' !! "x" = Some 4%R
               ∧ kf_properties kf' !! "y" = Some 9%R
               ∧ kf_properties kf' !! "z" = None
               ∧ ∃ s'', deleteKeyframe "kf_7" same_ms = s''
                        ∧ all_keyframes (tracks s'') = []).
Proof.
  split.
  - destruct (keyframe_lookup_miss_and_hit same_ms "kf_9" (Some {[ "y" := 9%R ]}))
      as [(_ & Hu & Hd)|(ts1 & t & ts2 & pre & kf & post & kf' & Hts & Hk & Hid & _)];
      [done|].
    exfalso.
    assert (kf ∈ all_keyframes (tracks same_ms)) as Hin.
    { rewrite Hts. unfold all_keyframes. rewrite bind_app, bind_cons, Hk. set_solver. }
    cbn in Hin. apply list_elem_of_singleton in Hin. by subst kf.
  - destruct (keyframe_lookup_miss_and_hit same_ms "kf_7"
                (Some {[ "x" := 4%R; "y" := 9%R ]}))
      as [(Habs & _)|(ts1 & t & ts2 & pre & kf & post & kf' & Hts & Hk & Hid & Hfr & Hu
                      & Hid' & _ & _ & _ & Hm & Hd)].
    { exfalso. apply Habs. cbn. set_solver. }
    assert (ts1 = [] ∧ ts2 = [] ∧ pre = [] ∧ post = []
            ∧ kf_properties kf = {[ "x" := 0%R ]}) as (-> & -> & -> & -> & Hkp).
    { cbn in Hts. destruct ts1 as [|? [|? ?]]; simplify_eq/=.
      destruct pre as [|? [|? ?]]; simplify_eq/=. done. }
    exists (set_tracks ([] ++ set_keyframes ([] ++ kf' :: []) t :: []) same_ms), kf'.
    split; [exact Hu|]. split; [exact Hid'|].
    rewrite !Hm, Hkp. cbn.
    repeat split; try done.
    exists (deleteKeyframe "kf_7" same_ms). split; [done|]. rewrite Hd. done.
Defined.

(** ** Two [addKeyframe] calls at one frame *)

Lemma insert_by_frame_perm k l : insert_by_frame k l ≡ₚ k :: l.
Proof.
  induction l as [|a l IH]; [done|]. simpl.
  destruct (kf_frame k <=? kf_frame a); [done|].
  rewrite IH. apply Permutation_swap.
Qed.

Lemma sort_by_frame_perm l : sort_by_frame l ≡ₚ l.
Proof.
  induction l as [|a l IH]; [done|].
  unfold sort_by_frame in *. simpl. by rewrite insert_by_frame_perm, IH.
Qed.

Lemma insert_by_frame_sorted k l :
  sorted_by_frame l → sorted_by_frame (insert_by_frame k l).
Proof.
  unfold sorted_by_frame. induction l as [|a l IH]; intros Hs.
  - simpl. repeat constructor.
  - simpl. destruct (kf_frame k <=? kf_frame a) eqn:E.
    + rewrite fmap_cons. constructor; [done|].
      rewrite fmap_cons in Hs. apply StronglySorted_inv in Hs as [_ Hall].
      constructor; [lia|]. eapply Forall_impl; [exact Hall|]. simpl. lia.
    + rewrite fmap_cons in *. apply StronglySorted_inv in Hs as [Hs Hall].
      constructor; [by apply IH|].
      rewrite Forall_fmap. rewrite Forall_fmap in Hall.
      rewrite insert_by_frame_perm.
      constructor; [simpl; lia|done].
Qed.

Lemma sort_by_frame_sorted l : sorted_by_frame (sort_by_frame l).
Proof.
  induction l as [|a l IH]; [constructor|].
  unfold sort_by_frame in *. simpl. by apply insert_by_frame_sorted.
Qed.

Lemma sorted_NoDup_ascending (l : list Z) :
  StronglySorted Z.le l → NoDup l → StronglySorted Z.lt l.
Proof.
  induction 1 as [|a l Hs IH Hall]; intros Hnd; [constructor|].
  apply NoDup_cons in Hnd as [Hnotin Hnd].
  constructor; [by apply IH|].
  rewrite Forall_forall in *. intros x Hx. specialize (Hall x Hx).
  assert (a ≠ x) by (intros ->; done). lia.
Qed.

Lemma ascending_NoDup (l : list Z) : StronglySorted Z.lt l → NoDup l.
Proof.
  induction 1 as [|a l Hs IH Hall]; [constructor|].
  apply NoDup_cons. split; [|done].
  intros Hin. rewrite Forall_forall in Hall. specialize (Hall a Hin). lia.
Qed.

Lemma count_at_frames frame l l' :
  kf_frame <$> l = kf_frame <$> l' → count_at frame l = count_at frame l'.
Proof.
  unfold count_at. revert l'. induction l as [|a l IH]; intros [|a' l'] E; try done.
  rewrite !fmap_cons in E. injection E as Ea El.
  rewrite !filter_cons, Ea. destruct (decide (kf_frame a' = frame)); simpl; auto.
Qed.

Lemma count_at_perm frame l l' : l ≡ₚ l' → count_at frame l = count_at frame l'.
Proof. intros H. unfold count_at. by rewrite H. Qed.

Lemma count_at_none frame l :
  Forall (λ k, kf_frame k ≠ frame) l → count_at frame l = 0%nat.
Proof.
  unfold count_at. induction 1 as [|a l Ha _ IH]; [done|].
  rewrite filter_cons. by destruct (decide (kf_frame a = frame)).
Qed.

Lemma count_at_app frame l1 l2 :
  count_at frame (l1 ++ l2) = (count_at frame l1 + count_at frame l2)%nat.
Proof. unfold count_at. by rewrite filter_app, length_app. Qed.

Lemma count_at_one frame k : kf_frame k = frame → count_at frame [k] = 1%nat.
Proof.
  intros H. unfold count_at. rewrite filter_cons, decide_True by done. done.
Qed.

Lemma tracks_get_split ts id t :
  tracks_get ts id = Some t →
  ∃ ts1 ts2, ts = ts1 ++ t :: ts2 ∧ tr_id t = id ∧ Forall (λ t', tr_id t' ≠ id) ts1.
Proof.
  induction ts as [|a ts IH]; [done|]. simpl. case_decide as Ha.
  - intros [= ->]. exists [], ts. done.
  - intros (ts1 & ts2 & -> & Hid & Hall)%IH.
    exists (a :: ts1), ts2. split; [done|]. split; [done|]. by constructor.
Qed.

Lemma tracks_get_middle ts1 t ts2 id :
  Forall (λ t', tr_id t' ≠ id) ts1 → tr_id t = id →
  tracks_get (ts1 ++ t :: ts2) id = Some t.
Proof.
  intros Hall Hid. induction Hall as [|a ts1 Ha _ IH]; simpl.
  - by rewrite decide_True.
  - by rewrite decide_False.
Qed.

Lemma tracks_set_middle ts1 t ts2 t' :
  Forall (λ a, tr_id a ≠ tr_id t') ts1 → tr_id t = tr_id t' →
  tracks_set (ts1 ++ t :: ts2) t' = ts1 ++ t' :: ts2.
Proof.
  intros Hall Hid. induction Hall as [|a ts1 Ha _ IH]; simpl.
  - by rewrite decide_True.
  - rewrite decide_False by done. by rewrite IH.
Qed.

Lemma all_keyframes_app ts1 ts2 :
  all_keyframes (ts1 ++ ts2) = all_keyframes ts1 ++ all_keyframes ts2.
Proof. unfold all_keyframes. apply bind_app. Qed.

Lemma all_keyframes_middle ts1 t ts2 :
  all_keyframes (ts1 ++ t :: ts2) =
  all_keyframes ts1 ++ tr_keyframes t ++ all_keyframes ts2.
Proof. by rewrite all_keyframes_app. Qed.

Lemma list_find_middle {A} (P : A → Prop) `{!∀ x, Decision (P x)} (pre post : list A) x :
  P x → Forall (λ y, ¬ P y) pre →
  list_find P (pre ++ x :: post) = Some (length pre, x).
Proof.
  intros HP Hpre. apply list_find_Some. split; [|split; [done|]].
  - rewrite lookup_app_r by lia. by rewrite Nat.sub_diag.
  - intros j y Hj Hlt. rewrite lookup_app_l in Hj by done.
    rewrite Forall_forall in Hpre. apply Hpre. by eapply list_elem_of_lookup_2.
Qed.

Lemma updateKeyframe_loop_middle ts1 t ts2 pre kf post props :
  kf_id kf ∉ (kf_id <$> all_keyframes ts1) →
  kf_id kf ∉ (kf_id <$> pre) →
  tr_keyframes t = pre ++ kf :: post →
  updateKeyframe_loop (ts1 ++ t :: ts2) (kf_id kf) props =
    (let kf' := set_properties (merge_properties (kf_properties kf) props) kf in
     Some (ts1 ++ set_keyframes (pre ++ kf' :: post) t :: ts2, kf')).
Proof.
  intros H1 Hpre Hk. induction ts1 as [|a ts1 IH].
  - cbn [app updateKeyframe_loop]. rewrite Hk.
    rewrite (list_find_middle (λ k, kf_id k = kf_id kf) pre post kf); [|done|].
    + rewrite insert_app_r_alt by lia. by rewrite Nat.sub_diag.
    + apply Forall_forall. intros y Hy Hid. apply Hpre.
      apply list_elem_of_fmap. eauto.
  - cbn [app updateKeyframe_loop].
    change (all_keyframes (a :: ts1)) with (tr_keyframes a ++ all_keyframes ts1) in H1.
    rewrite fmap_app, elem_of_app in H1.
    assert (list_find (λ k, kf_id k = kf_id kf) (tr_keyframes a) = None) as ->.
    { apply list_find_None, Forall_forall. intros y Hy Hid. apply H1. left.
      apply list_elem_of_fmap. eauto. }
    rewrite IH by tauto. done.
Qed.

Lemma update_existing ts1 t ts2 pre kf post props :
  NoDup (kf_id <$> all_keyframes (ts1 ++ t :: ts2)) →
  tr_keyframes t = pre ++ kf :: post →
  updateKeyframe_loop (ts1 ++ t :: ts2) (kf_id kf) props =
    (let kf' := set_properties (merge_properties (kf_properties kf) props) kf in
     Some (ts1 ++ set_keyframes (pre ++ kf' :: post) t :: ts2, kf')).
Proof.
  intros Hnd Hk. rewrite all_keyframes_middle, Hk in Hnd.
  rewrite !fmap_app, fmap_cons in Hnd.
  apply NoDup_app in Hnd as (_ & Hdisj & Hnd).
  apply NoDup_app in Hnd as (Hnd & _ & _).
  apply NoDup_app in Hnd as (_ & Hdisj' & _).
  apply updateKeyframe_loop_middle; [| |done].
  - intros Hin. apply (Hdisj _ Hin). apply elem_of_app. left. apply elem_of_app. right. left.
  - intros Hin. apply (Hdisj' _ Hin). left.
Qed.

Lemma addKeyframe_existing s ts1 t ts2 pre e post frame now props :
  tracks s = ts1 ++ t :: ts2 →
  Forall (λ t', tr_id t' ≠ tr_id t) ts1 →
  NoDup (kf_id <$> all_keyframes (tracks s)) →
  tr_keyframes t = pre ++ e :: post →
  kf_frame e = frame →
  Forall (λ k, kf_frame k ≠ frame) pre →
  addKeyframe now (tr_id t) frame props s =
    (let e' := set_properties (merge_properties (kf_properties e) props) e in
     Ok (set_tracks (ts1 ++ set_keyframes (pre ++ e' :: post) t :: ts2) s, e')).
Proof.
  intros Hts Hall Hnd Hk He Hpre. unfold addKeyframe.
  rewrite Hts, tracks_get_middle by done. rewrite Hk.
  rewrite (list_find_middle (λ kf, kf_frame kf = frame) pre post e) by done.
  unfold updateKeyframe. rewrite Hts in *.
  by rewrite (update_existing ts1 t ts2 pre e post props Hnd Hk).
Qed.

Lemma ascending_count_at pre kf post :
  ascending (pre ++ kf :: post) →
  Forall (λ k, kf_frame k ≠ kf_frame kf) pre
  ∧ Forall (λ k, kf_frame k ≠ kf_frame kf) post.
Proof.
  intros Hasc%ascending_NoDup. rewrite fmap_app, fmap_cons in Hasc.
  apply NoDup_app in Hasc as (_ & Hdisj & [Hnotin _]%NoDup_cons).
  split; apply Forall_forall; intros k Hk E.
  - apply (Hdisj (kf_frame k)); [apply list_elem_of_fmap; eauto|]. rewrite E. left.
  - apply Hnotin. rewrite <- E. apply list_elem_of_fmap. eauto.
Qed.

Lemma count_at_middle frame pre kf post :
  kf_frame kf = frame →
  Forall (λ k, kf_frame k ≠ frame) pre → Forall (λ k, kf_frame k ≠ frame) post →
  count_at frame (pre ++ kf :: post) = 1%nat.
Proof.
  intros Hk Hpre Hpost.
  change (pre ++ kf :: post) with (pre ++ [kf] ++ post).
  rewrite !count_at_app, (count_at_none _ pre), (count_at_none _ post) by done.
  by rewrite count_at_one.
Qed.

(** Under unique keyframe ids the second [addKeyframe] merges into the
    keyframe of the first. *)
Theorem addKeyframe_twice_unique_ids s trackId track frame now1 p1 now2 p2 :
  tracks_get (tracks s) trackId = Some track →
  ascending (tr_keyframes track) →
  NoDup (kf_id <$> all_keyframes (tracks s)) →
  ("kf_" +:+ now1) ∉ (kf_id <$> all_keyframes (tracks s)) →
  ∃ s1 k1 s2 k2 track2,
    addKeyframe now1 trackId frame p1 s = Ok (s1, k1)
    ∧ addKeyframe now2 trackId frame p2 s1 = Ok (s2, k2)
    ∧ tracks_get (tracks s2) trackId = Some track2
    ∧ count_at frame (tr_keyframes track2) = 1%nat
    ∧ ascending (tr_keyframes track2)
    ∧ k2 ∈ tr_keyframes track2
    ∧ kf_frame k2 = frame
    ∧ kf_id k2 = kf_id k1
    ∧ kf_properties k2 = merge_properties (kf_properties k1) p2.
Proof.
  intros Hget Hasc Hnd Hfresh.
  destruct (tracks_get_split _ _ _ Hget) as (ts1 & ts2 & Hts & <- & Hall).
  destruct (list_find (λ kf, kf_frame kf = frame) (tr_keyframes track))
    as [[i e]|] eqn:Ef.
  - apply list_find_split in Ef as (pre & post & Hk & _ & He & Hpre).
    assert (Forall (λ k, kf_frame k ≠ frame) post) as Hpost.
    { rewrite Hk in Hasc. apply ascending_count_at in Hasc as [_ H]. by rewrite He in H. }
    set (e1 := set_properties (merge_properties (kf_properties e) p1) e).
    set (t1 := set_keyframes (pre ++ e1 :: post) track).
    set (s1 := set_tracks (ts1 ++ t1 :: ts2) s).
    set (e2 := set_properties (merge_properties (kf_properties e1) p2) e1).
    set (t2 := set_keyframes (pre ++ e2 :: post) t1).
    exists s1, e1, (set_tracks (ts1 ++ t2 :: ts2) s1), e2, t2.
    split; [by apply (addKeyframe_existing s ts1 track ts2 pre e post)|].
    split.
    { apply (addKeyframe_existing s1 ts1 t1 ts2 pre e1 post); try done.
      cbn [tracks s1 set_tracks]. rewrite Hts in Hnd.
      rewrite all_keyframes_middle in *. cbn [tr_keyframes t1 set_keyframes].
      rewrite Hk in Hnd. by rewrite !fmap_app, !fmap_cons in *. }
    split; [by apply tracks_get_middle|].
    cbn [tr_keyframes t2 set_keyframes].
    split; [by apply count_at_middle|].
    split; [|split; [apply elem_of_app; right; left|done]].
    unfold ascending in *. rewrite Hk in Hasc. by rewrite !fmap_app, !fmap_cons in *.
  - apply list_find_None in Ef.
    set (k := {| kf_id := "kf_" +:+ now1; kf_frame := frame;
                 kf_boneId := tr_boneId track; kf_properties := default ∅ p1;
                 kf_easing := "linear" |}).
    set (kfs' := sort_by_frame (tr_keyframes track ++ [k])).
    set (t1 := set_keyframes kfs' track).
    set (s1 := set_tracks (ts1 ++ t1 :: ts2) s).
    assert (kfs' ≡ₚ k :: tr_keyframes track) as Hperm.
    { unfold kfs'. rewrite sort_by_frame_perm. by rewrite Permutation_app_comm. }
    assert (addKeyframe now1 (tr_id track) frame p1 s = Ok (s1, k)) as E1.
    { unfold addKeyframe. rewrite Hget, (proj2 (list_find_None _ _) Ef).
      fold k kfs' t1. rewrite Hts, (tracks_set_middle ts1 track ts2 t1) by done. done. }
    assert (NoDup (kf_frame <$> kfs')) as Hndf.
    { rewrite Hperm, fmap_cons. apply NoDup_cons. split; [|by apply ascending_NoDup].
      intros (y & Hy1 & Hy2)%list_elem_of_fmap. rewrite Forall_forall in Ef.
      by apply (Ef y Hy2). }
    assert (k ∈ kfs') as Hin by (rewrite Hperm; left).
    apply list_elem_of_split in Hin as (pre & post & Hk).
    assert (Forall (λ x, kf_frame x ≠ frame) pre ∧ Forall (λ x, kf_frame x ≠ frame) post)
      as [Hpre Hpost].
    { rewrite Hk, fmap_app, fmap_cons in Hndf.
      apply NoDup_app in Hndf as (_ & Hdisj & [Hnotin _]%NoDup_cons).
      split; apply Forall_forall; intros x Hx E.
      - apply (Hdisj (kf_frame x)); [apply list_elem_of_fmap; eauto|]. rewrite E. left.
      - apply Hnotin. change (kf_frame k) with frame. rewrite <- E.
        apply list_elem_of_fmap. eauto. }
    set (k2 := set_properties (merge_properties (kf_properties k) p2) k).
    set (t2 := set_keyframes (pre ++ k2 :: post) t1).
    exists s1, k, (set_tracks (ts1 ++ t2 :: ts2) s1), k2, t2.
    split; [done|]. split.
    { apply (addKeyframe_existing s1 ts1 t1 ts2 pre k post); try done.
      cbn [tracks s1 set_tracks]. rewrite Hts in Hnd, Hfresh.
      rewrite all_keyframes_middle in *. cbn [tr_keyframes t1 set_keyframes].
      rewrite !fmap_app in *. rewrite Hperm, fmap_cons.
      rewrite <- app_comm_cons, <- Permutation_middle.
      apply NoDup_cons. split; [|done]. exact Hfresh. }
    split; [by apply tracks_get_middle|].
    cbn [tr_keyframes t2 set_keyframes].
    split; [by apply count_at_middle|].
    split; [|split; [apply elem_of_app; right; left|done]].
    unfold ascending. apply sorted_NoDup_ascending.
    + pose proof (sort_by_frame_sorted (tr_keyframes track ++ [k])) as Hs.
      fold kfs' in Hs. unfold sorted_by_frame in Hs. rewrite Hk in Hs.
      by rewrite !fmap_app, !fmap_cons in *.
    + rewrite Hk in Hndf. by rewrite !fmap_app, !fmap_cons in *.
Qed.

(** C4 is broken by the code when two keyframes share an id: on the
    timeline [same_ms] (track_1 holds [kf_7] at frame 1 with [{x: 0}]),
    [addKeyframe] at frame 10 with [{x: 100}] in the same millisecond names
    its keyframe [kf_7] too; the second [addKeyframe] at frame 10, with
    [{y: 9}], finds that keyframe but merges [{y: 9}] into the keyframe of
    frame 1 and returns that one.  The track still has one keyframe at
    frame 10 and is sorted. *)
Theorem addKeyframe_twice_same_millisecond :
  ∃ s1 k1 s2 k2 t2,
    addKeyframe "7" "track_1" 10 (Some {[ "x" := 100%R ]}) same_ms = Ok (s1, k1)
    ∧ addKeyframe "8" "track_1" 10 (Some {[ "y" := 9%R ]}) s1 = Ok (s2, k2)
    ∧ tracks_get (tracks s2) "track_1" = Some t2
    ∧ kf_frame <$> tr_keyframes t2 = [1; 10]
    ∧ kf_properties <$> tr_keyframes t2 =
        [ {[ "x" := 0%R; "y" := 9%R ]}; {[ "x" := 100%R ]} ]
    ∧ kf_id <$> tr_keyframes t2 = ["kf_7"; "kf_7"]
    ∧ kf_frame k2 = 1.
Proof.
  do 5 eexists.
  split; [vm_compute; reflexivity|].
  split; [vm_compute; reflexivity|].
  split; [vm_compute; reflexivity|].
  split; [vm_compute; reflexivity|].
  split; [vm_compute; reflexivity|].
  split; vm_compute; reflexivity.
Qed.

(** [addKeyframe] on an unknown track throws "Track not found". *)
Lemma addKeyframe_unknown_track now trackId frame props s :
  tracks_get (tracks s) trackId = None →
  addKeyframe now trackId frame props s = Throw TrackNotFound.
Proof. intros H. unfold addKeyframe. by rewrite H. Qed.

End TimelineFacts.

(** * Facts about the bone hierarchy and the solver *)

Module BonesFacts.
Import Bones.

(** ** Loops over a list of children *)

Section forEach_facts.
Context {S : Type}.
Implicit Types (body : string → S → option S) (I : S → Prop).

Lemma forEach_total I body l s :
  I s →
  (∀ a s0, a ∈ l → I s0 → ∃ s1, body a s0 = Some s1 ∧ I s1) →
  ∃ s', forEach body l s = Some s' ∧ I s'.
Proof.
  revert s. induction l as [|a l IH]; intros s Hs Hbody; [by exists s|].
  destruct (Hbody a s) as (s1 & E & Hs1); [left|done|].
  simpl. rewrite E. apply IH; [done|].
  intros b s0 Hb. apply Hbody. by right.
Qed.

Lemma forEach_inv I body l s s' :
  I s →
  (∀ a s0 s1, a ∈ l → I s0 → body a s0 = Some s1 → I s1) →
  forEach body l s = Some s' → I s'.
Proof.
  revert s. induction l as [|a l IH]; intros s Hs Hbody E; simpl in E.
  - by simplify_eq.
  - destruct (body a s) as [s1|] eqn:E1; [|done].
    eapply IH; [| |exact E].
    + eapply Hbody; [left|exact Hs|exact E1].
    + intros b s0 s2 Hb. apply Hbody. by right.
Qed.
End forEach_facts.

(** ** Stores of one shape *)

Lemma unplaced_shape b b' : unplaced b = unplaced b' → shape b = shape b'.
Proof.
  intros H. unfold shape.
  change (bone_id b) with (bone_id (unplaced b)).
  change (bone_parentId b) with (bone_parentId (unplaced b)).
  change (bone_children b) with (bone_children (unplaced b)).
  by rewrite H.
Qed.

Lemma same_but_positions_shape m m' : same_but_positions m m' → same_shape m m'.
Proof.
  intros H k. specialize (H k).
  destruct (m !! k) as [b|], (m' !! k) as [b'|]; simpl in *; try done.
  f_equal. apply unplaced_shape. congruence.
Qed.

Lemma same_but_positions_refl m : same_but_positions m m.
Proof. by intros k. Qed.

Lemma same_but_positions_trans m1 m2 m3 :
  same_but_positions m1 m2 → same_but_positions m2 m3 → same_but_positions m1 m3.
Proof. intros H1 H2 k. by rewrite H1. Qed.

Lemma same_shape_refl m : same_shape m m.
Proof. by intros k. Qed.

Lemma same_shape_trans m1 m2 m3 :
  same_shape m1 m2 → same_shape m2 m3 → same_shape m1 m3.
Proof. intros H1 H2 k. by rewrite H1. Qed.

Lemma same_shape_sym m1 m2 : same_shape m1 m2 → same_shape m2 m1.
Proof. intros H k. by rewrite H. Qed.

Lemma same_but_positions_alter f k (m : gmap string BoneData) :
  (∀ b, unplaced (f b) = unplaced b) → same_but_positions m (alter f k m).
Proof.
  intros Hf j. rewrite lookup_alter. case_decide; [subst|done].
  destruct (m !! j); simpl; [|done]. by rewrite Hf.
Qed.

Lemma same_shape_alter f k (m : gmap string BoneData) :
  (∀ b, shape (f b) = shape b) → same_shape m (alter f k m).
Proof.
  intros Hf j. rewrite lookup_alter. case_decide; [subst|done].
  destruct (m !! j); simpl; [|done]. by rewrite Hf.
Qed.

Lemma same_shape_lookup m m' k b :
  same_shape m m' → m !! k = Some b → ∃ b', m' !! k = Some b' ∧ shape b' = shape b.
Proof.
  intros H E. specialize (H k). rewrite E in H.
  destruct (m' !! k) as [b'|]; simpl in H; [|done]. exists b'. split; [done|congruence].
Qed.

Lemma shape_fields b b' :
  shape b = shape b' →
  bone_id b = bone_id b' ∧ bone_parentId b = bone_parentId b'
  ∧ bone_children b = bone_children b'.
Proof. unfold shape. intros [= -> -> ->]. done. Qed.

Lemma child_of_shape m m' a c : same_shape m m' → child_of m a c → child_of m' a c.
Proof.
  intros H (b & Hb & Hc).
  destruct (same_shape_lookup _ _ _ _ H Hb) as (b' & Hb' & (_ & _ & E)%shape_fields).
  exists b'. split; [done|]. by rewrite E.
Qed.

Lemma ranked_shape rank bound m m' :
  same_shape m m' → ranked rank bound m → ranked rank bound m'.
Proof.
  intros H [H1 H2]. split.
  - intros k b' Hb'.
    destruct (same_shape_lookup _ _ _ _ (same_shape_sym _ _ H) Hb') as (b & Hb & _). eauto.
  - intros a c Hc. apply H2. eapply child_of_shape; [|exact Hc]. by apply same_shape_sym.
Qed.

Lemma inv_shape D rank bound m m' :
  same_shape m m' → inv D rank bound m → inv D rank bound m'.
Proof.
  intros H [Hkey Hne Hch Hpar Hdet Hnd Hrk].
  pose proof (same_shape_sym _ _ H) as H'.
  split.
  - intros k b' Hb'. destruct (same_shape_lookup _ _ _ _ H' Hb') as (b & Hb & (E & _)%shape_fields).
    rewrite <- E. eauto.
  - specialize (H EmptyString). rewrite Hne in H. by destruct (m' !! EmptyString).
  - intros k b' c Hb' Hc.
    destruct (same_shape_lookup _ _ _ _ H' Hb') as (b & Hb & (_ & _ & E)%shape_fields).
    rewrite <- E in Hc. destruct (Hch k b c Hb Hc) as (cb & Hcb & Hp).
    destruct (same_shape_lookup _ _ _ _ H Hcb) as (cb' & Hcb' & (_ & E' & _)%shape_fields).
    exists cb'. split; [done|congruence].
  - intros k b' p pb' Hb' Hp Hpb'.
    destruct (same_shape_lookup _ _ _ _ H' Hb') as (b & Hb & (_ & E & _)%shape_fields).
    destruct (same_shape_lookup _ _ _ _ H' Hpb') as (pb & Hpb & (_ & _ & E')%shape_fields).
    rewrite <- E'. apply (Hpar k b p pb); [exact Hb|congruence|exact Hpb].
  - intros j k b' Hj Hb'.
    destruct (same_shape_lookup _ _ _ _ H' Hb') as (b & Hb & (_ & _ & E)%shape_fields).
    rewrite <- E. eauto.
  - intros k b' Hb'.
    destruct (same_shape_lookup _ _ _ _ H' Hb') as (b & Hb & (_ & _ & E)%shape_fields).
    rewrite <- E. eauto.
  - by eapply ranked_shape.
Qed.

(** ** Propagation of positions *)

Lemma ranked_same_but_positions rank bound m m' :
  same_but_positions m m' → ranked rank bound m → ranked rank bound m'.
Proof. intros H. apply ranked_shape. by apply same_but_positions_shape. Qed.

Lemma ranked_child rank bound m k b c :
  ranked rank bound m → m !! k = Some b → c ∈ bone_children b →
  (rank k < rank c)%nat.
Proof. intros [_ H] Hb Hc. apply H. by exists b. Qed.

Lemma updateBonePosition_spec rank bound fuel k m b :
  ranked rank bound m → m !! k = Some b → (bound ≤ fuel + rank k)%nat →
  ∃ m', updateBonePosition fuel k m = Some m' ∧ same_but_positions m m'.
Proof.
  revert k m b. induction fuel as [|f IH]; intros k m b Hrk Hb Hfuel.
  { destruct Hrk as [Hlt _]. specialize (Hlt k b Hb). lia. }
  cbn [updateBonePosition]. rewrite Hb.
  set (m1 := match truthy (bone_parentId b) with
             | Some pid => match m !! pid with
                           | Some parent => alter (set_position (getBoneEnd parent)) k m
                           | None => m
                           end
             | None => m
             end).
  assert (same_but_positions m m1) as H1.
  { unfold m1. destruct (truthy (bone_parentId b)); [|apply same_but_positions_refl].
    destruct (m !! s); [|apply same_but_positions_refl].
    by apply same_but_positions_alter. }
  apply (forEach_total (λ m0, same_but_positions m m0)); [done|].
  intros c m0 Hc H0.
  destruct (m0 !! c) as [cb|] eqn:Ec; [|by exists m0].
  destruct (IH c m0 cb) as (m' & E & Hm'); [by eapply ranked_same_but_positions|done| |].
  - pose proof (ranked_child _ _ _ _ _ _ Hrk Hb Hc). lia.
  - exists m'. split; [done|]. by eapply same_but_positions_trans.
Qed.

Lemma updateBonePosition_same_but_positions fuel k m m' :
  updateBonePosition fuel k m = Some m' → same_but_positions m m'.
Proof.
  revert k m m'. induction fuel as [|f IH]; intros k m m' E; [done|].
  cbn [updateBonePosition] in E.
  destruct (m !! k) as [b|] eqn:Hb; [|simplify_eq; apply same_but_positions_refl].
  revert E.
  set (m1 := match truthy (bone_parentId b) with
             | Some pid => match m !! pid with
                           | Some parent => alter (set_position (getBoneEnd parent)) k m
                           | None => m
                           end
             | None => m
             end).
  assert (same_but_positions m m1) as H1.
  { unfold m1. destruct (truthy (bone_parentId b)); [|apply same_but_positions_refl].
    destruct (m !! s); [|apply same_but_positions_refl].
    by apply same_but_positions_alter. }
  apply (forEach_inv (λ m0, same_but_positions m m0)); [done|].
  intros c m0 m2 _ H0 E. destruct (m0 !! c); [|by simplify_eq].
  eapply same_but_positions_trans; [exact H0|]. by eapply IH.
Qed.


(** ** Deletion of a subtree *)

Lemma truthy_Some o s : truthy o = Some s → o = Some s ∧ s ≠ EmptyString.
Proof.
  unfold truthy. destruct o as [s'|]; [|done]. case_decide; [done|].
  intros [= ->]. done.
Qed.

Lemma truthy_None_Some s : truthy (Some s) = None → s = EmptyString.
Proof. unfold truthy. by case_decide. Qed.

Lemma truthy_is_Some s : s ≠ EmptyString → truthy (Some s) = Some s.
Proof. intros H. unfold truthy. by case_decide. Qed.

Lemma ranked_weaken rank bound m m' :
  (∀ k b', m' !! k = Some b' →
     ∃ b, m !! k = Some b ∧ bone_children b' ⊆ bone_children b) →
  ranked rank bound m → ranked rank bound m'.
Proof.
  intros H [H1 H2]. split.
  - intros k b' Hb'. destruct (H k b' Hb') as (b & Hb & _). eauto.
  - intros a c (b' & Hb' & Hc). destruct (H a b' Hb') as (b & Hb & Hsub).
    apply H2. exists b. split; [done|]. by apply Hsub.
Qed.

Lemma detach_inv D rank bound m k bone :
  inv D rank bound m → m !! k = Some bone →
  inv (D ∪ {[k]}) rank bound
    (match truthy (bone_parentId bone) with
     | Some pid => alter (without k) pid m
     | None => m
     end).
Proof.
  intros [Hkey Hne Hch Hpar Hdet Hnd Hrk] Hk.
  set (m1 := match truthy (bone_parentId bone) with
             | Some pid => alter (without k) pid m
             | None => m
             end).
  assert (∀ j b1, m1 !! j = Some b1 →
            ∃ b, m !! j = Some b ∧ bone_id b1 = bone_id b
                 ∧ bone_parentId b1 = bone_parentId b
                 ∧ (b1 = b ∨ b1 = without k b)) as Hback.
  { intros j b1. unfold m1. destruct (truthy (bone_parentId bone)) as [pid|]; [|by eauto 10].
    rewrite lookup_alter. case_decide; [subst|by eauto 10].
    destruct (m !! j) as [b|]; simpl; [|done]. intros [= <-]. eauto 10. }
  assert (∀ j b, m !! j = Some b →
            ∃ b1, m1 !! j = Some b1 ∧ (b1 = b ∨ b1 = without k b)) as Hfwd.
  { intros j b Hb. unfold m1. destruct (truthy (bone_parentId bone)) as [pid|]; [|by eauto].
    rewrite lookup_alter. case_decide; [subst|by eauto].
    rewrite Hb. simpl. eauto. }
  assert (∀ q b1, m1 !! q = Some b1 → k ∉ bone_children b1) as Hnok.
  { intros q b1 Hb1 Hin.
    destruct (Hback q b1 Hb1) as (b & Hb & _ & _ & [->| ->]).
    - destruct (Hch q b k Hb Hin) as (cb & Hcb & Hp). simplify_eq.
      assert (q ≠ EmptyString) as Hq by (intros ->; congruence).
      unfold m1 in Hb1. rewrite Hp, (truthy_is_Some q Hq), lookup_alter in Hb1.
      rewrite decide_True in Hb1 by done. rewrite Hb in Hb1. simpl in Hb1.
      injection Hb1 as Hb1. rewrite <- Hb1 in Hin.
      simpl in Hin. apply list_elem_of_filter in Hin as [? _]. done.
    - simpl in Hin. apply list_elem_of_filter in Hin as [? _]. done. }
  split.
  - intros j b1 Hb1. destruct (Hback j b1 Hb1) as (b & Hb & E & _). rewrite E. eauto.
  - destruct (m1 !! EmptyString) as [b1|] eqn:E; [|done].
    destruct (Hback EmptyString b1 E) as (b & Hb & _). congruence.
  - intros j b1 c Hb1 Hc.
    destruct (Hback j b1 Hb1) as (b & Hb & _ & _ & Hor).
    assert (c ∈ bone_children b) as Hc'.
    { destruct Hor as [->| ->]; [done|]. simpl in Hc.
      by apply list_elem_of_filter in Hc as [_ ?]. }
    destruct (Hch j b c Hb Hc') as (cb & Hcb & Hp).
    destruct (Hfwd c cb Hcb) as (cb1 & Hcb1 & [->| ->]); eauto.
  - intros j b1 p pb1 Hb1 Hp Hpb1.
    destruct (Hback j b1 Hb1) as (b & Hb & _ & Ep & _).
    destruct (Hback p pb1 Hpb1) as (pb & Hpb & _ & _ & Hor).
    rewrite Ep in Hp.
    destruct (Hpar j b p pb Hb Hp Hpb) as [Hin|HD]; [|right; apply elem_of_union; by left].
    destruct Hor as [->| ->]; [by left|].
    destruct (decide (j = k)) as [->|Hjk]; [right; apply elem_of_union; right; by apply elem_of_singleton|].
    left. simpl. apply list_elem_of_filter. done.
  - intros j q b1 [HD| ->%elem_of_singleton]%elem_of_union Hb1; [|by eapply Hnok].
    destruct (Hback q b1 Hb1) as (b & Hb & _ & _ & Hor).
    pose proof (Hdet j q b HD Hb) as Hn.
    destruct Hor as [->| ->]; [done|]. simpl.
    rewrite list_elem_of_filter. tauto.
  - intros j b1 Hb1. destruct (Hback j b1 Hb1) as (b & Hb & _ & _ & Hor).
    destruct Hor as [->| ->]; [by eauto|]. simpl. apply NoDup_filter. eauto.
  - eapply ranked_weaken; [|exact Hrk].
    intros j b1 Hb1. destruct (Hback j b1 Hb1) as (b & Hb & _ & _ & Hor).
    exists b. split; [done|]. destruct Hor as [->| ->]; [done|].
    simpl. intros c Hc. by apply list_elem_of_filter in Hc as [_ ?].
Qed.

Lemma delete_inv D rank bound m k :
  inv (D ∪ {[k]}) rank bound m → inv D rank bound (delete k m).
Proof.
  intros [Hkey Hne Hch Hpar Hdet Hnd Hrk].
  split.
  - intros j b [_ Hb]%lookup_delete_Some. eauto.
  - apply lookup_delete_None. by right.
  - intros j b c [Hj Hb]%lookup_delete_Some Hc.
    destruct (Hch j b c Hb Hc) as (cb & Hcb & Hp).
    exists cb. split; [|done]. apply lookup_delete_Some. split; [|done].
    intros <-. eapply Hdet; [|exact Hb|exact Hc]. set_solver.
  - intros j b p pb [Hj Hb]%lookup_delete_Some Hp [Hpk Hpb]%lookup_delete_Some.
    destruct (Hpar j b p pb Hb Hp Hpb) as [?|[?|?%elem_of_singleton]%elem_of_union]; [by left|by right|done].
  - intros j q b HD [_ Hb]%lookup_delete_Some. eapply Hdet; [|exact Hb]. set_solver.
  - intros j b [_ Hb]%lookup_delete_Some. eauto.
  - eapply ranked_weaken; [|exact Hrk].
    intros j b [_ Hb]%lookup_delete_Some. eauto.
Qed.

Lemma deleteBone_inv rank bound fuel k st D :
  inv D rank bound (bones st) → (1 ≤ fuel)%nat → (bound < fuel + rank k)%nat →
  ∃ st', deleteBone fuel k st = Some st' ∧ inv D rank bound (bones st').
Proof.
  revert k st D. induction fuel as [|f IH]; intros k st D Hinv H1 Hfuel; [lia|].
  cbn [deleteBone].
  destruct (bones st !! k) as [bone|] eqn:Hk; [|by exists st].
  pose proof (detach_inv D rank bound _ k bone Hinv Hk) as Hinv1.
  fold (without k).
  set (m1 := match truthy (bone_parentId bone) with
             | Some pid => alter (without k) pid (bones st)
             | None => bones st
             end) in *.
  set (kids := match m1 !! k with Some bone' => bone_children bone' | None => [] end).
  assert (rank k < bound)%nat as Hrk.
  { destruct Hinv as [_ _ _ _ _ _ [Hlt _]]. eauto. }
  assert (∀ c, c ∈ kids → (rank k < rank c)%nat) as Hkids.
  { intros c Hc. unfold kids in Hc. destruct (m1 !! k) as [bone'|] eqn:E; [|by inversion Hc].
    destruct Hinv1 as [_ _ _ _ _ _ Hr]. eapply ranked_child; eauto. }
  destruct (forEach_total (λ st0, inv (D ∪ {[k]}) rank bound (bones st0))
              (deleteBone f) kids (set_bones m1 st)) as (st2 & E & Hinv2); [done| |].
  - intros c st0 Hc H0. apply IH; [done|lia|]. specialize (Hkids c Hc). lia.
  - rewrite E. eexists. split; [done|]. simpl. by apply delete_inv.
Qed.

(** ** Creation of a bone *)

Lemma insert_root_inv rank bound (m : gmap string BoneData) id bone :
  inv ∅ rank bound m →
  m !! id = None → id ≠ EmptyString →
  (∀ k b, m !! k = Some b → bone_parentId b ≠ Some id) →
  bone_id bone = id → bone_children bone = [] →
  (∀ p, bone_parentId bone = Some p → m !! p = None ∧ p ≠ id) →
  inv ∅ (λ k, if decide (k = id) then O else rank k) (S bound) (<[id := bone]> m).
Proof.
  intros [Hkey Hne Hch Hpar Hdet Hnd [Hlt Hrk]] Hfresh Hid Hnopar Hbid Hbch Hdangling.
  split.
  - intros k b [[<- <-]|[Hk Hb]]%lookup_insert_Some; eauto.
  - by rewrite lookup_insert_ne.
  - intros k b c [[<- <-]|[Hk Hb]]%lookup_insert_Some Hc.
    + rewrite Hbch in Hc. by inversion Hc.
    + destruct (Hch k b c Hb Hc) as (cb & Hcb & Hp). exists cb. split; [|done].
      rewrite lookup_insert_ne; [done|]. congruence.
  - intros k b p pb [[<- <-]|[Hk Hb]]%lookup_insert_Some Hp Hpb.
    + destruct (Hdangling p Hp) as [Hnone Hpid]. rewrite lookup_insert_ne in Hpb by done.
      congruence.
    + assert (p ≠ id) as Hpid by (intros ->; by eapply Hnopar).
      rewrite lookup_insert_ne in Hpb by done. eauto.
  - intros j k b Hj. by apply not_elem_of_empty in Hj.
  - intros k b [[<- <-]|[Hk Hb]]%lookup_insert_Some; [|by eauto].
    rewrite Hbch. constructor.
  - split.
    + intros k b [[<- <-]|[Hk Hb]]%lookup_insert_Some.
      * rewrite decide_True by done. lia.
      * rewrite decide_False by done. specialize (Hlt k b Hb). lia.
    + intros a c (b & [[<- <-]|[Hk Hb]]%lookup_insert_Some & Hc).
      * rewrite Hbch in Hc. by inversion Hc.
      * destruct (Hch a b c Hb Hc) as (cb & Hcb & _).
        rewrite !decide_False by congruence.
        apply Hrk. by exists b.
Qed.

Lemma insert_child_inv rank bound (m : gmap string BoneData) id bone pid pb :
  inv ∅ rank bound m →
  m !! id = None → id ≠ EmptyString →
  (∀ k b, m !! k = Some b → bone_parentId b ≠ Some id) →
  bone_id bone = id → bone_children bone = [] →
  bone_parentId bone = Some pid → m !! pid = Some pb →
  inv ∅ (λ k, if decide (k = id) then S (rank pid) else rank k) (S bound)
    (alter (λ p, set_children (bone_children p ++ [id]) p) pid (<[id := bone]> m)).
Proof.
  intros [Hkey Hne Hch Hpar Hdet Hnd [Hlt Hrk]] Hfresh Hid Hnopar Hbid Hbch Hbpar Hpb.
  assert (pid ≠ id) as Hpid by congruence.
  set (push := λ p, set_children (bone_children p ++ [id]) p).
  assert (∀ k b, alter push pid (<[id := bone]> m) !! k = Some b ↔
            (k = id ∧ b = bone) ∨ (k = pid ∧ b = push pb)
            ∨ (k ≠ id ∧ k ≠ pid ∧ m !! k = Some b)) as Hlook.
  { intros k b. rewrite lookup_alter. case_decide as Hk.
    - subst k. rewrite lookup_insert_ne by done. rewrite Hpb. simpl.
      split; [intros [= <-]; tauto|]. intros [[? _]|[[_ ->]|(_ & ? & _)]]; done.
    - rewrite lookup_insert_Some. split.
      + intros [[<- <-]|[? ?]]; [by left|]. right; right. done.
      + intros [[-> ->]|[[? _]|(? & ? & ?)]]; [by left|done|]. right. done. }
  assert (id ∉ bone_children pb) as Hnotin.
  { intros Hin. destruct (Hch pid pb id Hpb Hin) as (cb & Hcb & _). congruence. }
  split.
  - intros k b [[-> ->]|[[-> ->]|(_ & _ & Hb)]]%Hlook; simpl; eauto.
  - destruct (alter push pid (<[id:=bone]> m) !! EmptyString) as [b|] eqn:E; [|done].
    apply Hlook in E as [[? _]|[[? _]|(_ & _ & Hb)]]; congruence.
  - intros k b c [[-> ->]|[[-> ->]|(Hk1 & Hk2 & Hb)]]%Hlook Hc.
    + rewrite Hbch in Hc. by inversion Hc.
    + simpl in Hc. apply elem_of_app in Hc as [Hc|Hc%list_elem_of_singleton].
      * destruct (Hch pid pb c Hpb Hc) as (cb & Hcb & Hp).
        destruct (decide (c = pid)) as [->|Hcp].
        -- exists (push pb). split; [apply Hlook; tauto|]. simplify_eq. done.
        -- exists cb. split; [|done]. apply Hlook. right; right.
           repeat split; [congruence|done|done].
      * subst c. exists bone. split; [apply Hlook; tauto|done].
    + destruct (Hch k b c Hb Hc) as (cb & Hcb & Hp).
      destruct (decide (c = pid)) as [->|Hcp].
      * exists (push pb). split; [apply Hlook; tauto|]. simplify_eq. done.
      * exists cb. split; [|done]. apply Hlook. right; right.
        repeat split; [congruence|done|done].
  - intros k b p pb' [[-> ->]|[[-> ->]|(Hk1 & Hk2 & Hb)]]%Hlook Hp Hpb'; left.
    + rewrite Hbpar in Hp. injection Hp as <-.
      apply Hlook in Hpb' as [[? _]|[[_ ->]|(_ & ? & _)]]; try done.
      simpl. apply elem_of_app. right. by apply list_elem_of_singleton.
    + simpl in Hp.
      apply Hlook in Hpb' as [[-> _]|[[-> ->]|(_ & _ & Hpb')]].
      * exfalso. by eapply Hnopar.
      * simpl. apply elem_of_app. left.
        destruct (Hpar pid pb pid pb Hpb Hp Hpb) as [?|HD]; [done|].
        by apply not_elem_of_empty in HD.
      * destruct (Hpar pid pb p pb' Hpb Hp Hpb') as [?|HD]; [done|].
        by apply not_elem_of_empty in HD.
    + apply Hlook in Hpb' as [[-> _]|[[-> ->]|(_ & _ & Hpb')]].
      * exfalso. by eapply Hnopar.
      * simpl. apply elem_of_app. left.
        destruct (Hpar k b pid pb Hb Hp Hpb) as [?|HD]; [done|].
        by apply not_elem_of_empty in HD.
      * destruct (Hpar k b p pb' Hb Hp Hpb') as [?|HD]; [done|].
        by apply not_elem_of_empty in HD.
  - intros j k b Hj. by apply not_elem_of_empty in Hj.
  - intros k b [[-> ->]|[[-> ->]|(_ & _ & Hb)]]%Hlook; [| |by eauto].
    + rewrite Hbch. constructor.
    + simpl. apply NoDup_app. split; [by eauto|]. split; [|apply NoDup_singleton].
      intros c Hc ->%list_elem_of_singleton. done.
  - split.
    + intros k b [[-> ->]|[[-> ->]|(Hk1 & Hk2 & Hb)]]%Hlook.
      * rewrite decide_True by done. specialize (Hlt pid pb Hpb). lia.
      * rewrite decide_False by done. specialize (Hlt pid pb Hpb). lia.
      * rewrite decide_False by done. specialize (Hlt k b Hb). lia.
    + intros a c (b & [[-> ->]|[[-> ->]|(Hk1 & Hk2 & Hb)]]%Hlook & Hc).
      * rewrite Hbch in Hc. by inversion Hc.
      * rewrite (decide_False (P := pid = id)) by done.
        simpl in Hc. apply elem_of_app in Hc as [Hc|Hc%list_elem_of_singleton].
        -- destruct (Hch pid pb c Hpb Hc) as (cb & Hcb & _).
           rewrite decide_False by congruence. apply Hrk. by exists pb.
        -- subst c. rewrite decide_True by done. lia.
      * destruct (Hch a b c Hb Hc) as (cb & Hcb & _).
        rewrite !decide_False by congruence. apply Hrk. by exists b.
Qed.

(** ** The tree below a bone *)

Section tree.
Context (rank : string → nat) (bound : nat) (m : gmap string BoneData).
Hypothesis Hinv : inv ∅ rank bound m.

Lemma child_of_unique_parent a a' c : child_of m a c → child_of m a' c → a = a'.
Proof.
  intros (b & Hb & Hc) (b' & Hb' & Hc').
  destruct (inv_children _ _ _ _ Hinv a b c Hb Hc) as (cb & Hcb & Hp).
  destruct (inv_children _ _ _ _ Hinv a' b' c Hb' Hc') as (cb' & Hcb' & Hp').
  congruence.
Qed.

Lemma child_of_exists a c : child_of m a c → is_Some (m !! c).
Proof.
  intros (b & Hb & Hc).
  destruct (inv_children _ _ _ _ Hinv a b c Hb Hc) as (cb & Hcb & _). eauto.
Qed.

Lemma descendant_rank a c : descendant m a c → (rank a < rank c)%nat.
Proof.
  destruct (inv_ranked _ _ _ _ Hinv) as [_ Hrk].
  induction 1 as [x y H|x y z H _ IH].
  - by apply Hrk.
  - specialize (Hrk x y H). lia.
Qed.

Lemma descendant_irrefl a : ¬ descendant m a a.
Proof. intros H%descendant_rank. lia. Qed.

Lemma descendant_inv_r a c :
  descendant m a c → ∃ y, rtc (child_of m) a y ∧ child_of m y c.
Proof.
  induction 1 as [x y H|x y z H _ (y' & Hy & Hc)].
  - exists x. split; [apply rtc_refl|done].
  - exists y'. split; [|done]. by eapply rtc_l.
Qed.

Lemma descendant_inv_l a c :
  descendant m a c → ∃ y, child_of m a y ∧ in_subtree m y c.
Proof.
  destruct 1 as [x y H|x y z H Ht].
  - exists y. split; [done|by left].
  - exists y. split; [done|by right].
Qed.

Lemma in_subtree_rtc a c : in_subtree m a c ↔ rtc (child_of m) a c.
Proof.
  unfold in_subtree, descendant. rewrite rtc_tc. split; intros [?|?]; auto.
Qed.

Lemma ancestors_comparable a a' j :
  rtc (child_of m) a j → rtc (child_of m) a' j →
  rtc (child_of m) a a' ∨ rtc (child_of m) a' a.
Proof.
  intros Ha. revert a'. revert j Ha.
  apply (rtc_ind_r (λ j, ∀ a', rtc (child_of m) a' j →
                           rtc (child_of m) a a' ∨ rtc (child_of m) a' a)).
  - intros a' Ha'. by right.
  - intros y j Hay Hyj IH a' Ha'.
    apply rtc_inv_r in Ha' as [->|(y' & Ha'y & Hy'j)].
    + left. by eapply rtc_r.
    + assert (y = y') as <- by (by eapply child_of_unique_parent).
      by apply IH.
Qed.

Lemma siblings_disjoint k c1 c2 j :
  child_of m k c1 → child_of m k c2 →
  in_subtree m c1 j → in_subtree m c2 j → c1 = c2.
Proof.
  intros H1 H2 Hj1%in_subtree_rtc Hj2%in_subtree_rtc.
  assert (∀ x y, child_of m k x → child_of m k y → rtc (child_of m) x y → x = y) as Haux.
  { intros x y Hx Hy [->|Ht]%rtc_tc; [done|].
    apply descendant_inv_r in Ht as (p & Hxp & Hpy).
    assert (p = k) as -> by (by eapply child_of_unique_parent).
    exfalso. apply (descendant_irrefl k).
    eapply tc_rtc_r; [apply tc_once; exact Hx|exact Hxp]. }
  destruct (ancestors_comparable c1 c2 j Hj1 Hj2) as [H|H]; [|symmetry]; eauto.
Qed.
End tree.

(** ** Rigid translation of a subtree *)

Lemma descendant_shape m m' a c : same_shape m m' → descendant m a c → descendant m' a c.
Proof.
  intros H. induction 1 as [x y Hc|x y z Hc _ IH].
  - apply tc_once. by eapply child_of_shape.
  - eapply tc_l; [|exact IH]. by eapply child_of_shape.
Qed.

Lemma forEach_prefix {S : Type} (I : list string → S → Prop)
    (body : string → S → option S) l s :
  I [] s →
  (∀ pre a post s0, l = pre ++ a :: post → I pre s0 →
     ∃ s1, body a s0 = Some s1 ∧ I (pre ++ [a]) s1) →
  ∃ s', forEach body l s = Some s' ∧ I l s'.
Proof.
  revert I s. induction l as [|a l IH]; intros I s H0 Hstep; [by exists s|].
  destruct (Hstep [] a l s eq_refl H0) as (s1 & E & H1).
  simpl. rewrite E.
  apply (IH (λ pre, I (a :: pre))); [done|].
  intros pre x post s0 -> Hpre. by apply (Hstep (a :: pre) x post).
Qed.

Lemma moveChildren_same_but_positions fuel k dx dy m m' :
  moveChildren fuel k dx dy m = Some m' → same_but_positions m m'.
Proof.
  revert k m m'. induction fuel as [|f IH]; intros k m m' E; [done|].
  cbn [moveChildren] in E.
  destruct (m !! k) as [b|] eqn:Hb; [|simplify_eq; apply same_but_positions_refl].
  revert E. apply (forEach_inv (λ m0, same_but_positions m m0));
    [apply same_but_positions_refl|].
  intros c m0 m2 _ H0 E. destruct (m0 !! c); [|by simplify_eq].
  eapply same_but_positions_trans; [exact H0|].
  eapply same_but_positions_trans; [|by eapply IH].
  by apply same_but_positions_alter.
Qed.

Lemma unplaced_translate dx dy b : unplaced (translate dx dy b) = unplaced b.
Proof. reflexivity. Qed.

Lemma child_descendant m k c j :
  child_of m k c → in_subtree m c j → descendant m k j.
Proof.
  intros Hc [->|Hd]; [by apply tc_once|]. eapply tc_l; [exact Hc|exact Hd].
Qed.

Lemma moveChildren_spec rank bound dx dy fuel k m b :
  inv ∅ rank bound m → m !! k = Some b → (bound ≤ fuel + rank k)%nat →
  ∃ m', moveChildren fuel k dx dy m = Some m'
    ∧ (∀ j, descendant m k j → m' !! j = translate dx dy <$> m !! j)
    ∧ (∀ j, ¬ descendant m k j → m' !! j = m !! j).
Proof.
  revert k m b. induction fuel as [|f IH]; intros k m b Hinv Hb Hfuel.
  { destruct (inv_ranked _ _ _ _ Hinv) as [Hlt _]. specialize (Hlt k b Hb). lia. }
  cbn [moveChildren]. rewrite Hb.
  set (region := λ (pre : list string) (j : string), ∃ c, c ∈ pre ∧ in_subtree m c j).
  destruct (forEach_prefix
    (λ pre m0, same_but_positions m m0
               ∧ (∀ j, region pre j → m0 !! j = translate dx dy <$> m !! j)
               ∧ (∀ j, ¬ region pre j → m0 !! j = m !! j))
    (λ childId m',
       match m' !! childId with
       | Some _ => moveChildren f childId dx dy (alter (translate dx dy) childId m')
       | None => Some m'
       end) (bone_children b) m) as (m' & E & _ & Hin & Hout).
  - split; [apply same_but_positions_refl|]. split; [|done].
    intros j (c & Hc & _). by inversion Hc.
  - intros pre a post m0 Hl (Hsb0 & Hin0 & Hout0).
    assert (child_of m k a) as Ha.
    { exists b. split; [done|]. rewrite Hl. apply elem_of_app. right. left. }
    assert (a ∉ pre) as Hapre.
    { pose proof (inv_nodup _ _ _ _ Hinv k b Hb) as Hnd. rewrite Hl in Hnd.
      apply NoDup_app in Hnd as (_ & Hnd & _). intros Hin'. apply (Hnd a Hin'). left. }
    assert (∀ c, c ∈ pre → child_of m k c) as Hpre.
    { intros c Hc. exists b. split; [done|]. rewrite Hl. apply elem_of_app. by left. }
    assert (∀ c j, c ∈ pre → in_subtree m c j → ¬ in_subtree m a j) as Hdisj.
    { intros c j Hc Hcj Haj. apply Hapre.
      by rewrite <- (siblings_disjoint rank bound m Hinv k c a j (Hpre c Hc) Ha Hcj Haj). }
    destruct (child_of_exists rank bound m Hinv k a Ha) as [ab Hab].
    assert (¬ region pre a) as Hnra.
    { intros (c & Hc & Hsub). eapply Hdisj; [exact Hc|exact Hsub|by left]. }
    assert (m0 !! a = Some ab) as Hab0 by (by rewrite Hout0).
    rewrite Hab0.
    set (m0' := alter (translate dx dy) a m0).
    assert (same_but_positions m m0') as Hsb0'.
    { eapply same_but_positions_trans; [exact Hsb0|].
      apply same_but_positions_alter. intros; apply unplaced_translate. }
    pose proof (same_but_positions_shape _ _ Hsb0') as Hshape.
    pose proof (inv_shape _ _ _ _ _ Hshape Hinv) as Hinv0'.
    assert (m0' !! a = Some (translate dx dy ab)) as Hab0'.
    { unfold m0'. rewrite lookup_alter, decide_True by done. by rewrite Hab0. }
    destruct (IH a m0' (translate dx dy ab) Hinv0' Hab0') as (m1 & E1 & Hin1 & Hout1).
    { pose proof (descendant_rank rank bound m Hinv k a (tc_once _ _ _ Ha)). lia. }
    assert (∀ j, descendant m0' a j → descendant m a j) as Hback.
    { intros j. apply descendant_shape. by apply same_shape_sym. }
    assert (∀ j, j ≠ a → m0' !! j = m0 !! j) as Hne.
    { intros j Hj. unfold m0'. by rewrite lookup_alter_ne. }
    exists m1. split; [done|]. split; [|split].
    + eapply same_but_positions_trans; [exact Hsb0'|].
      by eapply moveChildren_same_but_positions.
    + intros j (c & [Hc| ->%list_elem_of_singleton]%elem_of_app & Hsub).
      * assert (j ≠ a) as Hja.
        { intros ->. eapply Hdisj; [exact Hc|exact Hsub|by left]. }
        rewrite Hout1, Hne by (try done; intros Hd%Hback; eapply Hdisj; eauto; by right).
        apply Hin0. by exists c.
      * destruct Hsub as [->|Hd].
        -- rewrite Hout1 by apply (descendant_irrefl rank bound m0' Hinv0').
           rewrite Hab0'. by rewrite Hab.
        -- assert (j ≠ a) as Hja.
           { intros ->. by apply (descendant_irrefl rank bound m Hinv a). }
           rewrite Hin1 by (by eapply descendant_shape).
           rewrite Hne by done. f_equal. apply Hout0.
           intros (c & Hc & Hsub). eapply Hdisj; [exact Hc|exact Hsub|by right].
    + intros j Hnr.
      assert (¬ region pre j) as Hnr0.
      { intros (c & Hc & Hsub). apply Hnr. exists c. split; [|done].
        apply elem_of_app. by left. }
      assert (¬ in_subtree m a j) as Hnaj.
      { intros Hsub. apply Hnr. exists a. split; [|done].
        apply elem_of_app. right. by apply list_elem_of_singleton. }
      assert (j ≠ a) as Hja by (intros ->; apply Hnaj; by left).
      rewrite Hout1, Hne by (try done; intros Hd%Hback; apply Hnaj; by right).
      by apply Hout0.
  - exists m'. split; [done|]. split.
    + intros j Hd. apply Hin.
      destruct (descendant_inv_l m k j Hd) as (y & (b' & Hb' & Hy) & Hsub).
      exists y. split; [|done]. congruence.
    + intros j Hnd. apply Hout. intros (c & Hc & Hsub). apply Hnd.
      eapply child_descendant; [|exact Hsub]. by exists b.
Qed.

(** ** The operations return and keep the invariant *)

Lemma deleteBone_preserves rank bound fuel k st st' D :
  inv D rank bound (bones st) → deleteBone fuel k st = Some st' →
  inv D rank bound (bones st').
Proof.
  revert k st st' D. induction fuel as [|f IH]; intros k st st' D Hinv E; [done|].
  cbn [deleteBone] in E.
  destruct (bones st !! k) as [bone|] eqn:Hk; [|by simplify_eq].
  pose proof (detach_inv D rank bound _ k bone Hinv Hk) as Hinv1.
  fold (without k) in E.
  set (m1 := match truthy (bone_parentId bone) with
             | Some pid => alter (without k) pid (bones st)
             | None => bones st
             end) in *.
  destruct (forEach (deleteBone f) _ (set_bones m1 st)) as [st2|] eqn:E2; [|done].
  simplify_eq. simpl. apply delete_inv.
  revert E2. apply (forEach_inv (λ st0, inv (D ∪ {[k]}) rank bound (bones st0))); [done|].
  intros c st0 st1 _ H0 E0. by eapply IH.
Qed.

Lemma buildChain_total rank bound m fuel current chain :
  inv ∅ rank bound m → (1 ≤ fuel)%nat →
  (is_Some (m !! current) → (rank current + 1 < fuel)%nat) →
  ∃ pre, buildChain fuel current chain m = Some (pre ++ chain)
         ∧ (is_Some (m !! current) → last pre = Some current).
Proof.
  intros Hinv. revert current chain.
  induction fuel as [|f IH]; intros current chain H1 Hfuel; [lia|].
  cbn [buildChain]. destruct (m !! current) as [bone|] eqn:Hc.
  2:{ exists []. split; [done|]. by intros [? ?]. }
  specialize (Hfuel (mk_is_Some _ _ eq_refl)).
  destruct (truthy (bone_parentId bone)) as [pid|] eqn:Ht.
  2:{ exists [current]. split; [done|]. done. }
  apply truthy_Some in Ht as [Hp _].
  destruct (IH pid (current :: chain)) as (pre & E & _); [lia| |].
  - intros [pb Hpb].
    destruct (inv_parents _ _ _ _ Hinv current bone pid pb Hc Hp Hpb) as [Hin|HD];
      [|by apply not_elem_of_empty in HD].
    pose proof (ranked_child _ _ _ _ _ _ (inv_ranked _ _ _ _ Hinv) Hpb Hin). lia.
  - exists (pre ++ [current]). rewrite <- app_assoc. split; [done|].
    intros _. by rewrite last_snoc.
Qed.

Lemma shape_set_angle a b : shape (set_angle a b) = shape b.
Proof. reflexivity. Qed.

Lemma ccdJoint_total rank bound fuel chain target j m :
  ranked rank bound m → (bound ≤ fuel)%nat →
  ∃ r m', ccdJoint fuel chain target j m = Some (r, m')
    ∧ same_shape m m'
    ∧ (r = true → ∃ e, getChainEnd chain m' = Some e
                       ∧ (distance e target < ikTolerance)%R).
Proof.
  intros Hrk Hfuel. unfold ccdJoint.
  destruct (m !! j) as [cur|] eqn:Hj.
  2:{ exists false, m. split; [done|]. split; [apply same_shape_refl|done]. }
  destruct (getChainEnd chain m) as [e|] eqn:He.
  2:{ exists false, m. split; [done|]. split; [apply same_shape_refl|done]. }
  destruct (Rlt_dec (distance e target) ikTolerance) as [Hlt|Hge].
  { exists true, m. split; [done|]. split; [apply same_shape_refl|]. eauto. }
  set (m1 := alter (λ b, set_angle (bone_angle b + angleDiff cur e target) b) j m).
  assert (same_shape m m1) as H1 by (apply same_shape_alter; intros; apply shape_set_angle).
  destruct (updateBonePosition_spec rank bound fuel j m1
              (set_angle (bone_angle cur + angleDiff cur e target) cur)) as (m2 & E & H2).
  - by eapply ranked_shape.
  - unfold m1. rewrite lookup_alter, decide_True by done. by rewrite Hj.
  - lia.
  - rewrite E. exists false, m2. split; [done|]. split; [|done].
    eapply same_shape_trans; [exact H1|]. by apply same_but_positions_shape.
Qed.

Lemma ccdPass_total rank bound fuel chain target joints m :
  ranked rank bound m → (bound ≤ fuel)%nat →
  ∃ r m', ccdPass fuel chain target joints m = Some (r, m')
    ∧ same_shape m m'
    ∧ (r = true → ∃ e, getChainEnd chain m' = Some e
                       ∧ (distance e target < ikTolerance)%R).
Proof.
  intros Hrk Hfuel. revert m Hrk.
  induction joints as [|j joints IH]; intros m Hrk.
  { exists false, m. split; [done|]. split; [apply same_shape_refl|done]. }
  cbn [ccdPass].
  destruct (ccdJoint_total rank bound fuel chain target j m Hrk Hfuel)
    as ([|] & m1 & E & Hs & Hr); rewrite E.
  - exists true, m1. done.
  - destruct (IH m1) as (r & m2 & E2 & Hs2 & Hr2); [by eapply ranked_shape|].
    exists r, m2. split; [done|]. split; [|done]. by eapply same_shape_trans.
Qed.

Lemma ccdIterations_total rank bound fuel chain target n m :
  ranked rank bound m → (bound ≤ fuel)%nat →
  ∃ r m', ccdIterations fuel chain target n m = Some (r, m')
    ∧ same_shape m m'
    ∧ (r = true → ∃ e, getChainEnd chain m' = Some e
                       ∧ (distance e target < ikTolerance)%R).
Proof.
  intros Hrk Hfuel. revert m Hrk.
  induction n as [|n IH]; intros m Hrk.
  { exists false, m. split; [done|]. split; [apply same_shape_refl|done]. }
  cbn [ccdIterations].
  destruct (ccdPass_total rank bound fuel chain target (rev chain) m Hrk Hfuel)
    as ([|] & m1 & E & Hs & Hr); rewrite E.
  - exists true, m1. done.
  - destruct (IH m1) as (r & m2 & E2 & Hs2 & Hr2); [by eapply ranked_shape|].
    exists r, m2. split; [done|]. split; [|done]. by eapply same_shape_trans.
Qed.

Lemma solveIK_outcome_total rank bound fuel boneId target st :
  inv ∅ rank bound (bones st) → (bound + 1 ≤ fuel)%nat →
  ∃ r st', solveIK_outcome fuel boneId target st = Some (r, st')
    ∧ same_shape (bones st) (bones st')
    ∧ selectedBoneId st' = selectedBoneId st
    ∧ (r = true → ∃ e, endEffectorOf boneId st' = Some e
                       ∧ (distance e target < ikTolerance)%R).
Proof.
  intros Hinv Hfuel. unfold solveIK_outcome.
  destruct (bones st !! boneId) as [b|] eqn:Hb.
  2:{ exists false, st. split; [done|]. split; [apply same_shape_refl|done]. }
  destruct (buildChain_total rank bound (bones st) fuel boneId [] Hinv) as (pre & E & Hlast);
    [lia| |].
  { intros _. destruct (inv_ranked _ _ _ _ Hinv) as [Hlt _]. specialize (Hlt _ _ Hb). lia. }
  rewrite E, app_nil_r.
  destruct (ccdIterations_total rank bound fuel pre target ikIterations (bones st))
    as (r & m' & E' & Hs & Hr); [by apply (inv_ranked _ _ _ _ Hinv)|lia|].
  rewrite E'. exists r, (set_bones m' st). split; [done|]. split; [done|]. split; [done|].
  intros Hrt. destruct (Hr Hrt) as (e & He & Hd). exists e. split; [|done].
  unfold getChainEnd in He. rewrite Hlast in He by eauto. done.
Qed.

Lemma ccdJoint_shape fuel chain target j m r m' :
  ccdJoint fuel chain target j m = Some (r, m') → same_shape m m'.
Proof.
  unfold ccdJoint. intros E.
  destruct (m !! j) as [cur|]; [|simplify_eq; apply same_shape_refl].
  destruct (getChainEnd chain m) as [e|]; [|simplify_eq; apply same_shape_refl].
  destruct (Rlt_dec (distance e target) ikTolerance); [simplify_eq; apply same_shape_refl|].
  destruct (updateBonePosition fuel j _) as [m2|] eqn:E2; [|done]. simplify_eq.
  eapply same_shape_trans; [|apply same_but_positions_shape;
                                by eapply updateBonePosition_same_but_positions].
  apply same_shape_alter; intros; apply shape_set_angle.
Qed.

Lemma ccdPass_shape fuel chain target joints m r m' :
  ccdPass fuel chain target joints m = Some (r, m') → same_shape m m'.
Proof.
  revert m. induction joints as [|j joints IH]; intros m E; cbn [ccdPass] in E.
  { simplify_eq. apply same_shape_refl. }
  destruct (ccdJoint fuel chain target j m) as [[[|] m1]|] eqn:E1; [| |done].
  - simplify_eq. by eapply ccdJoint_shape.
  - eapply same_shape_trans; [by eapply ccdJoint_shape|by apply IH].
Qed.

Lemma ccdIterations_shape fuel chain target n m r m' :
  ccdIterations fuel chain target n m = Some (r, m') → same_shape m m'.
Proof.
  revert m. induction n as [|n IH]; intros m E; cbn [ccdIterations] in E.
  { simplify_eq. apply same_shape_refl. }
  destruct (ccdPass fuel chain target (rev chain) m) as [[[|] m1]|] eqn:E1; [| |done].
  - simplify_eq. by eapply ccdPass_shape.
  - eapply same_shape_trans; [by eapply ccdPass_shape|by apply IH].
Qed.

Lemma solveIK_shape fuel boneId target st st' :
  solveIK fuel boneId target st = Some st' → same_shape (bones st) (bones st').
Proof.
  unfold solveIK, solveIK_outcome. intros E.
  destruct (bones st !! boneId);
    [|cbn [fmap option_fmap option_map snd] in E; simplify_eq; apply same_shape_refl].
  destruct (buildChain fuel boneId [] (bones st)) as [chain|]; [|done].
  destruct (ccdIterations fuel chain target ikIterations (bones st)) as [[r m]|] eqn:E1;
    [|done].
  cbn [fmap option_fmap option_map snd] in E. simplify_eq. cbn [bones set_bones].
  by eapply ccdIterations_shape.
Qed.

Lemma createBone_wf id name x y len angle type parentId st :
  wf (bones st) → fresh_id id parentId st →
  wf (bones (fst (createBone id name x y len angle type parentId st))).
Proof.
  intros (rank & bound & Hinv) (Hne & Hnone & Hpid & Hnopar).
  unfold createBone. cbn [fst bones set_bones].
  destruct (truthy parentId) as [pid|] eqn:Ht.
  - apply truthy_Some in Ht as [-> Hpne].
    assert (pid ≠ id) as Hpi by congruence.
    rewrite lookup_insert_ne by done.
    destruct (bones st !! pid) as [pb|] eqn:Hpb.
    + exists (λ k, if decide (k = id) then S (rank pid) else rank k), (S bound).
      eapply inv_shape; [apply same_shape_alter; intros; reflexivity|].
      by eapply insert_child_inv.
    + exists (λ k, if decide (k = id) then O else rank k), (S bound).
      apply insert_root_inv; try done.
      intros p [= <-]. done.
  - exists (λ k, if decide (k = id) then O else rank k), (S bound).
    apply insert_root_inv; try done.
    intros p Hp. cbn in Hp. subst parentId. apply truthy_None_Some in Ht as ->.
    split; [apply (inv_nonempty _ _ _ _ Hinv)|done].
Qed.

Lemma exec_wf fuel op st st' :
  wf (bones st) → valid_op op st → exec fuel op st = Some st' → wf (bones st').
Proof.
  intros Hwf Hvalid E. destruct op; cbn [exec valid_op] in *.
  - simplify_eq. by apply createBone_wf.
  - destruct Hwf as (rank & bound & Hinv). exists rank, bound.
    by eapply deleteBone_preserves.
  - destruct Hwf as (rank & bound & Hinv). exists rank, bound.
    unfold moveBone in E. destruct (bones st !! boneId); [|by simplify_eq].
    destruct (moveChildren fuel boneId _ _ _) as [m|] eqn:E1; [|done]. simplify_eq.
    eapply inv_shape; [|exact Hinv]. cbn [bones set_bones].
    apply (same_shape_trans _ (alter (set_position position) boneId (bones st)));
      [apply same_shape_alter; intros; reflexivity|].
    apply same_but_positions_shape. by eapply moveChildren_same_but_positions.
  - destruct Hwf as (rank & bound & Hinv). exists rank, bound.
    unfold setBoneAngle in E. destruct (bones st !! boneId); [|by simplify_eq].
    destruct (updateBonePosition fuel boneId _) as [m|] eqn:E1; [|done]. simplify_eq.
    eapply inv_shape; [|exact Hinv]. cbn [bones set_bones].
    apply (same_shape_trans _ (alter (set_angle angle) boneId (bones st)));
      [apply same_shape_alter; intros; reflexivity|].
    apply same_but_positions_shape. by eapply updateBonePosition_same_but_positions.
  - destruct Hwf as (rank & bound & Hinv). exists rank, bound.
    eapply inv_shape; [|exact Hinv]. by eapply solveIK_shape.
  - destruct Hwf as (rank & bound & Hinv). exists rank, bound. simplify_eq.
    eapply inv_shape; [|exact Hinv]. unfold selectBone. cbn [bones].
    eapply same_shape_trans.
    + instantiate (1 := match truthy (selectedBoneId st) with
                        | Some prev => alter (set_isSelected false) prev (bones st)
                        | None => bones st
                        end).
      destruct (truthy (selectedBoneId st)); [|apply same_shape_refl].
      apply same_shape_alter; intros; reflexivity.
    + destruct (truthy boneId); [|apply same_shape_refl].
      apply same_shape_alter; intros; reflexivity.
Qed.

Lemma empty_wf : wf (bones empty).
Proof.
  exists (λ _, O), O. split; try done.
  split; [done|]. intros a c (b & Hb & _). done.
Qed.

Lemma reachable_wf st : reachable st → wf (bones st).
Proof.
  induction 1 as [|st op fuel st' _ IH Hvalid E]; [apply empty_wf|].
  by eapply exec_wf.
Qed.

Lemma exec_total op st :
  wf (bones st) → ∃ N, ∀ fuel, (N ≤ fuel)%nat → is_Some (exec fuel op st).
Proof.
  intros (rank & bound & Hinv). exists (S bound). intros fuel Hfuel.
  destruct op; cbn [exec]; [done| | | | |done].
  - destruct (deleteBone_inv rank bound fuel boneId st ∅ Hinv) as (st' & -> & _);
      [lia|lia|done].
  - unfold moveBone. destruct (bones st !! boneId) as [b|] eqn:Hb; [|done].
    destruct (moveChildren_spec rank bound (vx position - bone_x b) (vy position - bone_y b)
                fuel boneId (alter (set_position position) boneId (bones st))
                (set_position position b)) as (m' & -> & _); [| |lia|done].
    + eapply inv_shape; [|exact Hinv]. apply same_shape_alter; intros; reflexivity.
    + rewrite lookup_alter, decide_True by done. by rewrite Hb.
  - unfold setBoneAngle. destruct (bones st !! boneId) as [b|] eqn:Hb; [|done].
    destruct (updateBonePosition_spec rank bound fuel boneId
                (alter (set_angle angle) boneId (bones st)) (set_angle angle b))
      as (m' & -> & _); [| |lia|done].
    + eapply ranked_shape; [|apply (inv_ranked _ _ _ _ Hinv)].
      apply same_shape_alter; intros; reflexivity.
    + rewrite lookup_alter, decide_True by done. by rewrite Hb.
  - unfold solveIK.
    destruct (solveIK_outcome_total rank bound fuel boneId target st Hinv)
      as (r & st' & -> & _); [lia|done].
Qed.

(** ** Reachable example states *)

Lemma arm_root_valid : valid_op (OpCreateBone "bone_a" "arm" 0 0 1 0 IK None) empty.
Proof.
  split; [done|]. split; [done|]. split; [done|]. intros k b Hk. done.
Qed.

Lemma arm_chain_valid :
  valid_op (OpCreateBone "bone_b" "forearm" 0 0 1 0 IK (Some "bone_a")) arm_root.
Proof.
  split; [done|]. split; [done|]. split; [done|].
  intros k b Hk. unfold arm_root, createBone in Hk.
  cbn [fst bones set_bones truthy empty] in Hk.
  apply lookup_insert_Some in Hk as [[_ <-]|[_ Hk]]; done.
Qed.

Lemma orphan_valid :
  valid_op (OpCreateBone "bone_1" "arm" 0 0 50 0 FK (Some "ghost")) empty.
Proof.
  split; [done|]. split; [done|]. split; [done|]. intros k b Hk. done.
Qed.

Lemma arm_root_reachable : reachable arm_root.
Proof.
  exact (reachable_step empty _ 0 _ reachable_empty arm_root_valid eq_refl).
Qed.

Lemma arm_chain_reachable : reachable arm_chain.
Proof.
  exact (reachable_step arm_root _ 0 _ arm_root_reachable arm_chain_valid eq_refl).
Qed.

Lemma orphan_reachable : reachable orphan.
Proof.
  exact (reachable_step empty _ 0 _ reachable_empty orphan_valid eq_refl).
Qed.

(** C3 fails as stated: a bone created with a [parentId] that names no
    bone keeps that [parentId], so its parent is set and does not
    exist. *)
Lemma dangling_parent_is_kept :
  reachable orphan ∧ ¬ parents_list_child (bones orphan).
Proof.
  split; [apply orphan_reachable|].
  intros H.
  destruct (H "bone_1" (set_children [] (mkBone "bone_1" "arm" 0 0 50 0 "#00ff88" 3
                                           (Some "ghost") [] FK false)) "ghost")
    as (pb & Hpb & _); [reflexivity|reflexivity|].
  vm_compute in Hpb. discriminate.
Qed.

(** C3 (amended): in every state reached from the empty hierarchy by
    [createBone] (with a freshly generated id), [deleteBone], [moveBone],
    [setBoneAngle], [solveIK] and [selectBone], every id in [b.children]
    names an existing bone whose [parentId] is [b.id], and every bone
    whose [parentId] names an existing bone is in the [children] of that
    bone; every further operation returns (given enough fuel) and leads to
    such a state again. *)
Theorem hierarchy_links_consistent st :
  reachable st →
  children_point_back (bones st)
  ∧ resolved_parents_list_child (bones st)
  ∧ (∀ op, valid_op op st →
       ∃ N, ∀ fuel, (N ≤ fuel)%nat →
         ∃ st', exec fuel op st = Some st' ∧ reachable st').
Proof.
  intros Hreach. pose proof (reachable_wf st Hreach) as Hwf.
  destruct (Hwf) as (rank & bound & Hinv).
  split; [|split].
  - intros k b c Hb Hc. rewrite (inv_key _ _ _ _ Hinv k b Hb).
    by apply (inv_children _ _ _ _ Hinv k b c).
  - intros k b p pb Hb Hp Hpb. rewrite (inv_key _ _ _ _ Hinv k b Hb).
    destruct (inv_parents _ _ _ _ Hinv k b p pb Hb Hp Hpb) as [?|HD]; [done|].
    by apply not_elem_of_empty in HD.
  - intros op Hvalid. destruct (exec_total op st Hwf) as (N & HN).
    exists N. intros fuel Hfuel. destruct (HN fuel Hfuel) as [st' E].
    exists st'. split; [done|]. by eapply reachable_step.
Qed.

(** The two-bone chain is reached by two [createBone] calls. *)
Lemma hierarchy_links_consistent_witness :
  children_point_back (bones arm_chain).
Proof.
  apply (hierarchy_links_consistent arm_chain).
  apply (reachable_step arm_root
           (OpCreateBone "bone_b" "forearm" 0 0 1 0 IK (Some "bone_a")) 0);
    [|apply arm_chain_valid|reflexivity].
  apply (reachable_step empty (OpCreateBone "bone_a" "arm" 0 0 1 0 IK None) 0);
    [apply reachable_empty|apply arm_root_valid|reflexivity].
Defined.

(** ** [moveBone] *)

Lemma set_position_translate position b :
  set_position position b =
  translate (vx position - bone_x b) (vy position - bone_y b) b.
Proof.
  unfold translate, set_position. cbn [vx vy]. f_equal; lra.
Qed.

Lemma unplaced_same_but_position b b' :
  unplaced b = unplaced b' → same_but_position b b'.
Proof.
  destruct b, b'. unfold unplaced, same_but_position, set_position. cbn.
  intros [= -> -> -> -> -> -> -> -> -> ->]. done.
Qed.

(** C8 (amended): in a state reached by the operations,
    [moveBone(b.id, position)] on an existing bone [b] returns (given
    enough fuel); it computes [dx = position.x - b.x] and
    [dy = position.y - b.y] once, from the old position of [b], sets the
    cached position of [b] to [position] and replaces the cached position
    [(x, y)] of every descendant, once, by [(x + dx, y + dy)]; bones
    outside the subtree are untouched and no field other than the
    position of any bone changes. *)
Theorem moveBone_translates_subtree st boneId position bone :
  reachable st → bones st !! boneId = Some bone →
  let dx := (vx position - bone_x bone)%R in
  let dy := (vy position - bone_y bone)%R in
  ∃ N, ∀ fuel, (N ≤ fuel)%nat →
    ∃ st', moveBone fuel boneId position st = Some st'
      ∧ selectedBoneId st' = selectedBoneId st
      ∧ bones st' !! boneId = Some (set_position position bone)
      ∧ (∀ k b, bones st !! k = Some b → descendant (bones st) boneId k →
           bones st' !! k =
             Some (set_position {| vx := bone_x b + dx; vy := bone_y b + dy |} b))
      ∧ (∀ k, ¬ in_subtree (bones st) boneId k → bones st' !! k = bones st !! k)
      ∧ (∀ k b', bones st' !! k = Some b' →
           ∃ b, bones st !! k = Some b ∧ same_but_position b b').
Proof.
  intros Hreach Hb dx dy.
  destruct (reachable_wf st Hreach) as (rank & bound & Hinv).
  exists bound. intros fuel Hfuel. unfold moveBone. rewrite Hb. fold dx dy.
  set (m1 := alter (set_position position) boneId (bones st)).
  assert (same_but_positions (bones st) m1) as Hsb
    by (apply same_but_positions_alter; intros; reflexivity).
  pose proof (same_but_positions_shape _ _ Hsb) as Hshape.
  pose proof (inv_shape _ _ _ _ _ Hshape Hinv) as Hinv1.
  assert (m1 !! boneId = Some (set_position position bone)) as Hb1.
  { unfold m1. rewrite lookup_alter, decide_True by done. by rewrite Hb. }
  destruct (moveChildren_spec rank bound dx dy fuel boneId m1 _ Hinv1 Hb1)
    as (m' & E & Hin & Hout); [lia|].
  rewrite E. exists (set_bones m' st). split; [done|]. split; [done|].
  cbn [bones set_bones].
  assert (∀ k, descendant m1 boneId k → descendant (bones st) boneId k) as Hback.
  { intros k. apply descendant_shape. by apply same_shape_sym. }
  assert (∀ k, k ≠ boneId → m1 !! k = bones st !! k) as Hne.
  { intros k Hk. unfold m1. by rewrite lookup_alter_ne. }
  split; [|split; [|split]].
  - rewrite Hout by apply (descendant_irrefl rank bound m1 Hinv1). exact Hb1.
  - intros k b Hk Hd.
    assert (k ≠ boneId) as Hkb.
    { intros ->. by apply (descendant_irrefl rank bound _ Hinv boneId). }
    rewrite Hin by (by eapply descendant_shape).
    rewrite Hne by done. by rewrite Hk.
  - intros k Hk.
    assert (k ≠ boneId) as Hkb by (intros ->; apply Hk; by left).
    rewrite Hout, Hne; [done|done|]. intros Hd%Hback. apply Hk. by right.
  - intros k b' Hk'.
    pose proof (same_but_positions_trans _ _ _ Hsb
                  (moveChildren_same_but_positions _ _ _ _ _ _ E) k) as Hk.
    rewrite Hk' in Hk. destruct (bones st !! k) as [b|]; [|done].
    exists b. split; [done|]. apply unplaced_same_but_position.
    cbn in Hk. congruence.
Qed.

(** Moving the root of the two-bone chain from (0, 0) to (3, 4): the
    root is at (3, 4) and its child, which was at the end of the root, is
    shifted by (3 - 0, 4 - 0). *)
Lemma moveBone_translates_subtree_witness :
  ∃ N, ∀ fuel, (N ≤ fuel)%nat →
    ∃ st', moveBone fuel "bone_a" {| vx := 3; vy := 4 |} arm_chain = Some st'
      ∧ bones st' !! "bone_a" =
          Some (mkBone "bone_a" "arm" 3 4 1 0 "#00ff88" 3 None ["bone_b"] IK false)
      ∧ bones st' !! "bone_b" =
          Some (mkBone "bone_b" "forearm"
                  (0 + cos 0 * 1 + (3 - 0)) (0 + sin 0 * 1 + (4 - 0)) 1 0
                  "#00ff88" 3 (Some "bone_a") [] IK false).
Proof.
  destruct (moveBone_translates_subtree arm_chain "bone_a" {| vx := 3; vy := 4 |}
              (set_children ["bone_b"]
                 (mkBone "bone_a" "arm" 0 0 1 0 "#00ff88" 3 None [] IK false)))
    as (N & HN).
  - apply (reachable_step arm_root
             (OpCreateBone "bone_b" "forearm" 0 0 1 0 IK (Some "bone_a")) 0);
      [|apply arm_chain_valid|reflexivity].
    apply (reachable_step empty (OpCreateBone "bone_a" "arm" 0 0 1 0 IK None) 0);
      [apply reachable_empty|apply arm_root_valid|reflexivity].
  - reflexivity.
  - exists N. intros fuel Hfuel.
    destruct (HN fuel Hfuel) as (st' & E & _ & Hroot & Hdesc & _).
    exists st'. split; [exact E|]. split; [exact Hroot|].
    apply (Hdesc "bone_b"
             (set_position
                (getBoneEnd (mkBone "bone_a" "arm" 0 0 1 0 "#00ff88" 3 None [] IK false))
                (mkBone "bone_b" "forearm" 0 0 1 0 "#00ff88" 3 (Some "bone_a") [] IK false)));
      [reflexivity|].
    apply tc_once. eexists. split; [reflexivity|]. cbn. set_solver.
Defined.

(** X26: with numbers as reals the shift [position - b.position] of the
    bone is the [(dx, dy)] that its descendants get: in a state reached by the
    operations, [moveBone(b.id, position)] on an existing bone [b] returns
    (given enough fuel) and shifts the cached position of [b] and of every
    descendant by the same [(dx, dy) = position - b.position]; bones
    outside the subtree are untouched, no field other than the position
    of any bone changes, and the offset between any two bones of the
    subtree is what it was. *)
Theorem moveBone_rigid st boneId position bone :
  reachable st → bones st !! boneId = Some bone →
  let dx := (vx position - bone_x bone)%R in
  let dy := (vy position - bone_y bone)%R in
  ∃ N, ∀ fuel, (N ≤ fuel)%nat →
    ∃ st', moveBone fuel boneId position st = Some st'
      ∧ selectedBoneId st' = selectedBoneId st
      ∧ (∀ k b, bones st !! k = Some b → in_subtree (bones st) boneId k →
           bones st' !! k = Some (translate dx dy b))
      ∧ (∀ k, ¬ in_subtree (bones st) boneId k → bones st' !! k = bones st !! k)
      ∧ (∀ k b', bones st' !! k = Some b' →
           ∃ b, bones st !! k = Some b ∧ same_but_position b b')
      ∧ (∀ k1 k2 b1 b2 b1' b2',
           in_subtree (bones st) boneId k1 → in_subtree (bones st) boneId k2 →
           bones st !! k1 = Some b1 → bones st !! k2 = Some b2 →
           bones st' !! k1 = Some b1' → bones st' !! k2 = Some b2' →
           (bone_x b1' - bone_x b2' = bone_x b1 - bone_x b2)%R
           ∧ (bone_y b1' - bone_y b2' = bone_y b1 - bone_y b2)%R).
Proof.
  intros Hreach Hb dx dy.
  destruct (reachable_wf st Hreach) as (rank & bound & Hinv).
  exists bound. intros fuel Hfuel. unfold moveBone. rewrite Hb. fold dx dy.
  set (m1 := alter (set_position position) boneId (bones st)).
  assert (same_but_positions (bones st) m1) as Hsb
    by (apply same_but_positions_alter; intros; reflexivity).
  pose proof (same_but_positions_shape _ _ Hsb) as Hshape.
  pose proof (inv_shape _ _ _ _ _ Hshape Hinv) as Hinv1.
  assert (m1 !! boneId = Some (set_position position bone)) as Hb1.
  { unfold m1. rewrite lookup_alter, decide_True by done. by rewrite Hb. }
  destruct (moveChildren_spec rank bound dx dy fuel boneId m1 _ Hinv1 Hb1)
    as (m' & E & Hin & Hout); [lia|].
  rewrite E. exists (set_bones m' st). split; [done|]. split; [done|].
  cbn [bones set_bones].
  assert (∀ k, descendant m1 boneId k → descendant (bones st) boneId k) as Hback.
  { intros k. apply descendant_shape. by apply same_shape_sym. }
  assert (∀ k, k ≠ boneId → m1 !! k = bones st !! k) as Hne.
  { intros k Hk. unfold m1. by rewrite lookup_alter_ne. }
  assert (∀ k b, bones st !! k = Some b → in_subtree (bones st) boneId k →
            m' !! k = Some (translate dx dy b)) as Hsub.
  { intros k b Hk [->|Hd].
    - rewrite Hout by apply (descendant_irrefl rank bound m1 Hinv1).
      rewrite Hb1. simplify_eq. by rewrite set_position_translate.
    - assert (k ≠ boneId) as Hkb.
      { intros ->. by apply (descendant_irrefl rank bound _ Hinv boneId). }
      rewrite Hin by (by eapply descendant_shape).
      rewrite Hne by done. by rewrite Hk. }
  assert (∀ k, ¬ in_subtree (bones st) boneId k → m' !! k = bones st !! k) as Hrest.
  { intros k Hk.
    assert (k ≠ boneId) as Hkb by (intros ->; apply Hk; by left).
    rewrite Hout, Hne; [done|done|]. intros Hd%Hback. apply Hk. by right. }
  split; [done|]. split; [done|]. split.
  - intros k b' Hk'.
    pose proof (same_but_positions_trans _ _ _ Hsb
                  (moveChildren_same_but_positions _ _ _ _ _ _ E) k) as Hk.
    rewrite Hk' in Hk. destruct (bones st !! k) as [b|]; [|done].
    exists b. split; [done|]. apply unplaced_same_but_position.
    cbn in Hk. congruence.
  - intros k1 k2 b1 b2 b1' b2' H1 H2 E1 E2 E1' E2'.
    rewrite (Hsub k1 b1 E1 H1) in E1'. rewrite (Hsub k2 b2 E2 H2) in E2'.
    simplify_eq. cbn. lra.
Qed.

(** Moving the root of the two-bone chain from (0, 0) to (3, 4) shifts
    the root and its child by (3 - 0, 4 - 0). *)
Lemma moveBone_rigid_witness :
  ∃ N, ∀ fuel, (N ≤ fuel)%nat →
    ∃ st', moveBone fuel "bone_a" {| vx := 3; vy := 4 |} arm_chain = Some st'
      ∧ bones st' !! "bone_a" =
          Some (translate (3 - 0) (4 - 0)
                  (mkBone "bone_a" "arm" 0 0 1 0 "#00ff88" 3 None ["bone_b"] IK false))
      ∧ bones st' !! "bone_b" =
          Some (translate (3 - 0) (4 - 0)
                  (mkBone "bone_b" "forearm" (0 + cos 0 * 1) (0 + sin 0 * 1) 1 0
                     "#00ff88" 3 (Some "bone_a") [] IK false)).
Proof.
  destruct (moveBone_rigid arm_chain "bone_a" {| vx := 3; vy := 4 |}
              (set_children ["bone_b"]
                 (mkBone "bone_a" "arm" 0 0 1 0 "#00ff88" 3 None [] IK false)))
    as (N & HN).
  - apply (reachable_step arm_root
             (OpCreateBone "bone_b" "forearm" 0 0 1 0 IK (Some "bone_a")) 0);
      [|apply arm_chain_valid|reflexivity].
    apply (reachable_step empty (OpCreateBone "bone_a" "arm" 0 0 1 0 IK None) 0);
      [apply reachable_empty|apply arm_root_valid|reflexivity].
  - reflexivity.
  - exists N. intros fuel Hfuel.
    destruct (HN fuel Hfuel) as (st' & E & _ & Hsub & _).
    exists st'. split; [exact E|]. split.
    + apply (Hsub "bone_a"); [reflexivity|by left].
    + apply (Hsub "bone_b"); [reflexivity|]. right.
      apply tc_once. eexists. split; [reflexivity|]. cbn. set_solver.
Defined.

(** ** Vectors and angles *)

Lemma hypot_x_0 a : hypot a 0 = Rabs a.
Proof.
  unfold hypot. replace (a * a + 0 * 0) with (Rsqr a) by (unfold Rsqr; lra).
  apply sqrt_Rsqr_abs.
Qed.

Lemma hypot_0_0 : hypot 0 0 = 0.
Proof. rewrite hypot_x_0. apply Rabs_R0. Qed.

Lemma hypot_sqr a b : hypot a b * hypot a b = a * a + b * b.
Proof. unfold hypot. apply sqrt_sqrt. nra. Qed.

Lemma hypot_pos a b : a ≠ 0 ∨ b ≠ 0 → (0 < hypot a b).
Proof.
  intros H. unfold hypot. apply sqrt_lt_R0.
  destruct H as [H|H]; apply Rsqr_pos_lt in H; unfold Rsqr in H; nra.
Qed.

Lemma normalize_zero v : vx v = 0 → vy v = 0 → normalize v = {| vx := 0; vy := 0 |}.
Proof.
  intros Hx Hy. unfold normalize. rewrite Hx, Hy, hypot_0_0.
  destruct (Rlt_dec 0 0); [lra|done].
Qed.

Lemma normalize_unit v :
  0 < hypot (vx v) (vy v) →
  hypot (vx (normalize v)) (vy (normalize v)) = 1.
Proof.
  intros Hpos. unfold normalize. destruct (Rlt_dec 0 (hypot (vx v) (vy v))); [|done].
  cbn [vx vy]. pose proof (hypot_sqr (vx v) (vy v)) as Hs.
  set (l := hypot (vx v) (vy v)) in *.
  unfold hypot at 1.
  replace (vx v / l * (vx v / l) + vy v / l * (vy v / l)) with 1.
  - apply sqrt_1.
  - replace (vx v / l * (vx v / l) + vy v / l * (vy v / l))
      with ((vx v * vx v + vy v * vy v) / (l * l)) by (field; lra).
    rewrite <- Hs. field. lra.
Qed.

Lemma normalize_along_x a : 0 < a → normalize {| vx := a; vy := 0 |} = {| vx := 1; vy := 0 |}.
Proof.
  intros Ha. unfold normalize. cbn [vx vy]. rewrite hypot_x_0, Rabs_right by lra.
  destruct (Rlt_dec 0 a); [|done]. f_equal; field; lra.
Qed.

Lemma atan2_0_0 : atan2 0 0 = 0.
Proof.
  unfold atan2. repeat (destruct (Rlt_dec _ _); try lra).
Qed.

Lemma atan2_0_pos x : 0 < x → atan2 0 x = 0.
Proof.
  intros Hx. unfold atan2. destruct (Rlt_dec 0 x); [|done].
  replace (0 / x) with 0 by (field; lra). apply atan_0.
Qed.

Lemma angleDiff_at_target cur e target :
  vx target = bone_x cur → vy target = bone_y cur → angleDiff cur e target = 0.
Proof.
  intros Hx Hy. unfold angleDiff.
  rewrite (normalize_zero {| vx := vx target - bone_x cur; vy := vy target - bone_y cur |})
    by (cbn; lra).
  cbn [vx vy].
  match goal with |- atan2 ?c ?d = _ => replace c with 0 by lra; replace d with 0 by lra end.
  apply atan2_0_0.
Qed.

Lemma angleDiff_at_end cur e target :
  vx e = bone_x cur → vy e = bone_y cur → angleDiff cur e target = 0.
Proof.
  intros Hx Hy. unfold angleDiff.
  rewrite (normalize_zero {| vx := vx e - bone_x cur; vy := vy e - bone_y cur |})
    by (cbn; lra).
  cbn [vx vy].
  match goal with |- atan2 ?c ?d = _ => replace c with 0 by lra; replace d with 0 by lra end.
  apply atan2_0_0.
Qed.

Lemma angleDiff_along_x cur e target :
  vy e = bone_y cur → vy target = bone_y cur →
  bone_x cur < vx e → bone_x cur < vx target →
  angleDiff cur e target = 0.
Proof.
  intros Hye Hyt Hxe Hxt. unfold angleDiff.
  replace (vy target - bone_y cur) with 0 by lra.
  replace (vy e - bone_y cur) with 0 by lra.
  rewrite !normalize_along_x by lra. cbn [vx vy].
  replace (1 * 0 - 0 * 1) with 0 by lra. replace (1 * 1 + 0 * 0) with 1 by lra.
  apply atan2_0_pos. lra.
Qed.

(** ** The solver on the straight two-bone chain *)

Lemma arm_lookup_a : arm_bones !! "bone_a" = Some arm_a.
Proof. reflexivity. Qed.

Lemma arm_lookup_b : arm_bones !! "bone_b" = Some arm_b.
Proof. reflexivity. Qed.

Lemma getBoneEnd_arm_a : getBoneEnd arm_a = {| vx := 1; vy := 0 |}.
Proof. unfold getBoneEnd, arm_a. cbn. rewrite cos_0, sin_0. f_equal; lra. Qed.

Lemma getBoneEnd_arm_b : getBoneEnd arm_b = {| vx := 2; vy := 0 |}.
Proof. unfold getBoneEnd, arm_b. cbn. rewrite cos_0, sin_0. f_equal; lra. Qed.

Lemma arm_chain_bones : bones arm_chain = arm_bones.
Proof.
  change (bones arm_chain) with
    (alter (set_position (getBoneEnd
              (mkBone "bone_a" "arm" 0 0 1 0 "#00ff88" 3 None [] IK false))) "bone_b"
       (alter (λ p, set_children (bone_children p ++ ["bone_b"]) p) "bone_a"
          (<["bone_b" := mkBone "bone_b" "forearm" 0 0 1 0 "#00ff88" 3
                           (Some "bone_a") [] IK false]>
             (<["bone_a" := mkBone "bone_a" "arm" 0 0 1 0 "#00ff88" 3 None [] IK false]>
                (∅ : gmap string BoneData))))).
  apply map_eq. intros k. unfold arm_bones.
  destruct (decide (k = "bone_b")) as [->|Hb].
  - rewrite lookup_alter_eq, lookup_alter_ne, !lookup_insert_eq by done.
    cbn. unfold set_position, getBoneEnd, arm_b. cbn. rewrite cos_0, sin_0.
    do 2 f_equal; lra.
  - rewrite lookup_alter_ne by done. rewrite (lookup_insert_ne _ "bone_b") by done.
    destruct (decide (k = "bone_a")) as [->|Ha].
    + rewrite lookup_alter_eq, lookup_insert_ne, !lookup_insert_eq by done. done.
    + rewrite lookup_alter_ne, !lookup_insert_ne by done. done.
Qed.

Lemma updateBonePosition_S fuel boneId m :
  updateBonePosition (S fuel) boneId m =
  match m !! boneId with
  | None => Some m
  | Some bone =>
      forEach (λ childId m',
                 match m' !! childId with
                 | Some _ => updateBonePosition fuel childId m'
                 | None => Some m'
                 end) (bone_children bone)
        match truthy (bone_parentId bone) with
        | Some pid =>
            match m !! pid with
            | Some parent => alter (set_position (getBoneEnd parent)) boneId m
            | None => m
            end
        | None => m
        end
  end.
Proof. reflexivity. Qed.

Lemma updateBonePosition_arm_b f :
  updateBonePosition (S f) "bone_b" arm_bones = Some arm_bones.
Proof.
  rewrite updateBonePosition_S, arm_lookup_b.
  cbn [arm_b bone_parentId bone_children truthy forEach].
  rewrite decide_False by done. rewrite arm_lookup_a.
  f_equal. apply alter_id. intros b. rewrite arm_lookup_b. intros [= <-].
  rewrite getBoneEnd_arm_a. reflexivity.
Qed.

Lemma updateBonePosition_arm_a f :
  updateBonePosition (S (S f)) "bone_a" arm_bones = Some arm_bones.
Proof.
  rewrite updateBonePosition_S, arm_lookup_a.
  cbn [arm_a bone_parentId bone_children truthy forEach].
  rewrite arm_lookup_b.
  by rewrite (updateBonePosition_arm_b f).
Qed.

Lemma arm_distance : distance {| vx := 2; vy := 0 |} arm_target = 0.5.
Proof.
  unfold distance, arm_target. cbn [vx vy].
  replace (0 - 0) with 0 by lra. rewrite hypot_x_0, Rabs_left by lra. lra.
Qed.

Lemma arm_getChainEnd : getChainEnd ["bone_a"; "bone_b"] arm_bones = Some {| vx := 2; vy := 0 |}.
Proof.
  unfold getChainEnd. cbn [last]. rewrite arm_lookup_b. cbn. by rewrite getBoneEnd_arm_b.
Qed.

Lemma ccdJoint_arm fuel j cur :
  arm_bones !! j = Some cur →
  angleDiff cur {| vx := 2; vy := 0 |} arm_target = 0 →
  updateBonePosition fuel j arm_bones = Some arm_bones →
  ccdJoint fuel ["bone_a"; "bone_b"] arm_target j arm_bones = Some (false, arm_bones).
Proof.
  intros Hj Hd Hu. unfold ccdJoint. rewrite Hj, arm_getChainEnd, arm_distance.
  destruct (Rlt_dec 0.5 ikTolerance) as [Hlt|_]; [unfold ikTolerance in Hlt; lra|].
  rewrite Hd.
  rewrite (alter_id _ arm_bones j).
  - by rewrite Hu.
  - intros b Hb. destruct b. unfold set_angle. cbn. f_equal. lra.
Qed.

Lemma ccdPass_arm f :
  ccdPass (S (S f)) ["bone_a"; "bone_b"] arm_target (rev ["bone_a"; "bone_b"]) arm_bones
  = Some (false, arm_bones).
Proof.
  cbn [rev app ccdPass].
  rewrite (ccdJoint_arm _ "bone_b" arm_b arm_lookup_b).
  - rewrite (ccdJoint_arm _ "bone_a" arm_a arm_lookup_a); [done| |].
    + apply angleDiff_along_x; unfold arm_target; cbn; lra.
    + apply updateBonePosition_arm_a.
  - apply angleDiff_along_x; unfold arm_target; cbn; lra.
  - apply updateBonePosition_arm_b.
Qed.

Lemma ccdIterations_arm f n :
  ccdIterations (S (S f)) ["bone_a"; "bone_b"] arm_target n arm_bones
  = Some (false, arm_bones).
Proof.
  induction n as [|n IH]; [done|].
  cbn [ccdIterations]. by rewrite ccdPass_arm.
Qed.

Lemma solveIK_arm f :
  solveIK (S (S f)) "bone_b" arm_target arm_chain = Some arm_chain.
Proof.
  unfold solveIK, solveIK_outcome. rewrite arm_chain_bones, arm_lookup_b.
  assert (buildChain (S (S f)) "bone_b" [] arm_bones = Some ["bone_a"; "bone_b"]) as ->
    by reflexivity.
  rewrite ccdIterations_arm. cbn [fmap option_fmap option_map snd]. f_equal.
  rewrite <- arm_chain_bones. by destruct arm_chain.
Qed.

(** The solver has no way out of a straight chain: on the two-bone chain
    along the x axis (both lengths 1, both angles 0, root at the origin)
    with the target (1.5, 0), at distance 1.5 <= 2 from the root, every
    joint visit computes the angle 0, so [solveIK] returns the pose it
    started from, whose end-effector (2, 0) is 0.5 away from the
    target. *)
Lemma solveIK_collinear_stalls :
  (hypot (vx arm_target) (vy arm_target) <= bone_length arm_a + bone_length arm_b)%R
  ∧ solveIK 2 "bone_b" arm_target arm_chain = Some arm_chain
  ∧ endEffectorOf "bone_b" arm_chain = Some {| vx := 2; vy := 0 |}
  ∧ distance {| vx := 2; vy := 0 |} arm_target = 0.5%R
  ∧ ¬ (distance {| vx := 2; vy := 0 |} arm_target < ikTolerance)%R.
Proof.
  split; [|split; [|split; [|split]]].
  - unfold arm_target. cbn. rewrite hypot_x_0, Rabs_right; lra.
  - apply solveIK_arm.
  - unfold endEffectorOf. rewrite arm_chain_bones, arm_lookup_b. cbn.
    by rewrite getBoneEnd_arm_b.
  - apply arm_distance.
  - rewrite arm_distance. unfold ikTolerance. lra.
Qed.

Lemma hypot_0_y b : hypot 0 b = Rabs b.
Proof.
  unfold hypot. replace (0 * 0 + b * b)%R with (Rsqr b) by (unfold Rsqr; lra).
  apply sqrt_Rsqr_abs.
Qed.

(** The rotation has the sign of the turn from the target to the
    end-effector: a bone along the x axis turns clockwise for a target
    straight above its origin. *)
Lemma angleDiff_quarter_turn :
  angleDiff (mkBone "bone_a" "arm" 0 0 1 0 "#00ff88" 3 None [] IK false)
    {| vx := 1; vy := 0 |} {| vx := 0; vy := 1 |} = (- PI / 2)%R.
Proof.
  unfold angleDiff. cbn [bone_x bone_y vx vy].
  replace (0 - 0)%R with 0%R by lra. replace (1 - 0)%R with 1%R by lra.
  rewrite (normalize_along_x 1) by lra.
  assert (normalize {| vx := 0; vy := 1 |} = {| vx := 0; vy := 1 |}) as ->.
  { unfold normalize. cbn [vx vy]. rewrite hypot_0_y, Rabs_right by lra.
    destruct (Rlt_dec 0 1); [|lra]. f_equal; field. }
  cbn [vx vy]. replace (0 * 0 - 1 * 1)%R with (-1)%R by lra.
  replace (0 * 1 + 1 * 0)%R with 0%R by lra.
  unfold atan2. repeat (destruct (Rlt_dec _ _); try lra).
Qed.

(** ** [solveIK] *)




Lemma unplaced_angle b b' : unplaced b = unplaced b' → bone_angle b = bone_angle b'.
Proof.
  intros H. change (bone_angle b) with (bone_angle (unplaced b)). by rewrite H.
Qed.


(** ** The solver on a bent two-bone chain *)

Lemma sqrt3_sqr : (sqrt 3 * sqrt 3 = 3)%R.
Proof. apply sqrt_sqrt. lra. Qed.

Lemma sqrt3_bounds : (1 < sqrt 3 < 2)%R.
Proof. pose proof sqrt3_sqr. pose proof (sqrt_pos 3). split; nra. Qed.

Lemma atan_inv_sqrt3 : atan (1 / sqrt 3) = (PI / 6)%R.
Proof. rewrite <- tan_PI6. apply atan_tan. pose proof PI_RGT_0. lra. Qed.

Lemma atan2_scale k y x : (0 < k)%R → atan2 (k * y) (k * x) = atan2 y x.
Proof.
  intros Hk. unfold atan2.
  destruct (Rlt_dec 0 x) as [Hx|Hx].
  { destruct (Rlt_dec 0 (k * x)) as [_|H]; [|exfalso; apply H; nra].
    f_equal. field. lra. }
  destruct (Rlt_dec 0 (k * x)) as [H|_]; [exfalso; nra|].
  destruct (Rlt_dec x 0) as [Hx'|Hx'].
  { destruct (Rlt_dec (k * x) 0) as [_|H]; [|exfalso; apply H; nra].
    destruct (Rle_dec 0 y) as [Hy|Hy].
    - destruct (Rle_dec 0 (k * y)) as [_|H]; [|exfalso; apply H; nra].
      f_equal. f_equal. field. lra.
    - destruct (Rle_dec 0 (k * y)) as [H|_]; [exfalso; nra|].
      f_equal. f_equal. field. lra. }
  destruct (Rlt_dec (k * x) 0) as [H|_]; [exfalso; nra|].
  destruct (Rlt_dec 0 y) as [Hy|Hy].
  { destruct (Rlt_dec 0 (k * y)) as [_|H]; [done|exfalso; apply H; nra]. }
  destruct (Rlt_dec 0 (k * y)) as [H|_]; [exfalso; nra|].
  destruct (Rlt_dec y 0) as [Hy'|Hy'].
  { destruct (Rlt_dec (k * y) 0) as [_|H]; [done|exfalso; apply H; nra]. }
  destruct (Rlt_dec (k * y) 0) as [H|_]; [exfalso; nra|done].
Qed.

Lemma atan2_1_sqrt3 : atan2 1 (sqrt 3) = (PI / 6)%R.
Proof.
  pose proof sqrt3_bounds. unfold atan2.
  destruct (Rlt_dec 0 (sqrt 3)); [|lra]. apply atan_inv_sqrt3.
Qed.

Lemma atan2_m1_sqrt3 : atan2 (-1) (sqrt 3) = (- (PI / 6))%R.
Proof.
  pose proof sqrt3_bounds. unfold atan2.
  destruct (Rlt_dec 0 (sqrt 3)); [|lra].
  replace (-1 / sqrt 3)%R with (- (1 / sqrt 3))%R by (field; lra).
  by rewrite atan_opp, atan_inv_sqrt3.
Qed.

Lemma atan2_1_msqrt3 : atan2 1 (- sqrt 3) = (PI - PI / 6)%R.
Proof.
  pose proof sqrt3_bounds. unfold atan2.
  destruct (Rlt_dec 0 (- sqrt 3)); [lra|].
  destruct (Rlt_dec (- sqrt 3) 0); [|lra].
  destruct (Rle_dec 0 1); [|lra].
  replace (1 / - sqrt 3)%R with (- (1 / sqrt 3))%R by (field; lra).
  rewrite atan_opp, atan_inv_sqrt3. lra.
Qed.

Lemma atan2_m1_msqrt3 : atan2 (-1) (- sqrt 3) = (PI / 6 - PI)%R.
Proof.
  pose proof sqrt3_bounds. unfold atan2.
  destruct (Rlt_dec 0 (- sqrt 3)); [lra|].
  destruct (Rlt_dec (- sqrt 3) 0); [|lra].
  destruct (Rle_dec 0 (-1)); [lra|].
  replace (-1 / - sqrt 3)%R with (1 / sqrt 3)%R by (field; lra).
  by rewrite atan_inv_sqrt3.
Qed.

(** With both vectors different from zero the angle of a joint visit is
    [atan2] of the cross and the dot product of the vectors themselves. *)
Lemma angleDiff_raw cur e target :
  (0 < hypot (vx target - bone_x cur) (vy target - bone_y cur))%R →
  (0 < hypot (vx e - bone_x cur) (vy e - bone_y cur))%R →
  angleDiff cur e target =
    atan2 ((vx target - bone_x cur) * (vy e - bone_y cur)
           - (vy target - bone_y cur) * (vx e - bone_x cur))
          ((vx target - bone_x cur) * (vx e - bone_x cur)
           + (vy target - bone_y cur) * (vy e - bone_y cur)).
Proof.
  intros Hu Hw. unfold angleDiff, normalize. cbn [vx vy].
  destruct (Rlt_dec 0 (hypot (vx target - bone_x cur) (vy target - bone_y cur))); [|done].
  destruct (Rlt_dec 0 (hypot (vx e - bone_x cur) (vy e - bone_y cur))); [|done].
  cbn [vx vy].
  set (lu := hypot (vx target - bone_x cur) (vy target - bone_y cur)) in *.
  set (lw := hypot (vx e - bone_x cur) (vy e - bone_y cur)) in *.
  match goal with |- atan2 ?c ?d = atan2 ?rc ?rd =>
    replace c with (/ (lu * lw) * rc)%R by (field; lra);
    replace d with (/ (lu * lw) * rd)%R by (field; lra)
  end.
  apply atan2_scale. apply Rinv_0_lt_compat. nra.
Qed.

Lemma far_from_target a b : (0.01 <= a * a + b * b)%R → ¬ (hypot a b < ikTolerance)%R.
Proof.
  intros H Hlt. unfold ikTolerance in Hlt. pose proof (hypot_sqr a b) as Hs.
  assert (0 <= hypot a b)%R by apply sqrt_pos. nra.
Qed.

Lemma pose_lookup_a alpha beta : pose alpha beta !! "bone_a" = Some (pose_a alpha).
Proof. reflexivity. Qed.

Lemma pose_lookup_b alpha beta : pose alpha beta !! "bone_b" = Some (pose_b alpha beta).
Proof. reflexivity. Qed.

Lemma pose_chain_end alpha beta :
  getChainEnd ["bone_a"; "bone_b"] (pose alpha beta) = Some (getBoneEnd (pose_b alpha beta)).
Proof. reflexivity. Qed.

Lemma updateBonePosition_pose_b f alpha beta :
  updateBonePosition (S f) "bone_b" (pose alpha beta) = Some (pose alpha beta).
Proof.
  rewrite updateBonePosition_S, pose_lookup_b.
  cbn [pose_b set_position bone_parentId bone_children truthy forEach].
  rewrite decide_False by done. by rewrite pose_lookup_a.
Qed.

Lemma pose_turn_b d alpha beta :
  alter (λ b, set_angle (bone_angle b + d) b) "bone_b" (pose alpha beta)
  = pose alpha (beta + d).
Proof.
  apply map_eq. intros k. unfold pose.
  destruct (decide (k = "bone_b")) as [->|Hb].
  - by rewrite lookup_alter_eq, !lookup_insert_eq.
  - rewrite lookup_alter_ne by done. by rewrite !(lookup_insert_ne _ "bone_b") by done.
Qed.

Lemma pose_turn_a f d alpha beta :
  updateBonePosition (S (S f)) "bone_a"
    (alter (λ b, set_angle (bone_angle b + d) b) "bone_a" (pose alpha beta))
  = Some (pose (alpha + d) beta).
Proof.
  assert (alter (λ b, set_angle (bone_angle b + d) b) "bone_a" (pose alpha beta)
          = <["bone_b" := pose_b alpha beta]> (<["bone_a" := pose_a (alpha + d)]> ∅)) as ->.
  { apply map_eq. intros k. unfold pose.
    destruct (decide (k = "bone_b")) as [->|Hb].
    - by rewrite lookup_alter_ne, !lookup_insert_eq.
    - rewrite !(lookup_insert_ne _ "bone_b") by done.
      destruct (decide (k = "bone_a")) as [->|Ha].
      + by rewrite lookup_alter_eq, lookup_insert_ne, !lookup_insert_eq.
      + by rewrite lookup_alter_ne, !lookup_insert_ne. }
  rewrite updateBonePosition_S.
  rewrite lookup_insert_ne, lookup_insert_eq by done.
  cbn [pose_a bone_parentId bone_children truthy forEach].
  rewrite lookup_insert_eq. rewrite updateBonePosition_S, lookup_insert_eq.
  cbn [pose_b set_position bone_parentId bone_children truthy forEach].
  rewrite decide_False by done.
  by rewrite lookup_insert_ne, lookup_insert_eq.
Qed.

Lemma ccdJoint_pose_b f target alpha beta :
  ¬ (distance (getBoneEnd (pose_b alpha beta)) target < ikTolerance)%R →
  ccdJoint (S f) ["bone_a"; "bone_b"] target "bone_b" (pose alpha beta)
  = Some (false,
          pose alpha
            (beta + angleDiff (pose_b alpha beta) (getBoneEnd (pose_b alpha beta)) target)).
Proof.
  intros Hfar. unfold ccdJoint. rewrite pose_lookup_b, pose_chain_end.
  destruct (Rlt_dec _ _); [done|].
  by rewrite pose_turn_b, updateBonePosition_pose_b.
Qed.

Lemma ccdJoint_pose_a f target alpha beta :
  ¬ (distance (getBoneEnd (pose_b alpha beta)) target < ikTolerance)%R →
  ccdJoint (S (S f)) ["bone_a"; "bone_b"] target "bone_a" (pose alpha beta)
  = Some (false,
          pose (alpha + angleDiff (pose_a alpha) (getBoneEnd (pose_b alpha beta)) target)
            beta).
Proof.
  intros Hfar. unfold ccdJoint. rewrite pose_lookup_a, pose_chain_end.
  destruct (Rlt_dec _ _); [done|].
  by rewrite pose_turn_a.
Qed.

Ltac bent_values :=
  cbn [getBoneEnd pose_a pose_b set_position bone_x bone_y bone_angle bone_length
       vx vy bent_target];
  rewrite ?cos_neg, ?sin_neg, ?cos_PI3, ?sin_PI3, ?cos_2PI3, ?sin_2PI3, ?cos_PI6, ?sin_PI6.

Lemma bent_far alpha beta :
  (alpha = PI / 3 ∧ beta = 2 * (PI / 3)) ∨ (alpha = PI / 3 ∧ beta = - (PI / 6))
  ∨ (alpha = PI / 6 ∧ beta = - (PI / 6)) ∨ (alpha = PI / 6 ∧ beta = 2 * (PI / 3)) →
  ¬ (distance (getBoneEnd (pose_b alpha beta)) bent_target < ikTolerance)%R.
Proof.
  pose proof sqrt3_sqr as Hs. pose proof sqrt3_bounds as Hb.
  intros [[-> ->]|[[-> ->]|[[-> ->]|[-> ->]]]];
    unfold distance; apply far_from_target; bent_values; nra.
Qed.

Lemma bent_turn_1 :
  angleDiff (pose_b (PI / 3) (2 * (PI / 3)))
    (getBoneEnd (pose_b (PI / 3) (2 * (PI / 3)))) bent_target = (PI / 6 - PI)%R.
Proof.
  pose proof sqrt3_sqr as Hs. pose proof sqrt3_bounds as Hb.
  rewrite angleDiff_raw; bent_values.
  - match goal with |- atan2 ?c ?d = _ =>
      replace c with ((sqrt 3 - 1) / 4 * -1)%R by nra;
      replace d with ((sqrt 3 - 1) / 4 * - sqrt 3)%R by nra
    end.
    rewrite atan2_scale by lra. apply atan2_m1_msqrt3.
  - apply hypot_pos. right. lra.
  - apply hypot_pos. left. lra.
Qed.

Lemma bent_turn_2 :
  angleDiff (pose_a (PI / 3))
    (getBoneEnd (pose_b (PI / 3) (- (PI / 6)))) bent_target = (- (PI / 6))%R.
Proof.
  pose proof sqrt3_sqr as Hs. pose proof sqrt3_bounds as Hb.
  rewrite angleDiff_raw; bent_values.
  - match goal with |- atan2 ?c ?d = _ =>
      replace c with (1 / 2 * -1)%R by nra;
      replace d with (1 / 2 * sqrt 3)%R by nra
    end.
    rewrite atan2_scale by lra. apply atan2_m1_sqrt3.
  - apply hypot_pos. left. lra.
  - apply hypot_pos. left. lra.
Qed.

Lemma bent_turn_3 :
  angleDiff (pose_b (PI / 6) (- (PI / 6)))
    (getBoneEnd (pose_b (PI / 6) (- (PI / 6)))) bent_target = (PI - PI / 6)%R.
Proof.
  pose proof sqrt3_sqr as Hs. pose proof sqrt3_bounds as Hb.
  rewrite angleDiff_raw; bent_values.
  - match goal with |- atan2 ?c ?d = _ =>
      replace c with ((sqrt 3 - 1) / 4 * 1)%R by nra;
      replace d with ((sqrt 3 - 1) / 4 * - sqrt 3)%R by nra
    end.
    rewrite atan2_scale by lra. apply atan2_1_msqrt3.
  - apply hypot_pos. left. lra.
  - apply hypot_pos. left. lra.
Qed.

Lemma bent_turn_4 :
  angleDiff (pose_a (PI / 6))
    (getBoneEnd (pose_b (PI / 6) (2 * (PI / 3)))) bent_target = (PI / 6)%R.
Proof.
  pose proof sqrt3_sqr as Hs. pose proof sqrt3_bounds as Hb.
  rewrite angleDiff_raw; bent_values.
  - match goal with |- atan2 ?c ?d = _ =>
      replace c with (1 / 2 * 1)%R by nra;
      replace d with (1 / 2 * sqrt 3)%R by nra
    end.
    rewrite atan2_scale by lra. apply atan2_1_sqrt3.
  - apply hypot_pos. left. lra.
  - apply hypot_pos. left. lra.
Qed.

(** One pass over the joints from the pose (pi/3, 2 pi/3) and one from
    the pose (pi/6, -pi/6). *)
Lemma ccdPass_bent_1 f :
  ccdPass (S (S f)) ["bone_a"; "bone_b"] bent_target ["bone_b"; "bone_a"]
    (pose (PI / 3) (2 * (PI / 3)))
  = Some (false, pose (PI / 6) (- (PI / 6))).
Proof.
  cbn [ccdPass].
  rewrite ccdJoint_pose_b by (apply bent_far; tauto).
  rewrite bent_turn_1.
  replace (2 * (PI / 3) + (PI / 6 - PI))%R with (- (PI / 6))%R by lra.
  rewrite ccdJoint_pose_a by (apply bent_far; tauto).
  rewrite bent_turn_2.
  by replace (PI / 3 + - (PI / 6))%R with (PI / 6)%R by lra.
Qed.

Lemma ccdPass_bent_2 f :
  ccdPass (S (S f)) ["bone_a"; "bone_b"] bent_target ["bone_b"; "bone_a"]
    (pose (PI / 6) (- (PI / 6)))
  = Some (false, pose (PI / 3) (2 * (PI / 3))).
Proof.
  cbn [ccdPass].
  rewrite ccdJoint_pose_b by (apply bent_far; tauto).
  rewrite bent_turn_3.
  replace (- (PI / 6) + (PI - PI / 6))%R with (2 * (PI / 3))%R by lra.
  rewrite ccdJoint_pose_a by (apply bent_far; tauto).
  rewrite bent_turn_4.
  by replace (PI / 6 + PI / 6)%R with (PI / 3)%R by lra.
Qed.

Lemma ccdIterations_bent f n :
  ccdIterations (S (S f)) ["bone_a"; "bone_b"] bent_target (n + n)
    (pose (PI / 3) (2 * (PI / 3)))
  = Some (false, pose (PI / 3) (2 * (PI / 3))).
Proof.
  induction n as [|n IH]; [done|].
  replace (S n + S n)%nat with (S (S (n + n))) by lia.
  cbn [ccdIterations rev app]. by rewrite ccdPass_bent_1, ccdPass_bent_2.
Qed.

Lemma bent_root_valid :
  valid_op (OpCreateBone "bone_a" "arm" 0 0 1 (PI / 3) IK None) empty.
Proof.
  split; [done|]. split; [done|]. split; [done|]. intros k b Hk. done.
Qed.

Lemma bent_chain_valid :
  valid_op (OpCreateBone "bone_b" "forearm" 0 0 1 (2 * (PI / 3)) IK (Some "bone_a"))
    bent_root.
Proof.
  split; [done|]. split; [done|]. split; [done|].
  intros k b Hk. unfold bent_root, createBone in Hk.
  cbn [fst bones set_bones truthy empty] in Hk.
  apply lookup_insert_Some in Hk as [[_ <-]|[_ Hk]]; done.
Qed.

Lemma bent_chain_reachable : reachable bent_chain.
Proof.
  apply (reachable_step bent_root
           (OpCreateBone "bone_b" "forearm" 0 0 1 (2 * (PI / 3)) IK (Some "bone_a")) 0);
    [|apply bent_chain_valid|reflexivity].
  exact (reachable_step empty _ 0 _ reachable_empty bent_root_valid eq_refl).
Qed.

Lemma bent_chain_bones : bones bent_chain = pose (PI / 3) (2 * (PI / 3)).
Proof. reflexivity. Qed.

Lemma solveIK_bent f :
  solveIK_outcome (S (S f)) "bone_b" bent_target bent_chain = Some (false, bent_chain).
Proof.
  unfold solveIK_outcome. rewrite bent_chain_bones, pose_lookup_b.
  assert (buildChain (S (S f)) "bone_b" [] (pose (PI / 3) (2 * (PI / 3)))
          = Some ["bone_a"; "bone_b"]) as -> by reflexivity.
  change ikIterations with (5 + 5)%nat. by rewrite ccdIterations_bent.
Qed.

Lemma bent_end :
  getBoneEnd (pose_b (PI / 3) (2 * (PI / 3))) = {| vx := 0; vy := sqrt 3 |}.
Proof. unfold getBoneEnd. bent_values. f_equal; lra. Qed.

Lemma bent_distance : (1 < distance {| vx := 0; vy := sqrt 3 |} bent_target)%R.
Proof.
  pose proof sqrt3_sqr as Hs. pose proof sqrt3_bounds as Hb.
  unfold distance. cbn [vx vy bent_target].
  pose proof (hypot_sqr (1 / 2 - 0) (1 / 2 - sqrt 3)) as Hh.
  assert (0 <= hypot (1 / 2 - 0) (1 / 2 - sqrt 3))%R by apply sqrt_pos. nra.
Qed.

Lemma bent_toTarget :
  normalize {| vx := vx bent_target - bone_x (pose_b (PI / 3) (2 * (PI / 3)));
               vy := vy bent_target - bone_y (pose_b (PI / 3) (2 * (PI / 3))) |}
  = {| vx := 0; vy := -1 |}.
Proof.
  pose proof sqrt3_bounds as Hb. bent_values.
  replace (1 / 2 - (0 + 1 / 2 * 1))%R with 0%R by lra.
  unfold normalize. cbn [vx vy]. rewrite hypot_0_y, Rabs_left by lra.
  destruct (Rlt_dec _ _); [|lra]. f_equal; field; lra.
Qed.

(** C1 is broken by the code at a target in general position.  The bent
    two-bone chain has the lengths 1 and 1, its root at the origin with
    the angle pi/3 and its child with the angle 2 pi/3, so that its
    end-effector is (0, sqrt 3); the target (1/2, 1/2) is at the distance
    sqrt(1/2) <= 1 + 1 from the root.  A pass over the joints turns the
    child by pi/6 - pi and the root by -pi/6, and the next pass turns
    them back; so [solveIK] on the child uses up its 10 passes and returns
    the pose it started from, whose end-effector is more than 1 away from
    the target.  At the first joint visit the unit vector to the target
    is (0, -1) and the bone points along (-1/2, sqrt 3 / 2); the angle
    that is added leaves the bone along (sqrt 3 / 2, -1/2), where
    subtracting it would have put the bone along (0, -1), towards the
    target. *)
Theorem solveIK_turns_away_from_target :
  reachable bent_chain
  ∧ bones bent_chain = pose (PI / 3) (2 * (PI / 3))
  ∧ bone_length (pose_a (PI / 3)) = 1%R
  ∧ bone_length (pose_b (PI / 3) (2 * (PI / 3))) = 1%R
  ∧ (hypot (vx bent_target) (vy bent_target) <= 1 + 1)%R
  ∧ endEffectorOf "bone_b" bent_chain = Some {| vx := 0; vy := sqrt 3 |}
  ∧ (∀ f, ccdPass (S (S f)) ["bone_a"; "bone_b"] bent_target ["bone_b"; "bone_a"]
            (pose (PI / 3) (2 * (PI / 3)))
          = Some (false, pose (PI / 6) (- (PI / 6))))
  ∧ (∀ f, ccdPass (S (S f)) ["bone_a"; "bone_b"] bent_target ["bone_b"; "bone_a"]
            (pose (PI / 6) (- (PI / 6)))
          = Some (false, pose (PI / 3) (2 * (PI / 3))))
  ∧ (∀ f, solveIK_outcome (S (S f)) "bone_b" bent_target bent_chain
          = Some (false, bent_chain))
  ∧ (∀ f, solveIK (S (S f)) "bone_b" bent_target bent_chain = Some bent_chain)
  ∧ (1 < distance {| vx := 0; vy := sqrt 3 |} bent_target)%R
  ∧ ¬ (distance {| vx := 0; vy := sqrt 3 |} bent_target < ikTolerance)%R
  ∧ angleDiff (pose_b (PI / 3) (2 * (PI / 3))) {| vx := 0; vy := sqrt 3 |} bent_target
    = (PI / 6 - PI)%R
  ∧ normalize {| vx := vx bent_target - bone_x (pose_b (PI / 3) (2 * (PI / 3)));
                 vy := vy bent_target - bone_y (pose_b (PI / 3) (2 * (PI / 3))) |}
    = {| vx := 0; vy := -1 |}
  ∧ (cos (2 * (PI / 3)) = (-1 / 2)%R ∧ sin (2 * (PI / 3)) = (sqrt 3 / 2)%R)
  ∧ (cos (2 * (PI / 3) + (PI / 6 - PI)) = (sqrt 3 / 2)%R
     ∧ sin (2 * (PI / 3) + (PI / 6 - PI)) = (-1 / 2)%R)
  ∧ (cos (2 * (PI / 3) - (PI / 6 - PI)) = 0%R
     ∧ sin (2 * (PI / 3) - (PI / 6 - PI)) = (-1)%R).
Proof.
  pose proof sqrt3_sqr as Hs. pose proof sqrt3_bounds as Hb.
  split; [apply bent_chain_reachable|]. split; [apply bent_chain_bones|].
  split; [done|]. split; [done|]. split.
  { unfold bent_target. cbn [vx vy].
    pose proof (hypot_sqr (1 / 2) (1 / 2)) as Hh.
    assert (0 <= hypot (1 / 2) (1 / 2))%R by apply sqrt_pos. nra. }
  split.
  { unfold endEffectorOf. rewrite bent_chain_bones, pose_lookup_b.
    cbn [fmap option_fmap option_map]. by rewrite bent_end. }
  split; [apply ccdPass_bent_1|]. split; [apply ccdPass_bent_2|].
  split; [apply solveIK_bent|]. split.
  { intros f. unfold solveIK. by rewrite solveIK_bent. }
  split; [apply bent_distance|]. split.
  { pose proof bent_distance. unfold ikTolerance. lra. }
  split; [rewrite <- bent_end; apply bent_turn_1|].
  split; [apply bent_toTarget|].
  split; [by rewrite cos_2PI3, sin_2PI3|]. split.
  - replace (2 * (PI / 3) + (PI / 6 - PI))%R with (- (PI / 6))%R by lra.
    rewrite cos_neg, sin_neg, cos_PI6, sin_PI6. split; lra.
  - replace (2 * (PI / 3) - (PI / 6 - PI))%R with (3 * (PI / 2))%R by lra.
    by rewrite cos_3PI2, sin_3PI2.
Qed.

End BonesFacts.

(** * Facts about the arithmetic on binary64 numbers *)

Module DoublesFacts.
Import Floats Doubles.
Local Open Scope float_scope.

Lemma applyEasing_at_0 tag : applyEasing 0 tag = 0.
Proof. unfold applyEasing. by repeat case_decide. Qed.

Lemma applyEasing_at_1 tag : applyEasing 1 tag = 1.
Proof. unfold applyEasing. by repeat case_decide. Qed.

(** X28: in binary64 the value emitted at [next.frame] need not be the
    value of [next]: from [{frame: 1, x: 0.2}] to [{frame: 10, x: 0.9}] the
    progress at frame 10 is 1, the eased progress is 1 for every easing
    tag, and [0.2 + (0.9 - 0.2) * 1] is 0.8999999999999999, not 0.9.  At
    frame 1 the value is that of [prev], 0.2. *)
Lemma interpolated_at_next_rounds tag :
  (10 - 1) / (10 - 1) = 1
  ∧ applyEasing 1 tag = 1
  ∧ interpolated 10 (fade_prev tag) fade_next = {[ "x" := 0.8999999999999999 ]}
  ∧ kf_properties fade_next = {[ "x" := 0.9 ]}
  ∧ (0.8999999999999999 =? 0.9) = false
  ∧ interpolated 1 (fade_prev tag) fade_next = {[ "x" := 0.2 ]}.
Proof.
  split; [reflexivity|]. split; [apply applyEasing_at_1|].
  unfold interpolated. cbn [kf_frame kf_easing fade_prev fade_next].
  change ((10 - 1) / (10 - 1)) with 1. change ((1 - 1) / (10 - 1)) with 0.
  rewrite applyEasing_at_0, applyEasing_at_1. by vm_compute.
Qed.

(** C8 fails as stated: the root of [limb] is moved from x = 0.1 to
    x = 0.2, so it is shifted by 0.1; its child is moved from x = 1.1 to
    [1.1 + (0.2 - 0.1)], which is 1.2000000000000002, a shift by
    0.10000000000000009; the offset of the child from the root was 1 and
    is 1.0000000000000002. *)
Lemma moveBone_shifts_differ :
  bone_x <$> limb !! "bone_a" = Some 0.1
  ∧ bone_x <$> limb !! "bone_b" = Some 1.1
  ∧ bone_x <$> (moveBone 2 "bone_a" {| vx := 0.2; vy := 0 |} limb ≫= (.!! "bone_a"))
    = Some 0.2
  ∧ bone_x <$> (moveBone 2 "bone_a" {| vx := 0.2; vy := 0 |} limb ≫= (.!! "bone_b"))
    = Some 1.2000000000000002
  ∧ 0.2 - 0.1 = 0.1
  ∧ 1.2000000000000002 - 1.1 = 0.10000000000000009
  ∧ (0.10000000000000009 =? 0.1) = false
  ∧ 1.1 - 0.1 = 1
  ∧ 1.2000000000000002 - 0.2 = 1.0000000000000002
  ∧ (1.0000000000000002 =? 1) = false.
Proof. by vm_compute. Qed.

(** C9 is broken by the code when the origin of a joint is the target and
    the end-effector lies below and to the left of it: for the bone
    [spur] (at the origin, angle 4) and the target (0, 0), [normalize]
    returns (0, 0) for the vector to the target, the vector to the
    end-effector has two negative components, so [cross] is [+0] and [dot]
    is [-0]; [Math.atan2(+0, -0)] is pi and the visit turns the joint from
    4 to 7.141592653589793. *)
Theorem joint_on_target_half_turn :
  normalize {| vx := 0 - bone_x spur; vy := 0 - bone_y spur |} = {| vx := 0; vy := 0 |}
  ∧ (vx (normalize {| vx := vx spur_end - bone_x spur; vy := vy spur_end - bone_y spur |})
       <? 0) = true
  ∧ (vy (normalize {| vx := vx spur_end - bone_x spur; vy := vy spur_end - bone_y spur |})
       <? 0) = true
  ∧ classify (fst (crossDot spur spur_end {| vx := 0; vy := 0 |})) = PZero
  ∧ classify (snd (crossDot spur spur_end {| vx := 0; vy := 0 |})) = NZero
  ∧ turnedAngle spur spur_end {| vx := 0; vy := 0 |} = Some 7.141592653589793
  ∧ (7.141592653589793 =? bone_angle spur) = false.
Proof. by vm_compute. Qed.

End DoublesFacts.

(** * Facts about the further timeline operations *)

Module TimelineOpsFacts.
Import Timeline TimelineOps TimelineFacts.
Open Scope Z_scope.

(** ** Easing *)

Lemma applyEasing_range tag t :
  (0 <= t <= 1)%R → (0 <= applyEasing t tag <= 1)%R.
Proof.
  intros H. unfold applyEasing; repeat case_decide; try nra;
    repeat (destruct (Rlt_dec _ _)); nra.
Qed.

(** X1: on the unit interval every easing is monotone and stays in the unit
    interval, and it fixes 0 and 1. *)
Theorem applyEasing_monotone tag t1 t2 :
  (0 <= t1)%R → (t1 <= t2)%R → (t2 <= 1)%R →
  (0 <= applyEasing t1 tag)%R
  ∧ (applyEasing t1 tag <= applyEasing t2 tag)%R
  ∧ (applyEasing t2 tag <= 1)%R
  ∧ applyEasing 0 tag = 0%R ∧ applyEasing 1 tag = 1%R.
Proof.
  intros H0 H12 H1.
  split; [|split; [|split; [|split; [apply applyEasing_0|apply applyEasing_1]]]];
    unfold applyEasing; repeat case_decide; try nra;
    repeat (destruct (Rlt_dec _ _)); nra.
Qed.

Lemma applyEasing_monotone_witness :
  (applyEasing 0.25 "easeInOut" <= applyEasing 0.75 "easeInOut")%R.
Proof.
  apply (applyEasing_monotone "easeInOut" 0.25 0.75); lra.
Defined.

(** ** Brackets inside the range *)

Lemma scan_bracket_Some i kfs frame n :
  scan_bracket i kfs frame = Some n →
  ∃ a b, (i ≤ n)%nat ∧ kfs !! (n - i)%nat = Some a ∧ kfs !! S (n - i) = Some b
         ∧ kf_frame a <= frame <= kf_frame b.
Proof.
  revert i. induction kfs as [|a [|b l] IH]; intros i E; try done.
  rewrite scan_bracket_cons in E.
  destruct ((kf_frame a <=? frame) && (kf_frame b >=? frame)) eqn:Ec.
  - injection E as <-. exists a, b. rewrite Nat.sub_diag.
    apply andb_true_iff in Ec as [? ?]. repeat split; try done; lia.
  - destruct (IH (S i) E) as (a' & b' & Hle & Ha & Hb & Hf).
    exists a', b'. split; [lia|].
    replace (n - i)%nat with (S (n - S i)) by lia. done.
Qed.

Lemma scan_bracket_in_range i a rest frame :
  rest ≠ [] → kf_frame a <= frame →
  (∀ l, last (a :: rest) = Some l → frame <= kf_frame l) →
  is_Some (scan_bracket i (a :: rest) frame).
Proof.
  revert i a. induction rest as [|b l IH]; intros i a Hne Ha Hlast; [done|].
  rewrite scan_bracket_cons.
  destruct (kf_frame b >=? frame) eqn:Eb.
  - replace (kf_frame a <=? frame) with true by lia. simpl. eauto.
  - rewrite andb_false_r. destruct l as [|c l].
    + specialize (Hlast b eq_refl). lia.
    + apply IH; [done|lia|]. intros x Hx. apply Hlast. exact Hx.
Qed.

Lemma ascending_lookup_lt kfs i j a b :
  ascending kfs → kfs !! i = Some a → kfs !! j = Some b → (i < j)%nat →
  kf_frame a < kf_frame b.
Proof.
  unfold ascending. revert i j. induction kfs as [|k kfs IH]; intros i j Hs Ha Hb Hij.
  { done. }
  rewrite fmap_cons in Hs. apply StronglySorted_inv in Hs as [Hs Hall].
  destruct j as [|j]; [lia|]. destruct i as [|i].
  - simpl in Ha, Hb. simplify_eq. rewrite Forall_fmap, Forall_forall in Hall.
    apply (Hall b). by eapply list_elem_of_lookup_2.
  - simpl in Ha, Hb. eapply (IH i j); [done..|lia].
Qed.

Lemma between_interp a b e :
  (0 <= e <= 1)%R → between a b (a + (b - a) * e).
Proof.
  intros He. unfold between, Rmin, Rmax. destruct (Rle_dec a b); nra.
Qed.

Lemma progress_in_bracket prev next frame :
  kf_frame prev < kf_frame next → kf_frame prev <= frame <= kf_frame next →
  (0 <= progress_of prev next frame <= 1)%R.
Proof.
  intros Hlt Hf. unfold progress_of.
  assert (0 < IZR (kf_frame next - kf_frame prev))%R as Hb by (apply IZR_lt; lia).
  assert (0 <= IZR (frame - kf_frame prev))%R as Ha by (apply IZR_le; lia).
  assert (IZR (frame - kf_frame prev) <= IZR (kf_frame next - kf_frame prev))%R as Hc
    by (apply IZR_le; lia).
  pose proof (Rinv_0_lt_compat _ Hb) as Hi.
  pose proof (Rinv_r (IZR (kf_frame next - kf_frame prev))) as Hr.
  unfold Rdiv. split; nra.
Qed.

(** X2: inside the range of an ascending track the bracket is the adjacent
    pair around the frame, the progress and the eased progress are in the
    unit interval, and every emitted value lies between the value of
    [prev] and the value of [next] (numbers as reals). *)
Theorem interpolate_inside_range track first rest last_ frame :
  tr_keyframes track = first :: rest →
  last rest = Some last_ →
  ascending (tr_keyframes track) →
  kf_frame first <= frame <= kf_frame last_ →
  ∃ i prev next properties,
    findBracket (tr_keyframes track) frame = (i, S i)
    ∧ tr_keyframes track !! i = Some prev
    ∧ tr_keyframes track !! S i = Some next
    ∧ kf_frame prev <= frame <= kf_frame next
    ∧ (0 <= progress_of prev next frame <= 1)%R
    ∧ interpolateTrack frame track = Some (boneUpdate (tr_boneId track) properties)
    ∧ dom properties = dom (kf_properties prev)
    ∧ ∀ key v, properties !! key = Some v →
        between (or_zero (kf_properties prev !! key))
                (or_zero (kf_properties next !! key)) v.
Proof.
  intros Hk Hlast Hasc Hf.
  assert (rest ≠ []) as Hne by (intros ->; done).
  destruct (scan_bracket_in_range 0 first rest frame Hne) as [n Hn]; [lia| |].
  { intros l Hl. destruct rest as [|b r]; [done|].
    change (last (first :: b :: r)) with (last (b :: r)) in Hl.
    rewrite Hlast in Hl. injection Hl as <-. lia. }
  rewrite <- Hk in Hn.
  destruct (scan_bracket_Some _ _ _ _ Hn) as (prev & next & _ & Hp & Hx & Hpf).
  rewrite Nat.sub_0_r in Hp, Hx.
  pose proof (ascending_lookup_lt _ n (S n) prev next Hasc Hp Hx ltac:(lia)) as Hlt.
  pose proof (progress_in_bracket prev next frame Hlt Hpf) as Hprog.
  assert (findBracket (tr_keyframes track) frame = (n, S n)) as Hb
    by (unfold findBracket; by rewrite Hn).
  exists n, prev, next. eexists.
  split; [done|]. split; [done|]. split; [done|]. split; [done|]. split; [done|].
  split.
  { apply (interpolateTrack_bracket frame track n (S n) prev next); try done; try lia.
    rewrite Hk. destruct rest; [done|]. simpl. lia. }
  split.
  { apply set_eq. intros key. rewrite !elem_of_dom. unfold interpolateProperties.
    rewrite map_lookup_imap. destruct (kf_properties prev !! key); simpl; split;
      intros [? ?]; eauto; done. }
  intros key v. unfold interpolateProperties. rewrite map_lookup_imap.
  destruct (kf_properties prev !! key) as [w|] eqn:Ew; simpl; [|done].
  intros [= <-]. apply between_interp.
  by apply applyEasing_range.
Qed.

Lemma interpolate_inside_range_witness :
  ∃ i prev next properties,
    findBracket (tr_keyframes scenario_track) 5 = (i, S i)
    ∧ tr_keyframes scenario_track !! i = Some prev
    ∧ tr_keyframes scenario_track !! S i = Some next
    ∧ kf_frame prev <= 5 <= kf_frame next
    ∧ (0 <= progress_of prev next 5 <= 1)%R
    ∧ interpolateTrack 5 scenario_track = Some (boneUpdate "bone_1" properties)
    ∧ dom properties = dom (kf_properties prev)
    ∧ ∀ key v, properties !! key = Some v →
        between (or_zero (kf_properties prev !! key))
                (or_zero (kf_properties next !! key)) v.
Proof.
  apply (interpolate_inside_range scenario_track scenario_first [scenario_last]
           scenario_last 5); [reflexivity|reflexivity| |simpl; lia].
  unfold ascending. simpl. repeat constructor.
Defined.

(** ** One event per track *)

Lemma scan_bracket_lt i kfs frame n :
  scan_bracket i kfs frame = Some n → (S n < i + length kfs)%nat.
Proof.
  revert i. induction kfs as [|a [|b l] IH]; intros i E; try done.
  rewrite scan_bracket_cons in E.
  destruct ((kf_frame a <=? frame) && (kf_frame b >=? frame)).
  - injection E as <-. simpl. lia.
  - apply IH in E. simpl in *. lia.
Qed.

Lemma interpolateTrack_is_Some frame track :
  is_Some (interpolateTrack frame track) ↔ (2 ≤ length (tr_keyframes track))%nat.
Proof.
  unfold interpolateTrack.
  destruct (length (tr_keyframes track) <? 2)%nat eqn:E.
  { apply Nat.ltb_lt in E. split; [by intros [? ?]|lia]. }
  apply Nat.ltb_ge in E. split; [done|intros _].
  assert (∃ i j, findBracket (tr_keyframes track) frame = (i, j) ∧ i ≠ j
                 ∧ (i < length (tr_keyframes track))%nat
                 ∧ (j < length (tr_keyframes track))%nat) as (i & j & -> & Hij & Hi & Hj).
  { unfold findBracket. destruct (scan_bracket 0 (tr_keyframes track) frame) as [n|] eqn:En.
    - apply scan_bracket_lt in En. exists n, (S n). repeat split; lia.
    - exists 0%nat, (length (tr_keyframes track) - 1)%nat. repeat split; lia. }
  destruct (i =? j)%nat eqn:E'; [apply Nat.eqb_eq in E'; done|].
  destruct (lookup_lt_is_Some_2 _ _ Hi) as [p ->].
  destruct (lookup_lt_is_Some_2 _ _ Hj) as [n ->]. eauto.
Qed.

Lemma interpolateTrack_boneId frame track e :
  interpolateTrack frame track = Some e → event_boneId e = Some (tr_boneId track).
Proof.
  unfold interpolateTrack. destruct (_ <? _)%nat; [done|].
  destruct (findBracket _ _) as [i j]. destruct (i =? j)%nat; [done|].
  destruct (_ !! i); [|done]. destruct (_ !! j); [|done]. by intros [= <-].
Qed.

(** X3: [interpolateFrame] emits one [boneUpdate] for each track that has
    at least two keyframes, in the order of the tracks and addressed to
    the bone of the track, and nothing else; the [continue] on an
    identical bracket is never taken. *)
Theorem interpolateFrame_one_event_per_track frame s :
  omap event_boneId (interpolateFrame frame s) =
    tr_boneId <$> filter (λ t, (2 ≤ length (tr_keyframes t))%nat) (tracks s)
  ∧ length (interpolateFrame frame s) =
      length (filter (λ t, (2 ≤ length (tr_keyframes t))%nat) (tracks s)).
Proof.
  unfold interpolateFrame. induction (tracks s) as [|t ts [IH1 IH2]]; [done|].
  rewrite filter_cons. cbn [omap list_omap].
  pose proof (interpolateTrack_is_Some frame t) as Hs.
  destruct (interpolateTrack frame t) as [e|] eqn:Ee.
  - rewrite decide_True by (apply Hs; eauto).
    pose proof (interpolateTrack_boneId _ _ _ Ee) as Hb.
    split.
    + change (omap event_boneId (e :: omap (interpolateTrack frame) ts))
        with (match event_boneId e with
              | Some b => b :: omap event_boneId (omap (interpolateTrack frame) ts)
              | None => omap event_boneId (omap (interpolateTrack frame) ts)
              end).
      rewrite Hb, IH1. done.
    + simpl. f_equal. exact IH2.
  - rewrite decide_False; [done|].
    intros H. apply Hs in H as [? ?]. done.
Qed.

(** ** The clock *)

(** X4: with an integer for its argument (frame numbers are integers
    here; [NaN] is no frame) [goToFrame] never leaves the current frame
    below 1, puts it at most
    at [totalFrames] when there is at least one frame and at 1 otherwise,
    leaves a frame inside the range as it is, keeps the tracks, announces
    the clamped frame last, and going to the frame reached changes
    nothing. *)
Theorem goToFrame_clamps frame s :
  1 <= currentFrame (fst (goToFrame frame s))
  ∧ (1 <= totalFrames s → currentFrame (fst (goToFrame frame s)) <= totalFrames s)
  ∧ (totalFrames s < 1 → currentFrame (fst (goToFrame frame s)) = 1)
  ∧ (1 <= frame <= totalFrames s → currentFrame (fst (goToFrame frame s)) = frame)
  ∧ tracks (fst (goToFrame frame s)) = tracks s
  ∧ totalFrames (fst (goToFrame frame s)) = totalFrames s
  ∧ last (snd (goToFrame frame s))
      = Some (frameChanged (currentFrame (fst (goToFrame frame s))))
  ∧ fst (goToFrame (currentFrame (fst (goToFrame frame s))) (fst (goToFrame frame s)))
      = fst (goToFrame frame s).
Proof.
  unfold goToFrame. cbn [fst snd currentFrame totalFrames tracks set_currentFrame].
  repeat split; try lia.
  - by rewrite last_snoc.
  - unfold set_currentFrame. cbn. f_equal. lia.
Qed.

Lemma goToFrame_clamps_witness :
  currentFrame (fst (goToFrame 500 initial)) = 300.
Proof.
  destruct (goToFrame_clamps 500 initial) as (_ & H & _).
  pose proof (H ltac:(simpl; lia)) as Hle.
  simpl in *. lia.
Defined.

(** ** Playback period *)

Lemma ticks_frame n s :
  1 <= currentFrame s <= totalFrames s →
  currentFrame (ticks n s) =
    (currentFrame s - 1 + Z.of_nat n) mod totalFrames s + 1.
Proof.
  revert s. induction n as [|n IH]; intros s H.
  - cbn [ticks]. rewrite Z.add_0_r, Z.mod_small by lia. lia.
  - cbn [ticks]. destruct (tick_currentFrame s H) as [Hc Ht].
    rewrite IH, Ht, Hc by (rewrite Ht, Hc; destruct (_ <? _) eqn:E; lia).
    destruct (currentFrame s <? totalFrames s) eqn:E.
    + replace (currentFrame s + 1 - 1 + Z.of_nat n)
        with (currentFrame s - 1 + Z.of_nat (S n)) by lia. done.
    + apply Z.ltb_ge in E.
      replace (currentFrame s - 1 + Z.of_nat (S n))
        with (1 - 1 + Z.of_nat n + 1 * totalFrames s) by lia.
      by rewrite Z_mod_plus_full.
Qed.

(** X5: playback is periodic: from a current frame inside the range, after
    [n] firings of the interval the current frame is
    [(currentFrame - 1 + n) mod totalFrames + 1], so [totalFrames]
    firings bring the playhead back to the frame it started from. *)
Theorem ticks_period n s :
  1 <= currentFrame s <= totalFrames s →
  currentFrame (ticks n s) =
    (currentFrame s - 1 + Z.of_nat n) mod totalFrames s + 1
  ∧ currentFrame (ticks (n + Z.to_nat (totalFrames s)) s) = currentFrame (ticks n s).
Proof.
  intros H. split; [by apply ticks_frame|].
  rewrite !ticks_frame by done. f_equal.
  rewrite Nat2Z.inj_add, Z2Nat.id by lia.
  replace (currentFrame s - 1 + (Z.of_nat n + totalFrames s))
    with (currentFrame s - 1 + Z.of_nat n + 1 * totalFrames s) by lia.
  by rewrite Z_mod_plus_full.
Qed.

Lemma ticks_period_witness :
  currentFrame (ticks (5 + Z.to_nat (totalFrames initial)) initial)
  = currentFrame (ticks 5 initial).
Proof.
  apply (ticks_period 5 initial). simpl. lia.
Defined.

(** ** Pixels and frames *)

(** X6: a click in the keyframe area lands on the frame whose marker is
    nearest: at most 10 pixels left of, and less than 10 pixels right of,
    the marker of [frame], the handler computes [frame]. *)
Theorem frameAtClick_keyframeLeft frame (d : R) :
  (-10 <= d < 10)%R →
  frameAtClick (IZR (keyframeLeft frame) + d) = frame.
Proof.
  intros Hd. unfold frameAtClick, round, keyframeLeft.
  assert (Int_part ((IZR ((frame - 1) * 20) + d) / 20 + 1 / 2) = frame - 1) as ->; [|lia].
  symmetry. apply Int_part_spec.
  rewrite mult_IZR, !minus_IZR. lra.
Qed.

Lemma frameAtClick_keyframeLeft_witness :
  frameAtClick (IZR (keyframeLeft 7) + 9.5) = 7.
Proof.
  apply (frameAtClick_keyframeLeft 7 9.5). lra.
Defined.

(** ** The track map *)

Lemma tracks_get_set_eq ts t : tracks_get (tracks_set ts t) (tr_id t) = Some t.
Proof.
  induction ts as [|a ts IH]; cbn [tracks_set tracks_get].
  - by rewrite decide_True.
  - destruct (decide (tr_id a = tr_id t)) as [E|E]; cbn [tracks_get].
    + by rewrite decide_True.
    + by rewrite decide_False.
Qed.

Lemma tracks_get_set_ne ts t id :
  id ≠ tr_id t → tracks_get (tracks_set ts t) id = tracks_get ts id.
Proof.
  intros Hne. induction ts as [|a ts IH]; cbn [tracks_set tracks_get].
  - by rewrite decide_False.
  - destruct (decide (tr_id a = tr_id t)) as [E|E]; cbn [tracks_get].
    + rewrite !decide_False by congruence. done.
    + rewrite IH. done.
Qed.

Lemma tracks_set_ids ts t :
  tr_id <$> tracks_set ts t =
    if decide (tr_id t ∈ tr_id <$> ts) then tr_id <$> ts
    else (tr_id <$> ts) ++ [tr_id t].
Proof.
  induction ts as [|a ts IH]; cbn [tracks_set fmap list_fmap].
  - rewrite decide_False; [done|]. apply not_elem_of_nil.
  - destruct (decide (tr_id a = tr_id t)) as [E|E]; cbn [fmap list_fmap].
    + rewrite decide_True by (rewrite E; left). by rewrite E.
    + change (list_fmap Track string tr_id) with (fmap (M:=list) tr_id).
      rewrite IH. destruct (decide (tr_id t ∈ tr_id <$> ts)) as [Hin|Hin].
      * rewrite decide_True by (by right). done.
      * rewrite decide_False; [done|]. rewrite elem_of_cons. intros [Heq|Hin']; [by apply E|by apply Hin].
Qed.

Lemma tracks_set_NoDup ts t :
  NoDup (tr_id <$> ts) → NoDup (tr_id <$> tracks_set ts t).
Proof.
  intros H. rewrite tracks_set_ids. destruct (decide _); [done|].
  apply NoDup_app. split; [done|]. split; [|apply NoDup_singleton].
  intros x Hx Hx'. apply list_elem_of_singleton in Hx'. by subst.
Qed.

Lemma tracks_set_Forall (P : Track → Prop) ts t :
  Forall P ts → P t → Forall P (tracks_set ts t).
Proof.
  intros H Ht. induction H as [|a ts Ha H IH]; cbn [tracks_set].
  - by constructor.
  - destruct (decide _); by constructor.
Qed.

(** X7: [createTrack] files the new, empty track under its id and leaves
    every other id as it was; when the id is already taken (a second
    track made within the same millisecond) the track of that id is
    replaced, keyframes and all, and the number of tracks stays, else the
    track is appended. *)
Theorem createTrack_files_track now name boneId s :
  let s' := fst (createTrack now name boneId s) in
  let track := snd (createTrack now name boneId s) in
  tr_id track = "track_" +:+ now
  ∧ tr_keyframes track = []
  ∧ tracks_get (tracks s') (tr_id track) = Some track
  ∧ (∀ id, id ≠ tr_id track → tracks_get (tracks s') id = tracks_get (tracks s) id)
  ∧ tr_id <$> tracks s' =
      (if decide (tr_id track ∈ tr_id <$> tracks s) then tr_id <$> tracks s
       else (tr_id <$> tracks s) ++ [tr_id track]).
Proof.
  cbn zeta. unfold createTrack. cbn [fst snd tracks set_tracks tr_id tr_keyframes].
  repeat split.
  - apply (tracks_get_set_eq (tracks s)).
  - intros id Hne. by apply tracks_get_set_ne.
  - apply (tracks_set_ids (tracks s)).
Qed.

Lemma createTrack_files_track_witness :
  tracks_get (tracks (fst (createTrack "9" "leg" "bone_c" scenario))) "track_1"
  = tracks_get (tracks scenario) "track_1".
Proof.
  destruct (createTrack_files_track "9" "leg" "bone_c" scenario) as (_ & _ & _ & H & _).
  apply H. done.
Defined.

(** ** Keyframes *)

Lemma set_keyframes_same t : set_keyframes (tr_keyframes t) t = t.
Proof. by destruct t. Qed.

Lemma set_tracks_same s : set_tracks (tracks s) s = s.
Proof. by destruct s. Qed.

Lemma deleteKeyframe_loop_middle ts1 t ts2 pre kf post :
  kf_id kf ∉ (kf_id <$> all_keyframes ts1) →
  kf_id kf ∉ (kf_id <$> pre) →
  tr_keyframes t = pre ++ kf :: post →
  deleteKeyframe_loop (ts1 ++ t :: ts2) (kf_id kf) =
    Some (ts1 ++ set_keyframes (pre ++ post) t :: ts2).
Proof.
  intros H1 Hpre Hk. induction ts1 as [|a ts1 IH].
  - cbn [app deleteKeyframe_loop]. rewrite Hk.
    rewrite (list_find_middle (λ k, kf_id k = kf_id kf) pre post kf); [|done|].
    + by rewrite delete_middle.
    + apply Forall_forall. intros y Hy Hid. apply Hpre.
      apply list_elem_of_fmap. eauto.
  - cbn [app deleteKeyframe_loop].
    change (all_keyframes (a :: ts1)) with (tr_keyframes a ++ all_keyframes ts1) in H1.
    rewrite fmap_app, elem_of_app in H1.
    assert (list_find (λ k, kf_id k = kf_id kf) (tr_keyframes a) = None) as ->.
    { apply list_find_None, Forall_forall. intros y Hy Hid. apply H1. left.
      apply list_elem_of_fmap. eauto. }
    rewrite IH by tauto. done.
Qed.

Lemma insert_by_frame_front k l :
  Forall (λ k', kf_frame k <= kf_frame k') l → insert_by_frame k l = k :: l.
Proof.
  destruct l as [|a l]; [done|]. intros H. apply Forall_cons in H as [H _].
  cbn [insert_by_frame]. apply Z.leb_le in H. by rewrite H.
Qed.

(** Where the sort puts a keyframe whose frame is new to an ascending
    array. *)
Lemma sort_new_frame kfs k :
  ascending kfs → Forall (λ k', kf_frame k' ≠ kf_frame k) kfs →
  ∃ pre post, sort_by_frame (kfs ++ [k]) = pre ++ k :: post ∧ kfs = pre ++ post.
Proof.
  unfold sort_by_frame. rewrite foldr_app. cbn [foldr insert_by_frame].
  induction kfs as [|a l IH]; intros Hasc Hne.
  - exists [], []. done.
  - unfold ascending in Hasc. cbn [fmap list_fmap] in Hasc.
    apply StronglySorted_inv in Hasc as [Hasc Ha].
    apply Forall_cons in Hne as [Hak Hne].
    destruct (IH Hasc Hne) as (pre & post & E & ->). cbn [foldr]. rewrite E.
    rewrite fmap_app, Forall_app in Ha. destruct Ha as [Hpre Hpost].
    destruct pre as [|p pre].
    + cbn [app insert_by_frame]. destruct (kf_frame a <=? kf_frame k) eqn:Hle.
      * exists [a], post. done.
      * exists [], (a :: post). rewrite insert_by_frame_front; [done|].
        rewrite Forall_fmap in Hpost. eapply Forall_impl; [exact Hpost|].
        cbn. intros; lia.
    + exists (a :: p :: pre), post. split; [|done].
      cbn [app insert_by_frame]. apply Forall_cons in Hpre as [Hp _].
      assert ((kf_frame a <=? kf_frame p) = true) as -> by (apply Z.leb_le; lia). done.
Qed.

(** X8: adding a keyframe at a frame that the track does not have yet and
    deleting the keyframe that was returned gives back the timeline as it
    was, when the generated id is not the id of a keyframe in place. *)
Theorem addKeyframe_deleteKeyframe now trackId frame props s track :
  tracks_get (tracks s) trackId = Some track →
  ascending (tr_keyframes track) →
  Forall (λ k, kf_frame k ≠ frame) (tr_keyframes track) →
  (("kf_" +:+ now) ∉ (kf_id <$> all_keyframes (tracks s))) →
  ∃ s' k,
    addKeyframe now trackId frame props s = Ok (s', k)
    ∧ kf_frame k = frame
    ∧ kf_boneId k = tr_boneId track
    ∧ kf_properties k = default ∅ props
    ∧ k ∈ all_keyframes (tracks s')
    ∧ deleteKeyframe (kf_id k) s' = s.
Proof.
  intros Hget Hasc Hnew Hid. unfold addKeyframe. rewrite Hget.
  assert (list_find (λ kf, kf_frame kf = frame) (tr_keyframes track) = None) as ->.
  { by apply list_find_None. }
  set (k := {| kf_id := "kf_" +:+ now; kf_frame := frame |}).
  eexists _, k. split; [reflexivity|]. repeat split.
  - destruct (tracks_get_split _ _ _ Hget) as (ts1 & ts2 & Hts & Htid & Hts1).
    destruct (sort_new_frame (tr_keyframes track) k Hasc Hnew) as (pre & post & Hs & Hk).
    cbn [tracks set_tracks]. rewrite Hts.
    rewrite tracks_set_middle; [|by cbn [tr_id set_keyframes]; rewrite Htid|done].
    rewrite all_keyframes_middle. cbn [tr_keyframes set_keyframes]. rewrite Hs.
    set_solver.
  - destruct (tracks_get_split _ _ _ Hget) as (ts1 & ts2 & Hts & Htid & Hts1).
    destruct (sort_new_frame (tr_keyframes track) k Hasc Hnew) as (pre & post & Hs & Hk).
    unfold deleteKeyframe. cbn [tracks set_tracks]. rewrite Hts.
    rewrite tracks_set_middle; [|by cbn [tr_id set_keyframes]; rewrite Htid|done].
    rewrite Hts, all_keyframes_middle, Hk, !fmap_app, !elem_of_app in Hid.
    rewrite (deleteKeyframe_loop_middle ts1 _ ts2 pre k post); [| | |].
    + cbn [tr_id tr_name tr_boneId tr_isVisible tr_isLocked set_keyframes].
      rewrite <- Hk. 
      change (set_tracks (ts1 ++ set_keyframes (tr_keyframes track) track :: ts2)
                (set_tracks (ts1 ++ track :: ts2) s) = s) || idtac.
      rewrite <- (set_tracks_same s) at 2. rewrite Hts.
      unfold set_tracks. cbn. repeat f_equal. by destruct track.
    + cbn [kf_id k]. tauto.
    + cbn [kf_id k]. tauto.
    + cbn [tr_keyframes set_keyframes]. exact Hs.
Qed.

(** X9: two updates of a keyframe compose: the second update of the same
    id succeeds as well, and the pair leaves the timeline that the one
    update with the second properties laid over the first leaves; an
    update repeated changes nothing more. *)
Theorem updateKeyframe_twice id p1 p2 s s1 k1 :
  updateKeyframe id p1 s = Ok (s1, k1) →
  ∃ s2 k2,
    updateKeyframe id p2 s1 = Ok (s2, k2)
    ∧ updateKeyframe id (Some (default ∅ p2 ∪ default ∅ p1)) s = Ok (s2, k2)
    ∧ kf_properties k2 = default ∅ p2 ∪ kf_properties k1
    ∧ updateKeyframe id p1 s1 = Ok (s1, k1).
Proof.
  unfold updateKeyframe.
  destruct (keyframe_loops (tracks s) id p1)
    as [(_ & -> & _)|(ts1 & t & ts2 & pre & kf & post & Hts & Hk & Hid & Hfresh & Hu & _)];
    [done|].
  rewrite Hu. cbn zeta. intros [= <- <-]. cbn [tracks set_tracks].
  rewrite fmap_app, elem_of_app in Hfresh.
  set (kf1 := set_properties (merge_properties (kf_properties kf) p1) kf).
  assert (kf_id kf1 = id) as Hid1 by done.
  assert (∀ p, updateKeyframe_loop (ts1 ++ set_keyframes (pre ++ kf1 :: post) t :: ts2) id p
             = Some (ts1 ++ set_keyframes (pre ++
                  set_properties (merge_properties (kf_properties kf1) p) kf1 :: post) t :: ts2,
                  set_properties (merge_properties (kf_properties kf1) p) kf1)) as Hsecond.
  { intros p. rewrite <- Hid1.
    rewrite (updateKeyframe_loop_middle ts1 _ ts2 pre kf1 post p);
      [|rewrite Hid1; tauto|rewrite Hid1; tauto|done].
    cbn zeta. by destruct t. }
  assert (updateKeyframe_loop (tracks s) id (Some (default ∅ p2 ∪ default ∅ p1))
          = Some (ts1 ++ set_keyframes (pre ++
                  set_properties (merge_properties (kf_properties kf)
                     (Some (default ∅ p2 ∪ default ∅ p1))) kf :: post) t :: ts2,
                  set_properties (merge_properties (kf_properties kf)
                     (Some (default ∅ p2 ∪ default ∅ p1))) kf)) as Hboth.
  { rewrite Hts, <- Hid.
    rewrite (updateKeyframe_loop_middle ts1 t ts2 pre kf post);
      [done|rewrite Hid; tauto|rewrite Hid; tauto|done]. }
  assert (set_properties (merge_properties (kf_properties kf1) p2) kf1
          = set_properties (merge_properties (kf_properties kf)
                     (Some (default ∅ p2 ∪ default ∅ p1))) kf) as Hmerge.
  { unfold set_properties, kf1. cbn. unfold merge_properties. cbn [default].
    by rewrite (assoc_L (∪)). }
  assert (set_properties (merge_properties (kf_properties kf1) p1) kf1 = kf1) as Hidem.
  { unfold set_properties, kf1. cbn. unfold merge_properties.
    by rewrite (assoc_L (∪)), (idemp_L (∪)). }
  eexists _, _. rewrite (Hsecond p2). split; [reflexivity|].
  rewrite Hboth, Hmerge. split; [|split].
  - unfold set_tracks. cbn. done.
  - rewrite <- Hmerge. done.
  - rewrite (Hsecond p1), Hidem. unfold set_tracks. cbn. done.
Qed.

Lemma addKeyframe_deleteKeyframe_witness :
  ∃ s' k,
    addKeyframe "3" "track_1" 5 None scenario = Ok (s', k)
    ∧ kf_frame k = 5
    ∧ kf_boneId k = tr_boneId scenario_track
    ∧ kf_properties k = default ∅ None
    ∧ k ∈ all_keyframes (tracks s')
    ∧ deleteKeyframe (kf_id k) s' = scenario.
Proof.
  apply (addKeyframe_deleteKeyframe "3" "track_1" 5 None scenario scenario_track).
  - reflexivity.
  - unfold ascending. simpl. repeat constructor.
  - simpl. repeat constructor; simpl; lia.
  - simpl. intros H.
    repeat (apply elem_of_cons in H as [H|H]; [discriminate|]).
    by apply elem_of_nil in H.
Defined.

Lemma updateKeyframe_twice_witness :
  ∃ s2 k2,
    updateKeyframe "kf_1" (Some {[ "y" := 2%R ]}) scenario = Ok (s2, k2)
    ∧ updateKeyframe "kf_1" (Some (default ∅ (Some {[ "y" := 2%R ]}) ∪ default ∅ None))
        scenario = Ok (s2, k2)
    ∧ kf_properties k2 = default ∅ (Some {[ "y" := 2%R ]}) ∪ kf_properties scenario_first
    ∧ updateKeyframe "kf_1" None scenario = Ok (scenario, scenario_first).
Proof.
  apply (updateKeyframe_twice "kf_1" None (Some {[ "y" := 2%R ]})
           scenario scenario scenario_first).
  vm_compute. reflexivity.
Defined.


(** ** What every reachable timeline satisfies *)

Lemma ascending_delete pre kf post :
  ascending (pre ++ kf :: post) → ascending (pre ++ post).
Proof.
  unfold ascending. induction pre as [|a pre IH]; cbn [app fmap list_fmap]; intros H.
  - by apply StronglySorted_inv in H as [H _].
  - apply StronglySorted_inv in H as [H Ha]. constructor; [by apply IH|].
    change (list_fmap Keyframe Z kf_frame) with (fmap (M:=list) kf_frame) in *.
    rewrite fmap_app, Forall_app in Ha |- *. cbn [fmap list_fmap] in Ha.
    destruct Ha as [H1 H2]. apply Forall_cons in H2 as [_ H2]. done.
Qed.

Lemma track_ok_update pre kf post t p :
  tr_keyframes t = pre ++ kf :: post → track_ok t →
  track_ok (set_keyframes (pre ++ set_properties p kf :: post) t).
Proof.
  intros Hk [Hasc Hb]. rewrite Hk in Hasc, Hb. split.
  - unfold ascending in *. cbn [tr_keyframes set_keyframes].
    rewrite fmap_app in Hasc |- *. done.
  - cbn [tr_keyframes set_keyframes tr_boneId].
    rewrite Forall_app, Forall_cons in Hb |- *. done.
Qed.

Lemma track_ok_delete pre kf post t :
  tr_keyframes t = pre ++ kf :: post → track_ok t →
  track_ok (set_keyframes (pre ++ post) t).
Proof.
  intros Hk [Hasc Hb]. rewrite Hk in Hasc, Hb. split.
  - cbn [tr_keyframes set_keyframes]. by eapply ascending_delete.
  - cbn [tr_keyframes set_keyframes tr_boneId].
    rewrite Forall_app, Forall_cons in Hb. rewrite Forall_app. tauto.
Qed.

Lemma track_ok_add t k :
  track_ok t → kf_boneId k = tr_boneId t →
  Forall (λ k', kf_frame k' ≠ kf_frame k) (tr_keyframes t) →
  track_ok (set_keyframes (sort_by_frame (tr_keyframes t ++ [k])) t).
Proof.
  intros [Hasc Hb] Hk Hnew. split; cbn [tr_keyframes set_keyframes tr_boneId].
  - apply sorted_NoDup_ascending; [apply sort_by_frame_sorted|].
    rewrite (sort_by_frame_perm _), fmap_app. cbn [fmap list_fmap].
    apply NoDup_app. split; [by apply ascending_NoDup|].
    split; [|apply NoDup_singleton].
    intros x Hx Hx'. apply list_elem_of_singleton in Hx' as ->.
    apply list_elem_of_fmap in Hx as (k' & Hf & Hin).
    rewrite Forall_forall in Hnew. by apply (Hnew k').
  - rewrite (sort_by_frame_perm _), Forall_app, Forall_singleton. done.
Qed.

Lemma updateKeyframe_loop_keeps ts id p ts' k :
  updateKeyframe_loop ts id p = Some (ts', k) →
  (Forall track_ok ts → Forall track_ok ts') ∧ tr_id <$> ts' = tr_id <$> ts.
Proof.
  destruct (keyframe_loops ts id p)
    as [(_ & -> & _)|(ts1 & t & ts2 & pre & kf & post & -> & Hk & _ & _ & -> & _)];
    [done|].
  cbn zeta. intros [= <- <-]. split.
  - rewrite !Forall_app, !Forall_cons. intros (? & ? & ?).
    split; [done|]. split; [|done]. by apply track_ok_update.
  - by rewrite !fmap_app.
Qed.

Lemma deleteKeyframe_loop_keeps ts id ts' :
  deleteKeyframe_loop ts id = Some ts' →
  (Forall track_ok ts → Forall track_ok ts') ∧ tr_id <$> ts' = tr_id <$> ts.
Proof.
  destruct (keyframe_loops ts id None)
    as [(_ & _ & ->)|(ts1 & t & ts2 & pre & kf & post & -> & Hk & _ & _ & _ & ->)];
    [done|].
  intros [= <-]. split.
  - rewrite !Forall_app, !Forall_cons. intros (? & ? & ?).
    split; [done|]. split; [|done]. by eapply track_ok_delete.
  - by rewrite !fmap_app.
Qed.

Lemma updateKeyframe_ok id p s s' k :
  timeline_ok s → updateKeyframe id p s = Ok (s', k) → timeline_ok s'.
Proof.
  intros (Ht & Hn & Hf) E. unfold updateKeyframe in E.
  destruct (updateKeyframe_loop (tracks s) id p) as [[ts k']|] eqn:El; [|done].
  injection E as <- <-. apply updateKeyframe_loop_keeps in El as [H1 H2].
  split; [by apply H1|]. split; [cbn [tracks set_tracks]; by rewrite H2|done].
Qed.

Lemma tracks_get_elem_of ts id t : tracks_get ts id = Some t → t ∈ ts.
Proof.
  intros H. apply tracks_get_split in H as (ts1 & ts2 & -> & _). set_solver.
Qed.

Lemma goToFrame_ok frame s : timeline_ok s → timeline_ok (fst (goToFrame frame s)).
Proof.
  intros (Ht & Hn & Hf & Htot & Hfps). unfold goToFrame, timeline_ok.
  cbn [fst tracks currentFrame totalFrames fps set_currentFrame].
  repeat split; try done; lia.
Qed.

Lemma exec_timeline_ok op s : timeline_ok s → timeline_ok (exec_timeline op s).
Proof.
  intros Hok. destruct op; cbn [exec_timeline].
  - destruct Hok as (Ht & Hn & Hf). unfold createTrack. cbn [fst].
    split; [|split; [|done]]; cbn [tracks set_tracks].
    + apply tracks_set_Forall; [done|]. split; cbn; [constructor|constructor].
    + by apply tracks_set_NoDup.
  - unfold addKeyframe.
    destruct (tracks_get (tracks s) trackId) as [track|] eqn:Hget; [|done].
    destruct (list_find _ (tr_keyframes track)) as [[i existing]|] eqn:Hfind.
    + destruct (updateKeyframe _ _ s) as [[s' k]|] eqn:E; [|done].
      by eapply updateKeyframe_ok.
    + destruct Hok as (Ht & Hn & Hf).
      split; [|split; [|done]]; cbn [tracks set_tracks].
      * apply tracks_set_Forall; [done|]. apply track_ok_add.
        -- rewrite Forall_forall in Ht. apply Ht. by eapply tracks_get_elem_of.
        -- done.
        -- cbn [kf_frame]. by apply list_find_None in Hfind.
      * by apply tracks_set_NoDup.
  - destruct (updateKeyframe _ _ s) as [[s' k]|] eqn:E; [|done].
    by eapply updateKeyframe_ok.
  - unfold deleteKeyframe.
    destruct (deleteKeyframe_loop (tracks s) keyframeId) as [ts|] eqn:El; [|done].
    apply deleteKeyframe_loop_keeps in El as [H1 H2].
    destruct Hok as (Ht & Hn & Hf).
    split; [by apply H1|]. split; [cbn [tracks set_tracks]; by rewrite H2|done].
  - by apply goToFrame_ok.
  - unfold selectKeyframe.
    pose proof (goToFrame_ok (kf_frame keyframe) s Hok) as H.
    by destruct (goToFrame (kf_frame keyframe) s).
  - unfold tick. destruct (_ >=? _); by apply goToFrame_ok.
  - unfold play. by destruct (isPlaying s).
  - done.
  - unfold togglePlay, play. by destruct (isPlaying s).
Qed.

(** X10: whatever operations are called on a new timeline, in whatever
    order, with whatever clock readings and with whatever arguments whose
    frame numbers are integers ([NaN] is no frame), every track
    keeps its keyframes at strictly ascending frames (sorted, at most one
    keyframe per frame), every keyframe carries the [boneId] of its
    track, the ids of the tracks are pairwise different, and the current
    frame stays between 1 and [totalFrames], which stays 300 as the frame
    rate stays 24. *)
Theorem reachable_timeline_ok s :
  reachable_timeline s →
  Forall track_ok (tracks s)
  ∧ NoDup (tr_id <$> tracks s)
  ∧ 1 <= currentFrame s <= totalFrames s
  ∧ totalFrames s = 300
  ∧ fps s = 24.
Proof.
  intros H. change (timeline_ok s). induction H as [|s op _ IH].
  - repeat split; cbn; try lia; constructor.
  - by apply exec_timeline_ok.
Qed.

Lemma reachable_timeline_ok_witness :
  Forall track_ok
    (tracks (exec_timeline (OpAddKeyframe "8" "track_1" 10 None)
               (exec_timeline (OpAddKeyframe "7" "track_1" 1 None)
                  (exec_timeline (OpCreateTrack "1" "arm" "bone_a") initial)))).
Proof.
  apply (reachable_timeline_ok
           (exec_timeline (OpAddKeyframe "8" "track_1" 10 None)
              (exec_timeline (OpAddKeyframe "7" "track_1" 1 None)
                 (exec_timeline (OpCreateTrack "1" "arm" "bone_a") initial)))).
  repeat apply reachable_timeline_step. apply reachable_timeline_initial.
Defined.

(** ** Saving and loading *)

Lemma tracks_set_fresh ts t :
  tr_id t ∉ (tr_id <$> ts) → tracks_set ts t = ts ++ [t].
Proof.
  induction ts as [|a ts IH]; cbn [tracks_set fmap list_fmap app]; [done|].
  rewrite not_elem_of_cons. intros [Hne Hin].
  rewrite decide_False by done. by rewrite IH.
Qed.

Lemma foldl_tracks_set acc l :
  NoDup (tr_id <$> acc ++ l) → foldl tracks_set acc l = acc ++ l.
Proof.
  revert acc. induction l as [|a l IH]; intros acc Hnd; cbn [foldl].
  - by rewrite app_nil_r.
  - rewrite tracks_set_fresh.
    + rewrite IH; rewrite <- app_assoc; done.
    + rewrite fmap_app in Hnd. apply NoDup_app in Hnd as (_ & Hd & _).
      intros Hin. apply (Hd _ Hin). cbn. left.
Qed.

(** X11: loading what [serialize] returned restores the tracks, the current
    frame, the number of frames and the frame rate, whatever timeline it
    is loaded into, provided the track ids are pairwise different, the
    current frame is in the range and the frame rate is not 0; the
    playing flag is the one of the timeline loaded into; the events are
    those of [goToFrame] at the saved frame. *)
Theorem deserialize_serialize s s0 :
  NoDup (tr_id <$> tracks s) →
  1 <= currentFrame s <= totalFrames s →
  fps s ≠ 0 →
  let s' := fst (deserialize (serialize s) s0) in
  tracks s' = tracks s
  ∧ currentFrame s' = currentFrame s
  ∧ totalFrames s' = totalFrames s
  ∧ fps s' = fps s
  ∧ isPlaying s' = isPlaying s0
  ∧ serialize s' = serialize s
  ∧ snd (deserialize (serialize s) s0) =
      interpolateFrame (currentFrame s) s' ++ [frameChanged (currentFrame s)].
Proof.
  intros Hnd Hf Hfps. cbn zeta. unfold deserialize, serialize, goToFrame.
  cbn [snap_tracks snap_currentFrame snap_totalFrames snap_fps fst snd
       tracks currentFrame totalFrames fps isPlaying set_currentFrame or_default].
  rewrite (foldl_tracks_set [] (tracks s)) by done. cbn [app].
  rewrite !decide_False by lia.
  replace (Z.max 1 (Z.min (totalFrames s) (currentFrame s))) with (currentFrame s) by lia.
  done.
Qed.

Lemma deserialize_serialize_witness :
  tracks (fst (deserialize (serialize scenario) initial)) = tracks scenario.
Proof.
  apply (deserialize_serialize scenario initial).
  - simpl. apply NoDup_singleton.
  - simpl. lia.
  - simpl. lia.
Defined.

End TimelineOpsFacts.

(** * Facts about the viewport *)

Module GraphicsFacts.
Import Graphics.
Open Scope R_scope.

Lemma setZoom_range zoom g : 0.1 <= vp_zoom (viewport (setZoom zoom g)) <= 5.
Proof.
  unfold setZoom. cbn [viewport vp_zoom]. unfold Rmax, Rmin.
  repeat destruct (Rle_dec _ _); lra.
Qed.

Lemma exec_zoom_range op g :
  0.1 <= vp_zoom (viewport g) <= 5 → 0.1 <= vp_zoom (viewport (exec_view op g)) <= 5.
Proof.
  intros H. destruct op; cbn [exec_view].
  - apply setZoom_range.
  - apply setZoom_range.
  - done.
  - cbn. lra.
  - done.
Qed.

Lemma run_snoc ops op g : run (ops ++ [op]) g = exec_view op (run ops g).
Proof. unfold run. by rewrite foldl_app. Qed.

Lemma zoom_range ops : 0.1 <= vp_zoom (viewport (run ops initial_engine)) <= 5.
Proof.
  induction ops as [|op ops IH] using rev_ind.
  - cbn. lra.
  - rewrite run_snoc. by apply exec_zoom_range.
Qed.

(** X12: the zoom never leaves the interval from 0.1 to 5: whatever
    sequence of [setZoom], wheel events, [pan], [resetView] and
    [toggleGrid] the engine goes through from its initial state, with
    whatever arguments; a zoom asked for inside the interval is taken as
    it is, and [pan] and [toggleGrid] leave the zoom alone. *)
Theorem zoom_stays_in_range ops :
  0.1 <= vp_zoom (viewport (run ops initial_engine)) <= 5
  ∧ (∀ zoom, 0.1 <= zoom <= 5 →
       vp_zoom (viewport (run (ops ++ [OpSetZoom zoom]) initial_engine)) = zoom)
  ∧ (∀ dx dy, vp_zoom (viewport (run (ops ++ [OpPan dx dy; OpToggleGrid]) initial_engine))
       = vp_zoom (viewport (run ops initial_engine))).
Proof.
  split; [|split].
  - apply zoom_range.
  - intros zoom Hz. rewrite run_snoc. cbn [exec_view setZoom viewport vp_zoom].
    unfold Rmax, Rmin. repeat destruct (Rle_dec _ _); lra.
  - intros dx dy. unfold run. rewrite foldl_app. done.
Qed.

Lemma zoom_stays_in_range_witness :
  vp_zoom (viewport (run ([OpWheel 1; OpSetZoom 70] ++ [OpSetZoom 2]) initial_engine)) = 2.
Proof.
  destruct (zoom_stays_in_range [OpWheel 1; OpSetZoom 70]) as (_ & H & _).
  apply H. lra.
Defined.

(** X13: the wheel zooms in one direction: once the zoom is in its
    interval, a wheel event with a positive [deltaY] never enlarges the
    zoom and leaves it as it is only at 0.1, and any other wheel event
    (a [deltaY] of 0 included) never reduces it and leaves it as it is
    only at 5. *)
Theorem wheel_direction ops deltaY :
  let g := run ops initial_engine in
  (0 < deltaY →
     vp_zoom (viewport (wheel deltaY g)) <= vp_zoom (viewport g)
     ∧ (vp_zoom (viewport (wheel deltaY g)) = vp_zoom (viewport g) →
        vp_zoom (viewport g) = 0.1))
  ∧ (deltaY <= 0 →
     vp_zoom (viewport g) <= vp_zoom (viewport (wheel deltaY g))
     ∧ (vp_zoom (viewport (wheel deltaY g)) = vp_zoom (viewport g) →
        vp_zoom (viewport g) = 5)).
Proof.
  cbn zeta. destruct (zoom_range ops) as [Hlo Hhi].
  unfold wheel, setZoom. cbn [viewport vp_zoom].
  split; intros Hd; destruct (Rlt_dec 0 deltaY); try lra; unfold Rmax, Rmin;
    repeat destruct (Rle_dec _ _); lra.
Qed.

Lemma wheel_direction_witness :
  vp_zoom (viewport (wheel 3 (run [OpSetZoom 2] initial_engine)))
  <= vp_zoom (viewport (run [OpSetZoom 2] initial_engine)).
Proof.
  destruct (wheel_direction [OpSetZoom 2] 3) as [H _]. apply H. lra.
Defined.

End GraphicsFacts.

(** * Further facts about the bone hierarchy *)

Module BonesSpecFacts.
Import Bones BonesSpec BonesFacts.
Open Scope R_scope.

(** ** Geometry of a bone *)

(** X14: the end of a bone lies at the distance of the absolute value of
    its length from its start, whatever the angle (numbers as reals). *)
Theorem getBoneEnd_distance b : distance (getBoneStart b) (getBoneEnd b) = Rabs (bone_length b).
Proof.
  unfold distance, getBoneEnd, getBoneStart, hypot. cbn [vx vy].
  replace ((bone_x b + cos (bone_angle b) * bone_length b - bone_x b)
           * (bone_x b + cos (bone_angle b) * bone_length b - bone_x b)
           + (bone_y b + sin (bone_angle b) * bone_length b - bone_y b)
             * (bone_y b + sin (bone_angle b) * bone_length b - bone_y b))
    with ((bone_length b)²).
  - apply sqrt_Rsqr_abs.
  - unfold Rsqr. pose proof (sin2_cos2 (bone_angle b)) as H. unfold Rsqr in H.
    transitivity (bone_length b * bone_length b
                  * (sin (bone_angle b) * sin (bone_angle b)
                     + cos (bone_angle b) * cos (bone_angle b))); [|ring].
    rewrite H. ring.
Qed.

(** ** Creating a bone under a parent *)

(** X15: a bone created under an existing parent starts at the end of the
    parent, whatever [x] and [y] were passed, and is appended to the
    children of the parent; the bone returned is the one stored; no other
    bone changes. *)
Theorem createBone_under_parent id name x y len angle type pid parent st :
  bones st !! pid = Some parent → pid ≠ id → pid ≠ EmptyString →
  let st' := fst (createBone id name x y len angle type (Some pid) st) in
  let bone := snd (createBone id name x y len angle type (Some pid) st) in
  bones st' !! id = Some bone
  ∧ getBoneStart bone = getBoneEnd parent
  ∧ bone_parentId bone = Some pid
  ∧ bone_children bone = []
  ∧ bone_angle bone = angle ∧ bone_length bone = len
  ∧ bones st' !! pid = Some (set_children (bone_children parent ++ [id]) parent)
  ∧ (∀ k, k ≠ id → k ≠ pid → bones st' !! k = bones st !! k)
  ∧ selectedBoneId st' = selectedBoneId st.
Proof.
  intros Hp Hne Hpid. cbn zeta. unfold createBone.
  rewrite truthy_is_Some by done.
  rewrite lookup_insert_ne, Hp by done.
  cbn [fst snd bones set_bones selectedBoneId].
  rewrite lookup_alter_eq, lookup_alter_ne, lookup_insert_eq by done.
  cbn [default fmap option_fmap option_map].
  repeat split.
  - rewrite lookup_alter_ne, lookup_alter_eq, lookup_insert_ne, Hp by done. done.
  - intros k Hk1 Hk2. by rewrite !lookup_alter_ne, lookup_insert_ne.
Qed.

Lemma createBone_under_parent_witness :
  getBoneStart (snd (createBone "bone_b" "forearm" 7 9 1 0 IK (Some "bone_a") arm_root))
  = getBoneEnd (mkBone "bone_a" "arm" 0 0 1 0 "#00ff88" 3 None [] IK false).
Proof.
  apply (createBone_under_parent "bone_b" "forearm" 7 9 1 0 IK "bone_a"
           (mkBone "bone_a" "arm" 0 0 1 0 "#00ff88" 3 None [] IK false) arm_root);
    done.
Defined.

(** ** Changes of the pose only *)

Lemma unplaced_unposed b b' : unplaced b = unplaced b' → unposed b = unposed b'.
Proof. unfold unposed. by intros ->. Qed.

Lemma unposed_set_angle a b : unposed (set_angle a b) = unposed b.
Proof. done. Qed.

Lemma same_but_pose_refl m : same_but_pose m m.
Proof. done. Qed.

Lemma same_but_pose_trans m1 m2 m3 :
  same_but_pose m1 m2 → same_but_pose m2 m3 → same_but_pose m1 m3.
Proof. intros H1 H2 k. by rewrite H1. Qed.

Lemma same_but_positions_pose m m' : same_but_positions m m' → same_but_pose m m'.
Proof.
  intros H k. specialize (H k).
  destruct (m !! k) as [b|], (m' !! k) as [b'|]; cbn in *; try done.
  assert (unplaced b = unplaced b') as Hu by congruence.
  f_equal. by apply unplaced_unposed.
Qed.

Lemma same_but_pose_alter f k (m : gmap string BoneData) :
  (∀ b, unposed (f b) = unposed b) → same_but_pose m (alter f k m).
Proof.
  intros Hf j. rewrite lookup_alter. destruct (decide (k = j)) as [->|]; [|done].
  destruct (m !! j); [|done]. cbn. by rewrite Hf.
Qed.

Lemma ccdJoint_pose fuel chain target j m r m' :
  ccdJoint fuel chain target j m = Some (r, m') → same_but_pose m m'.
Proof.
  unfold ccdJoint. intros E.
  destruct (m !! j) as [cur|]; [|simplify_eq; apply same_but_pose_refl].
  destruct (getChainEnd chain m) as [e|]; [|simplify_eq; apply same_but_pose_refl].
  destruct (Rlt_dec (distance e target) ikTolerance); [simplify_eq; apply same_but_pose_refl|].
  destruct (updateBonePosition fuel j _) as [m2|] eqn:E2; [|done]. simplify_eq.
  eapply (same_but_pose_trans _ (alter (λ b, set_angle (bone_angle b + _) b) j m));
    [|apply same_but_positions_pose; by eapply updateBonePosition_same_but_positions].
  apply same_but_pose_alter. intros; apply unposed_set_angle.
Qed.

Lemma ccdPass_pose fuel chain target joints m r m' :
  ccdPass fuel chain target joints m = Some (r, m') → same_but_pose m m'.
Proof.
  revert m. induction joints as [|j joints IH]; intros m E; cbn [ccdPass] in E.
  { simplify_eq. apply same_but_pose_refl. }
  destruct (ccdJoint fuel chain target j m) as [[[|] m1]|] eqn:E1; [| |done].
  - simplify_eq. by eapply ccdJoint_pose.
  - eapply same_but_pose_trans; [by eapply ccdJoint_pose|by apply IH].
Qed.

Lemma ccdIterations_pose fuel chain target n m r m' :
  ccdIterations fuel chain target n m = Some (r, m') → same_but_pose m m'.
Proof.
  revert m. induction n as [|n IH]; intros m E; cbn [ccdIterations] in E.
  { simplify_eq. apply same_but_pose_refl. }
  destruct (ccdPass fuel chain target (rev chain) m) as [[[|] m1]|] eqn:E1; [| |done].
  - simplify_eq. by eapply ccdPass_pose.
  - eapply same_but_pose_trans; [by eapply ccdPass_pose|by apply IH].
Qed.

Lemma solveIK_pose fuel boneId target st st' :
  solveIK fuel boneId target st = Some st' →
  same_but_pose (bones st) (bones st') ∧ selectedBoneId st' = selectedBoneId st.
Proof.
  unfold solveIK, solveIK_outcome. intros E.
  destruct (bones st !! boneId);
    [|cbn [fmap option_fmap option_map snd] in E; by simplify_eq].
  destruct (buildChain fuel boneId [] (bones st)) as [chain|]; [|done].
  destruct (ccdIterations fuel chain target ikIterations (bones st)) as [[r m]|] eqn:E1;
    [|done].
  cbn [fmap option_fmap option_map snd] in E. simplify_eq. cbn [bones set_bones].
  split; [|done]. by eapply ccdIterations_pose.
Qed.

Lemma unposed_fields b b' :
  unposed b = unposed b' →
  bone_id b = bone_id b' ∧ bone_name b = bone_name b'
  ∧ bone_length b = bone_length b' ∧ bone_color b = bone_color b'
  ∧ bone_thickness b = bone_thickness b' ∧ bone_parentId b = bone_parentId b'
  ∧ bone_children b = bone_children b' ∧ bone_type b = bone_type b'
  ∧ bone_isSelected b = bone_isSelected b'.
Proof. destruct b, b'. unfold unposed, unplaced. cbn. intros [=]. by subst. Qed.

(** X16: [solveIK] changes the pose only: on every hierarchy that the
    operations reach it returns, and no bone appears or disappears, the
    selection stays, and each bone keeps its id, name, length, colour,
    thickness, parent, children, type and mark; only angles and positions
    differ.  For an id that names no bone nothing changes at all. *)
Theorem solveIK_changes_pose_only st boneId target :
  reachable st →
  ∃ N, ∀ fuel, (N ≤ fuel)%nat →
    ∃ st', solveIK fuel boneId target st = Some st'
      ∧ selectedBoneId st' = selectedBoneId st
      ∧ dom (bones st') = dom (bones st)
      ∧ (∀ k b b', bones st !! k = Some b → bones st' !! k = Some b' →
           bone_id b = bone_id b' ∧ bone_name b = bone_name b'
           ∧ bone_length b = bone_length b' ∧ bone_color b = bone_color b'
           ∧ bone_thickness b = bone_thickness b' ∧ bone_parentId b = bone_parentId b'
           ∧ bone_children b = bone_children b' ∧ bone_type b = bone_type b'
           ∧ bone_isSelected b = bone_isSelected b')
      ∧ (bones st !! boneId = None → st' = st).
Proof.
  intros Hr. destruct (reachable_wf st Hr) as (rank & bound & Hinv).
  exists (bound + 1)%nat. intros fuel Hfuel.
  destruct (solveIK_outcome_total rank bound fuel boneId target st Hinv Hfuel)
    as (r & st' & E & _).
  assert (solveIK fuel boneId target st = Some st') as E'.
  { unfold solveIK. by rewrite E. }
  exists st'. split; [done|]. destruct (solveIK_pose _ _ _ _ _ E') as [Hp Hs].
  split; [done|]. split; [|split].
  - apply set_eq. intros k. rewrite !elem_of_dom. specialize (Hp k).
    destruct (bones st !! k), (bones st' !! k); cbn in Hp; try done;
      split; intros [? ?]; done || eauto.
  - intros k b b' Hb Hb'. specialize (Hp k). rewrite Hb, Hb' in Hp.
    apply unposed_fields. cbn in Hp. congruence.
  - intros Hn. unfold solveIK_outcome in E. rewrite Hn in E. by simplify_eq.
Qed.

Lemma solveIK_changes_pose_only_witness :
  ∃ N, ∀ fuel, (N ≤ fuel)%nat →
    ∃ st', solveIK fuel "bone_b" arm_target arm_chain = Some st'
      ∧ selectedBoneId st' = selectedBoneId arm_chain.
Proof.
  destruct (solveIK_changes_pose_only arm_chain "bone_b" arm_target arm_chain_reachable)
    as (N & H).
  exists N. intros fuel Hf. destruct (H fuel Hf) as (st' & E & Hs & _). eauto.
Defined.

(** ** The selection *)

Lemma marks_of_refl m : marks_of m m.
Proof. intros k b Hb Hs. eauto. Qed.

Lemma marks_of_trans m1 m2 m3 : marks_of m1 m2 → marks_of m2 m3 → marks_of m1 m3.
Proof.
  intros H1 H2 k b Hb Hs. destruct (H2 k b Hb Hs) as (b2 & Hb2 & Hs2). eauto.
Qed.

Lemma marks_of_alter f k (m : gmap string BoneData) :
  (∀ b, bone_isSelected (f b) = true → bone_isSelected b = true) →
  marks_of m (alter f k m).
Proof.
  intros Hf j b' Hb' Hs. rewrite lookup_alter in Hb'.
  destruct (decide (k = j)) as [->|]; [|eauto].
  destruct (m !! j) as [b|]; [|done]. cbn in Hb'. injection Hb' as <-. eauto.
Qed.

Lemma marks_of_pose m m' : same_but_pose m m' → marks_of m m'.
Proof.
  intros H k b' Hb' Hs. specialize (H k). rewrite Hb' in H.
  destruct (m !! k) as [b|]; [|done]. exists b. split; [done|].
  cbn in H. assert (unposed b = unposed b') as Hu by congruence.
  apply unposed_fields in Hu. destruct Hu as (_ & _ & _ & _ & _ & _ & _ & _ & Hu).
  congruence.
Qed.

Lemma marks_of_delete k (m : gmap string BoneData) : marks_of m (delete k m).
Proof.
  intros j b' Hb' Hs. apply lookup_delete_Some in Hb' as [_ Hb']. eauto.
Qed.

Lemma selection_ok_marks st st' :
  marks_of (bones st) (bones st') → selectedBoneId st' = selectedBoneId st →
  selection_ok st → selection_ok st'.
Proof.
  intros Hm Hs Hok k b' Hb' Hsel. rewrite Hs.
  destruct (Hm k b' Hb' Hsel) as (b & Hb & Hsb). by eapply Hok.
Qed.

Lemma deleteBone_selection fuel k st st' :
  selection_ok st → deleteBone fuel k st = Some st' → selection_ok st'.
Proof.
  revert k st st'. induction fuel as [|f IH]; intros k st st' Hok E; [done|].
  cbn [deleteBone] in E. destruct (bones st !! k) as [bone|] eqn:Hb; [|by simplify_eq].
  set (m1 := match truthy (bone_parentId bone) with
             | Some pid => alter _ pid (bones st) | None => bones st end) in E.
  destruct (forEach (deleteBone f) _ (set_bones m1 st)) as [st2|] eqn:E2; [|done].
  injection E as <-.
  assert (selection_ok st2) as Hok2.
  { eapply (forEach_inv selection_ok); [| |exact E2].
    - eapply (selection_ok_marks st); [|done|done]. cbn [bones set_bones].
      unfold m1. destruct (truthy (bone_parentId bone)); [|apply marks_of_refl].
      apply marks_of_alter. done.
    - intros a s0 s1 _ H0 E0. by eapply IH. }
  intros j b Hj Hs. cbn [bones selectedBoneId] in *.
  apply lookup_delete_Some in Hj as [Hne Hj].
  rewrite (Hok2 j b Hj Hs). rewrite decide_False; [done|]. congruence.
Qed.

Lemma selectBone_selection boneId st :
  bones st !! EmptyString = None → selection_ok st → selection_ok (selectBone boneId st).
Proof.
  intros Hempty Hok k b' Hb' Hs. unfold selectBone in *. cbn [bones selectedBoneId] in *.
  set (m1 := match truthy (selectedBoneId st) with
             | Some prev => alter (set_isSelected false) prev (bones st)
             | None => bones st end) in *.
  assert (m1 !! k = Some b' → False) as Hm1.
  { intros Hk. unfold m1 in Hk.
    destruct (truthy (selectedBoneId st)) as [prev|] eqn:Hprev.
    - rewrite lookup_alter in Hk. destruct (decide (prev = k)) as [->|Hne].
      + destruct (bones st !! k); [|done]. cbn in Hk. injection Hk as <-. done.
      + pose proof (Hok k b' Hk Hs) as Hsel. rewrite Hsel in Hprev.
        cbn [truthy] in Hprev. destruct (decide (k = EmptyString)); congruence.
    - pose proof (Hok k b' Hk Hs) as Hsel. rewrite Hsel in Hprev.
      apply truthy_None_Some in Hprev as ->. congruence. }
  destruct (truthy boneId) as [t|] eqn:Ht; [|by destruct Hm1].
  apply truthy_Some in Ht as [-> _].
  rewrite lookup_alter in Hb'. destruct (decide (t = k)) as [->|Hne]; [done|].
  by destruct Hm1.
Qed.

Lemma exec_selection fuel op st st' :
  wf (bones st) → valid_op op st → selection_ok st →
  exec fuel op st = Some st' → selection_ok st'.
Proof.
  intros Hwf Hv Hok E. destruct op; cbn [exec] in E.
  - injection E as <-. unfold createBone. cbn [fst].
    destruct Hv as (Hid & Hnew & Hpid & _).
    eapply (selection_ok_marks st); [|done|done]. cbn [bones set_bones].
    assert (marks_of (bones st)
              (<[id := mkBone id name x y length angle "#00ff88" 3 parentId [] type false]>
                 (bones st))) as Hins.
    { intros k b' Hb' Hs. apply lookup_insert_Some in Hb' as [[_ <-]|[_ Hb']]; [done|eauto]. }
    destruct (truthy parentId) as [pid|]; [|done].
    destruct (_ !! pid); [|done].
    eapply marks_of_trans; [exact Hins|].
    eapply marks_of_trans; apply marks_of_alter; done.
  - by eapply deleteBone_selection.
  - unfold moveBone in E. destruct (bones st !! boneId) as [b|]; [|by simplify_eq].
    destruct (moveChildren fuel boneId _ _ _) as [m|] eqn:Em; [|done].
    injection E as <-. eapply (selection_ok_marks st); [|done|done]. cbn [bones set_bones].
    eapply marks_of_trans; [apply (marks_of_alter (set_position position) boneId); done|].
    apply marks_of_pose, same_but_positions_pose.
    by eapply moveChildren_same_but_positions.
  - unfold setBoneAngle in E. destruct (bones st !! boneId) as [b|]; [|by simplify_eq].
    destruct (updateBonePosition fuel boneId _) as [m|] eqn:Em; [|done].
    injection E as <-. eapply (selection_ok_marks st); [|done|done]. cbn [bones set_bones].
    eapply marks_of_trans; [apply (marks_of_alter (set_angle angle) boneId); done|].
    apply marks_of_pose, same_but_positions_pose.
    by eapply updateBonePosition_same_but_positions.
  - apply solveIK_pose in E as [Hp Hs].
    eapply (selection_ok_marks st); [|done|done]. by apply marks_of_pose.
  - injection E as <-. apply selectBone_selection; [|done].
    destruct Hwf as (rank & bound & Hinv). apply (inv_nonempty _ _ _ _ Hinv).
Qed.

(** X17: at most one bone is marked selected, and it is the bone that
    [selectedBoneId] names: in every hierarchy that the operations reach,
    a bone whose [isSelected] is set has the selected id, so that two
    marked bones are the same bone; and when the selected id is cleared
    no bone is marked. *)
Theorem selection_marks_one_bone st :
  reachable st →
  (∀ k b, bones st !! k = Some b → bone_isSelected b = true →
     selectedBoneId st = Some k)
  ∧ (∀ k1 k2 b1 b2, bones st !! k1 = Some b1 → bones st !! k2 = Some b2 →
       bone_isSelected b1 = true → bone_isSelected b2 = true → k1 = k2)
  ∧ (selectedBoneId st = None →
       ∀ k b, bones st !! k = Some b → bone_isSelected b = false).
Proof.
  intros Hr. assert (selection_ok st) as Hok.
  { induction Hr as [|st op fuel st' Hr IH Hv E]; [done|].
    eapply exec_selection; [by apply reachable_wf|exact Hv|exact IH|exact E]. }
  split; [exact Hok|]. split.
  - intros k1 k2 b1 b2 H1 H2 Hs1 Hs2.
    pose proof (Hok _ _ H1 Hs1). pose proof (Hok _ _ H2 Hs2). congruence.
  - intros Hn k b Hb. destruct (bone_isSelected b) eqn:Hs; [|done].
    pose proof (Hok _ _ Hb Hs). congruence.
Qed.

Lemma selection_marks_one_bone_witness :
  reachable (selectBone (Some "bone_a") arm_chain)
  ∧ ∀ k b, bones (selectBone (Some "bone_a") arm_chain) !! k = Some b →
      bone_isSelected b = true →
      selectedBoneId (selectBone (Some "bone_a") arm_chain) = Some k.
Proof.
  assert (reachable (selectBone (Some "bone_a") arm_chain)) as Hr.
  { eapply (reachable_step arm_chain (OpSelectBone (Some "bone_a")) 0);
      [apply arm_chain_reachable|done|done]. }
  split; [exact Hr|].
  apply (selection_marks_one_bone (selectBone (Some "bone_a") arm_chain) Hr).
Defined.

(** ** Forward kinematics *)

Lemma in_subtree_shape m m' a c : same_shape m m' → in_subtree m a c → in_subtree m' a c.
Proof. intros Hs [->|Hd]; [by left|right; by eapply descendant_shape]. Qed.

(** The parent that a bone names and that is in the store has the bone
    as a child. *)
Lemma parent_child_of rank bound m j bj pid parent :
  inv ∅ rank bound m → m !! j = Some bj → truthy (bone_parentId bj) = Some pid →
  m !! pid = Some parent → child_of m pid j.
Proof.
  intros Hinv Hj Ht Hp. apply truthy_Some in Ht as [Ht _].
  destruct (inv_parents _ _ _ _ Hinv j bj pid parent Hj Ht Hp) as [H|H]; [|set_solver].
  by exists parent.
Qed.

Lemma attached_transfer m m' j :
  same_shape m m' → m' !! j = m !! j →
  (∀ bj pid, m !! j = Some bj → truthy (bone_parentId bj) = Some pid → m' !! pid = m !! pid) →
  attached m j → attached m' j.
Proof.
  intros Hs Hj Hp Ha b pid parent Hb Ht Hpar. rewrite Hj in Hb.
  rewrite (Hp b pid Hb Ht) in Hpar. by eapply Ha.
Qed.

Lemma updateBonePosition_attaches rank bound fuel k m b :
  inv ∅ rank bound m → m !! k = Some b → (bound ≤ fuel + rank k)%nat →
  ∃ m', updateBonePosition fuel k m = Some m'
    ∧ same_but_positions m m'
    ∧ (∀ j, in_subtree m k j → attached m' j)
    ∧ (∀ j, ¬ in_subtree m k j → m' !! j = m !! j).
Proof.
  revert k m b. induction fuel as [|f IH]; intros k m b Hinv Hb Hfuel.
  { destruct (inv_ranked _ _ _ _ Hinv) as [Hlt _]. specialize (Hlt k b Hb). lia. }
  rewrite updateBonePosition_S, Hb.
  set (m1 := match truthy (bone_parentId b) with
             | Some pid => match m !! pid with
                           | Some parent => alter (set_position (getBoneEnd parent)) k m
                           | None => m end
             | None => m end).
  assert (same_but_positions m m1) as Hsb1.
  { unfold m1. destruct (truthy _) as [pid|]; [|apply same_but_positions_refl].
    destruct (m !! pid); [|apply same_but_positions_refl].
    apply same_but_positions_alter. done. }
  assert (∀ j, j ≠ k → m1 !! j = m !! j) as Hne1.
  { intros j Hj. unfold m1. destruct (truthy _) as [pid|]; [|done].
    destruct (m !! pid); [|done]. by rewrite lookup_alter_ne. }
  assert (attached m1 k) as Hatt1.
  { intros b1 pid parent Hb1 Ht Hp. unfold m1 in Hb1, Hp.
    destruct (truthy (bone_parentId b)) as [pid0|] eqn:Ht0.
    - destruct (m !! pid0) as [parent0|] eqn:Hp0.
      + rewrite lookup_alter_eq, Hb in Hb1. cbn in Hb1. injection Hb1 as <-.
        cbn [bone_parentId set_position] in Ht. rewrite Ht0 in Ht. injection Ht as <-.
        assert (pid0 ≠ k) as Hpk.
        { intros ->. pose proof (parent_child_of _ _ _ _ _ _ _ Hinv Hb Ht0 Hp0) as Hc.
          apply (descendant_irrefl rank bound m Hinv k). by apply tc_once. }
        rewrite lookup_alter_ne, Hp0 in Hp by done. injection Hp as <-. done.
      + rewrite Hb in Hb1. injection Hb1 as <-. rewrite Ht0 in Ht. injection Ht as <-.
        congruence.
    - rewrite Hb in Hb1. injection Hb1 as <-. congruence. }
  set (region := λ (pre : list string) (j : string), ∃ c, c ∈ pre ∧ in_subtree m c j).
  pose proof (same_but_positions_shape _ _ Hsb1) as Hshape1.
  destruct (forEach_prefix
    (λ pre m0, same_but_positions m1 m0
               ∧ (∀ j, region pre j → attached m0 j)
               ∧ (∀ j, ¬ region pre j → m0 !! j = m1 !! j))
    (λ childId m',
       match m' !! childId with
       | Some _ => updateBonePosition f childId m'
       | None => Some m'
       end) (bone_children b) m1) as (m' & E & Hsb & Hin & Hout).
  - split; [apply same_but_positions_refl|]. split; [|done].
    intros j (c & Hc & _). by inversion Hc.
  - intros pre a post m0 Hl (Hsb0 & Hin0 & Hout0).
    assert (child_of m k a) as Ha.
    { exists b. split; [done|]. rewrite Hl. apply elem_of_app. right. left. }
    assert (a ∉ pre) as Hapre.
    { pose proof (inv_nodup _ _ _ _ Hinv k b Hb) as Hnd. rewrite Hl in Hnd.
      apply NoDup_app in Hnd as (_ & Hnd & _). intros Hin'. apply (Hnd a Hin'). left. }
    assert (∀ c, c ∈ pre → child_of m k c) as Hpre.
    { intros c Hc. exists b. split; [done|]. rewrite Hl. apply elem_of_app. by left. }
    assert (∀ c j, c ∈ pre → in_subtree m c j → ¬ in_subtree m a j) as Hdisj.
    { intros c j Hc Hcj Haj. apply Hapre.
      by rewrite <- (siblings_disjoint rank bound m Hinv k c a j (Hpre c Hc) Ha Hcj Haj). }
    destruct (child_of_exists rank bound m Hinv k a Ha) as [ab Hab].
    assert (a ≠ k) as Hak.
    { intros ->. apply (descendant_irrefl rank bound m Hinv k). by apply tc_once. }
    assert (¬ region pre a) as Hnra.
    { intros (c & Hc & Hsub). eapply Hdisj; [exact Hc|exact Hsub|by left]. }
    assert (m0 !! a = Some ab) as Hab0 by (by rewrite Hout0, Hne1).
    rewrite Hab0.
    assert (same_but_positions m m0) as Hsbm0.
    { eapply same_but_positions_trans; [exact Hsb1|exact Hsb0]. }
    pose proof (same_but_positions_shape _ _ Hsbm0) as Hshape0.
    pose proof (inv_shape _ _ _ _ _ Hshape0 Hinv) as Hinv0.
    destruct (IH a m0 ab Hinv0 Hab0) as (m2 & E2 & Hsb2 & Hin2 & Hout2).
    { pose proof (descendant_rank rank bound m Hinv k a (tc_once _ _ _ Ha)). lia. }
    assert (∀ j, in_subtree m0 a j → in_subtree m a j) as Hback.
    { intros j. apply in_subtree_shape. by apply same_shape_sym. }
    exists m2. split; [done|]. split; [|split].
    + eapply same_but_positions_trans; [exact Hsb0|exact Hsb2].
    + intros j (c & Hc & Hsub). apply elem_of_app in Hc as [Hc|Hc].
      * assert (¬ in_subtree m a j) as Hnaj by (by eapply Hdisj).
        eapply (attached_transfer m0 m2).
        -- by apply same_but_positions_shape.
        -- apply Hout2. intros H. by apply Hnaj, Hback.
        -- intros bj pid Hbj Ht. destruct (m0 !! pid) as [parent|] eqn:Hpar.
           ++ rewrite <- Hpar. apply Hout2. intros Hsubp. apply Hnaj.
              pose proof (parent_child_of _ _ _ _ _ _ _ Hinv0 Hbj Ht Hpar) as Hch.
              apply Hback in Hsubp.
              pose proof (child_of_shape _ _ _ _ (same_shape_sym _ _ Hshape0) Hch) as Hch'.
              right. destruct Hsubp as [->|Hd]; [by apply tc_once|by eapply tc_r].
           ++ specialize (Hsb2 pid). rewrite Hpar in Hsb2.
              destruct (m2 !! pid); [done|done].
        -- apply Hin0. by exists c.
      * apply list_elem_of_singleton in Hc as ->.
        apply Hin2. eapply in_subtree_shape; [exact Hshape0|done].
    + intros j Hnr.
      assert (¬ region pre j) as Hnr0.
      { intros (c & Hc & Hsub). apply Hnr. exists c. split; [|done].
        apply elem_of_app. by left. }
      assert (¬ in_subtree m a j) as Hnaj.
      { intros Hsub. apply Hnr. exists a. split; [|done].
        apply elem_of_app. right. by apply list_elem_of_singleton. }
      rewrite Hout2 by (intros H; by apply Hnaj, Hback). by apply Hout0.
  - exists m'. split; [done|]. split; [|split].
    + eapply same_but_positions_trans; [exact Hsb1|exact Hsb].
    + assert (∀ c, c ∈ bone_children b → child_of m k c) as Hkids.
      { intros c Hc. by exists b. }
      intros j [->|Hd].
      * assert (¬ region (bone_children b) k) as Hnk.
        { intros (c & Hc & Hsub). apply (descendant_irrefl rank bound m Hinv k).
          eapply child_descendant; [by apply Hkids|done]. }
        eapply (attached_transfer m1 m'); [by apply same_but_positions_shape| | |done].
        -- by apply Hout.
        -- intros bj pid Hbj Ht. apply Hout. intros (c & Hc & Hsub).
           destruct (same_shape_lookup _ _ _ _ Hshape1 Hb) as (b' & Hb' & Hsh).
           assert (b' = bj) as -> by congruence.
           apply shape_fields in Hsh as (_ & Hpar & _). rewrite Hpar in Ht.
           assert (descendant m k pid) as Hkp.
           { eapply child_descendant; [by apply Hkids|done]. }
           assert (is_Some (m !! pid)) as [parent Hparent].
           { apply (descendant_inv_r m) in Hkp as (y & _ & Hy).
             exact (child_of_exists rank bound m Hinv y pid Hy). }
           pose proof (parent_child_of _ _ _ _ _ _ _ Hinv Hb Ht Hparent) as Hch.
           apply (descendant_irrefl rank bound m Hinv k). by eapply tc_r.
      * apply (descendant_inv_l m) in Hd as (y & Hy & Hsub).
        apply Hin. exists y. split; [|done].
        destruct Hy as (b0 & Hb0 & Hy). congruence.
    + intros j Hnj.
      assert (j ≠ k) as Hjk by (intros ->; apply Hnj; by left).
      rewrite Hout, Hne1; [done|done|].
      intros (c & Hc & Hsub). apply Hnj. right.
      eapply child_descendant; [|exact Hsub]. by exists b.
Qed.

Lemma forEach_fixpoint {S : Type} (body : string → S → option S) l s :
  (∀ a, a ∈ l → body a s = Some s) → forEach body l s = Some s.
Proof.
  induction l as [|a l IH]; intros H; cbn [forEach]; [done|].
  rewrite H by left. apply IH. intros c Hc. apply H. by right.
Qed.

Lemma set_position_same b : set_position (getBoneStart b) b = b.
Proof. by destruct b. Qed.

Lemma set_angle_same b : set_angle (bone_angle b) b = b.
Proof. by destruct b. Qed.

(** Propagation changes nothing where every bone already starts at the
    end of its parent. *)
Lemma updateBonePosition_fixpoint rank bound fuel k m b :
  inv ∅ rank bound m → m !! k = Some b → (bound ≤ fuel + rank k)%nat →
  (∀ j, in_subtree m k j → attached m j) →
  updateBonePosition fuel k m = Some m.
Proof.
  revert k b. induction fuel as [|f IH]; intros k b Hinv Hb Hfuel Hatt.
  { destruct (inv_ranked _ _ _ _ Hinv) as [Hlt _]. specialize (Hlt k b Hb). lia. }
  rewrite updateBonePosition_S, Hb.
  assert (match truthy (bone_parentId b) with
          | Some pid => match m !! pid with
                        | Some parent => alter (set_position (getBoneEnd parent)) k m
                        | None => m end
          | None => m end = m) as ->.
  { destruct (truthy (bone_parentId b)) as [pid|] eqn:Ht; [|done].
    destruct (m !! pid) as [parent|] eqn:Hp; [|done].
    apply alter_id. intros b' Hb'. assert (b' = b) as -> by congruence.
    rewrite <- (Hatt k (or_introl eq_refl) b pid parent Hb Ht Hp).
    apply set_position_same. }
  apply forEach_fixpoint. intros a Ha.
  assert (child_of m k a) as Hch by (by exists b).
  destruct (child_of_exists rank bound m Hinv k a Hch) as [ab Hab]. rewrite Hab.
  apply (IH a ab Hinv Hab).
  - pose proof (descendant_rank rank bound m Hinv k a (tc_once _ _ _ Hch)). lia.
  - intros j Hj. apply Hatt. right. by eapply child_descendant.
Qed.

(** X18: [setBoneAngle] turns the bone and carries its subtree along: on
    every hierarchy that the operations reach it returns; the bone has
    the new angle; apart from this angle only positions change, and only
    inside the subtree of the bone; afterwards the bone and every bone
    below it start where their parent ends. *)
Theorem setBoneAngle_repositions_subtree st boneId angle bone :
  reachable st → bones st !! boneId = Some bone →
  ∃ N, ∀ fuel, (N ≤ fuel)%nat →
    ∃ st', setBoneAngle fuel boneId angle st = Some st'
      ∧ selectedBoneId st' = selectedBoneId st
      ∧ (∃ b', bones st' !! boneId = Some b' ∧ bone_angle b' = angle)
      ∧ same_but_positions (alter (set_angle angle) boneId (bones st)) (bones st')
      ∧ (∀ k, in_subtree (bones st) boneId k → attached (bones st') k)
      ∧ (∀ k, ¬ in_subtree (bones st) boneId k → bones st' !! k = bones st !! k).
Proof.
  intros Hr Hb. destruct (reachable_wf st Hr) as (rank & bound & Hinv).
  exists bound. intros fuel Hfuel. unfold setBoneAngle. rewrite Hb.
  set (m0 := alter (set_angle angle) boneId (bones st)).
  assert (same_shape (bones st) m0) as Hsh.
  { apply same_shape_alter. intros; apply shape_set_angle. }
  assert (m0 !! boneId = Some (set_angle angle bone)) as Hb0.
  { unfold m0. by rewrite lookup_alter_eq, Hb. }
  destruct (updateBonePosition_attaches rank bound fuel boneId m0 (set_angle angle bone))
    as (m' & -> & Hsb & Hin & Hout); [by eapply inv_shape|done|lia|].
  eexists. split; [reflexivity|]. cbn [bones set_bones selectedBoneId].
  split; [done|]. split; [|split; [done|split]].
  - specialize (Hsb boneId). rewrite Hb0 in Hsb.
    destruct (m' !! boneId) as [b'|]; [|done]. exists b'. split; [done|].
    cbn in Hsb. assert (unplaced (set_angle angle bone) = unplaced b') as Hu by congruence.
    apply unplaced_angle in Hu. by rewrite <- Hu.
  - intros k Hk. apply Hin. by eapply in_subtree_shape.
  - intros k Hk. rewrite Hout.
    + unfold m0. rewrite lookup_alter_ne; [done|]. intros ->. apply Hk. by left.
    + intros H. apply Hk. eapply in_subtree_shape; [|exact H]. by apply same_shape_sym.
Qed.

Lemma setBoneAngle_repositions_subtree_witness :
  ∃ N, ∀ fuel, (N ≤ fuel)%nat →
    ∃ st', setBoneAngle fuel "bone_a" 1 arm_chain = Some st'
      ∧ attached (bones st') "bone_b".
Proof.
  destruct (setBoneAngle_repositions_subtree arm_chain "bone_a" 1 arm_a
              arm_chain_reachable) as (N & H).
  { rewrite arm_chain_bones. apply arm_lookup_a. }
  exists N. intros fuel Hf. destruct (H fuel Hf) as (st' & E & _ & _ & _ & Hin & _).
  exists st'. split; [done|]. apply Hin. right. apply tc_once.
  exists arm_a. split; [rewrite arm_chain_bones; apply arm_lookup_a|].
  cbn. left.
Defined.

(** X19: setting the angle that was just set changes nothing: a second
    [setBoneAngle] with the same angle leaves the hierarchy that the
    first one produced. *)
Theorem setBoneAngle_idempotent st boneId angle :
  reachable st →
  ∃ N, ∀ fuel, (N ≤ fuel)%nat →
    ∃ st', setBoneAngle fuel boneId angle st = Some st'
      ∧ setBoneAngle fuel boneId angle st' = Some st'.
Proof.
  intros Hr. destruct (reachable_wf st Hr) as (rank & bound & Hinv).
  exists bound. intros fuel Hfuel. unfold setBoneAngle at 1.
  destruct (bones st !! boneId) as [bone|] eqn:Hb.
  2:{ exists st. split; [done|]. unfold setBoneAngle. by rewrite Hb. }
  set (m0 := alter (set_angle angle) boneId (bones st)).
  assert (same_shape (bones st) m0) as Hsh.
  { apply same_shape_alter. intros; apply shape_set_angle. }
  assert (m0 !! boneId = Some (set_angle angle bone)) as Hb0.
  { unfold m0. by rewrite lookup_alter_eq, Hb. }
  pose proof (inv_shape _ _ _ _ _ Hsh Hinv) as Hinv0.
  destruct (updateBonePosition_attaches rank bound fuel boneId m0 (set_angle angle bone))
    as (m' & -> & Hsb & Hin & Hout); [done|done|lia|].
  eexists. split; [reflexivity|]. unfold setBoneAngle. cbn [bones set_bones].
  pose proof (Hsb boneId) as Hk. rewrite Hb0 in Hk.
  destruct (m' !! boneId) as [b'|] eqn:Hb'; [|done].
  cbn in Hk. assert (unplaced (set_angle angle bone) = unplaced b') as Hu by congruence.
  apply unplaced_angle in Hu. cbn [bone_angle set_angle] in Hu.
  assert (alter (set_angle angle) boneId m' = m') as ->.
  { apply alter_id. intros x Hx. assert (x = b') as -> by congruence.
    rewrite Hu. apply set_angle_same. }
  pose proof (same_but_positions_shape _ _ Hsb) as Hsh'.
  rewrite (updateBonePosition_fixpoint rank bound fuel boneId m' b');
    [done|by eapply inv_shape|done|lia|].
  intros j Hj. apply Hin. eapply in_subtree_shape; [|exact Hj]. by apply same_shape_sym.
Qed.

Lemma setBoneAngle_idempotent_witness :
  ∃ N, ∀ fuel, (N ≤ fuel)%nat →
    ∃ st', setBoneAngle fuel "bone_a" 1 arm_chain = Some st'
      ∧ setBoneAngle fuel "bone_a" 1 st' = Some st'.
Proof.
  apply (setBoneAngle_idempotent arm_chain "bone_a" 1 arm_chain_reachable).
Defined.

(** ** The tree while a deletion is under way *)

Section detached.
Context (D : gset string) (rank : string → nat) (bound : nat) (m : gmap string BoneData).
Hypothesis Hinv : inv D rank bound m.

Lemma unique_parent a a' c : child_of m a c → child_of m a' c → a = a'.
Proof.
  intros (b & Hb & Hc) (b' & Hb' & Hc').
  destruct (inv_children _ _ _ _ Hinv a b c Hb Hc) as (cb & Hcb & Hp).
  destruct (inv_children _ _ _ _ Hinv a' b' c Hb' Hc') as (cb' & Hcb' & Hp').
  congruence.
Qed.

Lemma child_in_store a c : child_of m a c → is_Some (m !! c).
Proof.
  intros (b & Hb & Hc).
  destruct (inv_children _ _ _ _ Hinv a b c Hb Hc) as (cb & Hcb & _). eauto.
Qed.

Lemma child_rank a c : child_of m a c → (rank a < rank c)%nat.
Proof. destruct (inv_ranked _ _ _ _ Hinv) as [_ Hrk]. apply Hrk. Qed.

Lemma rtc_rank a c : rtc (child_of m) a c → (rank a ≤ rank c)%nat.
Proof.
  induction 1 as [|x y z H _ IH]; [lia|]. apply child_rank in H. lia.
Qed.

Lemma rtc_comparable a a' j :
  rtc (child_of m) a j → rtc (child_of m) a' j →
  rtc (child_of m) a a' ∨ rtc (child_of m) a' a.
Proof.
  intros Ha. revert a'. revert j Ha.
  apply (rtc_ind_r (λ j, ∀ a', rtc (child_of m) a' j →
                           rtc (child_of m) a a' ∨ rtc (child_of m) a' a)).
  - intros a' Ha'. by right.
  - intros y j Hay Hyj IH a' Ha'.
    apply rtc_inv_r in Ha' as [->|(y' & Ha'y & Hy'j)].
    + left. by eapply rtc_r.
    + assert (y = y') as <- by (by eapply unique_parent).
      by apply IH.
Qed.

Lemma siblings_apart k c1 c2 j :
  child_of m k c1 → child_of m k c2 →
  rtc (child_of m) c1 j → rtc (child_of m) c2 j → c1 = c2.
Proof.
  intros H1 H2 Hj1 Hj2.
  assert (∀ x y, child_of m k x → child_of m k y → rtc (child_of m) x y → x = y) as Haux.
  { intros x y Hx Hy Hxy. apply rtc_inv_r in Hxy as [->|(p & Hxp & Hpy)]; [done|].
    assert (p = k) as -> by (by eapply unique_parent).
    apply rtc_rank in Hxp. apply child_rank in Hx. lia. }
  destruct (rtc_comparable c1 c2 j Hj1 Hj2) as [H|H]; [|symmetry]; eauto.
Qed.
End detached.

(** ** What [deleteBone] removes *)

Lemma deleteBone_spec rank bound fuel D st k b :
  inv D rank bound (bones st) → bones st !! k = Some b → (bound ≤ fuel + rank k)%nat →
  ∃ st', deleteBone fuel k st = Some st'
    ∧ inv D rank bound (bones st')
    ∧ (∀ j, rtc (child_of (bones st)) k j → bones st' !! j = None)
    ∧ (∀ j, ¬ rtc (child_of (bones st)) k j →
         bones st' !! j = detach k b (bones st) !! j)
    ∧ (∀ j bj', bones st' !! j = Some bj' →
         ∃ bj, bones st !! j = Some bj ∧ bone_children bj' ⊆ bone_children bj).
Proof.
  revert D st k b. induction fuel as [|f IH]; intros D st k b Hinv Hb Hfuel.
  { destruct (inv_ranked _ _ _ _ Hinv) as [Hlt _]. specialize (Hlt k b Hb). lia. }
  cbn [deleteBone]. rewrite Hb. fold (without k). fold (detach k b (bones st)).
  set (m := bones st) in *. set (m1 := detach k b m).
  pose proof (detach_inv D rank bound m k b Hinv Hb) as Hinv1. fold (detach k b m) in Hinv1.
  fold m1 in Hinv1.
  assert (∀ j bj1, m1 !! j = Some bj1 →
            ∃ bj, m !! j = Some bj ∧ bone_children bj1 ⊆ bone_children bj) as Hsub1.
  { intros j bj1 Hj. unfold m1, detach in Hj.
    destruct (truthy (bone_parentId b)) as [pid|]; [|by exists bj1].
    rewrite lookup_alter in Hj. destruct (decide (pid = j)) as [->|]; [|by exists bj1].
    destruct (m !! j) as [bj|]; [|done]. cbn in Hj. injection Hj as <-.
    exists bj. split; [done|]. cbn. intros x Hx. by apply list_elem_of_filter in Hx as [_ Hx]. }
  assert (∀ x y, child_of m x y → y ≠ k → child_of m1 x y) as Hc1.
  { intros x y (bx & Hbx & Hy) Hyk. unfold m1, detach, child_of.
    destruct (truthy (bone_parentId b)) as [pid|]; [|by exists bx].
    rewrite lookup_alter. destruct (decide (pid = x)) as [->|]; [|by exists bx].
    rewrite Hbx. eexists. split; [reflexivity|]. cbn.
    apply list_elem_of_filter. by split. }
  assert (∀ x y, child_of m1 x y → child_of m x y) as Hc1'.
  { intros x y (bx & Hbx & Hy). destruct (Hsub1 x bx Hbx) as (bx' & Hbx' & Hs).
    exists bx'. split; [done|]. by apply Hs. }
  assert (∃ b1, m1 !! k = Some b1) as [b1 Hb1].
  { unfold m1, detach. destruct (truthy (bone_parentId b)) as [pid|]; [|by exists b].
    rewrite lookup_alter. destruct (decide (pid = k)) as [->|]; rewrite Hb; eauto. }
  assert (∀ c, c ∈ bone_children b → child_of m1 k c) as Hkids.
  { intros c Hc. apply Hc1; [by exists b|]. intros ->.
    pose proof (child_rank D rank bound m Hinv k k) as Hr.
    assert (child_of m k k) as Hkk by (by exists b). apply Hr in Hkk. lia. }
  assert (∀ c j, (rank k < rank c)%nat → rtc (child_of m) c j → rtc (child_of m1) c j)
    as Hdown.
  { intros c j Hrk. apply (rtc_ind_r (λ j, rtc (child_of m1) c j)); [done|].
    intros y z Hcy Hyz IHy. eapply rtc_r; [exact IHy|]. apply Hc1; [done|].
    intros ->. apply (rtc_rank D rank bound m Hinv) in Hcy.
    apply (child_rank D rank bound m Hinv) in Hyz. lia. }
  rewrite Hb1.
  set (region := λ (pre : list string) (j : string),
                   ∃ c, c ∈ pre ∧ rtc (child_of m1) c j).
  destruct (forEach_prefix
    (λ pre s0, inv (D ∪ {[k]}) rank bound (bones s0)
               ∧ (∀ j, region pre j → bones s0 !! j = None)
               ∧ (∀ j, j ≠ k → ¬ region pre j → bones s0 !! j = m1 !! j)
               ∧ is_Some (bones s0 !! k)
               ∧ (∀ j bj', bones s0 !! j = Some bj' →
                    ∃ bj, m1 !! j = Some bj ∧ bone_children bj' ⊆ bone_children bj))
    (deleteBone f) (bone_children b1) (set_bones m1 st))
    as (st2 & E & Hinv2 & Hin2 & Hout2 & Hk2 & Hsub2).
  - cbn [bones set_bones]. split; [done|]. split.
    { intros j (c & Hc & _). by inversion Hc. }
    split; [done|]. split; [by exists b1|]. intros j bj' Hj. by exists bj'.
  - intros pre a post s0 Hl (Hinv0 & Hin0 & Hout0 & Hk0 & Hsub0).
    assert (child_of m1 k a) as Ha.
    { exists b1. split; [done|]. rewrite Hl. apply elem_of_app. right. left. }
    assert (a ∉ pre) as Hapre.
    { pose proof (inv_nodup _ _ _ _ Hinv1 k b1 Hb1) as Hnd. rewrite Hl in Hnd.
      apply NoDup_app in Hnd as (_ & Hnd & _). intros Hin'. apply (Hnd a Hin'). left. }
    assert (∀ c, c ∈ pre → child_of m1 k c) as Hpre.
    { intros c Hc. exists b1. split; [done|]. rewrite Hl. apply elem_of_app. by left. }
    assert (∀ c j, c ∈ pre → rtc (child_of m1) c j → ¬ rtc (child_of m1) a j) as Hdisj.
    { intros c j Hc Hcj Haj. apply Hapre.
      by rewrite <- (siblings_apart _ rank bound m1 Hinv1 k c a j (Hpre c Hc) Ha Hcj Haj). }
    pose proof (child_rank _ rank bound m1 Hinv1 k a Ha) as Hrka.
    assert (a ≠ k) as Hak by (intros ->; lia).
    destruct (child_in_store _ rank bound m1 Hinv1 k a Ha) as [ab Hab].
    assert (¬ region pre a) as Hnra.
    { intros (c & Hc & Hsub). by eapply Hdisj. }
    assert (bones s0 !! a = Some ab) as Hab0 by (by rewrite Hout0).
    destruct (IH (D ∪ {[k]}) s0 a ab Hinv0 Hab0) as (st1 & E1 & Hinv1' & Hin1 & Hout1 & Hsubst1);
      [lia|].
    assert (∀ x y, child_of (bones s0) x y → child_of m1 x y) as Hmono.
    { intros x y (bx & Hbx & Hy). destruct (Hsub0 x bx Hbx) as (bx' & Hbx' & Hs).
      exists bx'. split; [done|]. by apply Hs. }
    assert (∀ j, rtc (child_of (bones s0)) a j → rtc (child_of m1) a j) as Hfwd.
    { intros j. by apply rtc_subrel. }
    assert (∀ j, rtc (child_of m1) a j → rtc (child_of (bones s0)) a j) as Hbwd.
    { apply (rtc_ind_r (λ j, rtc (child_of (bones s0)) a j)); [done|].
      intros y z Hay Hyz IHy. eapply rtc_r; [exact IHy|].
      destruct Hyz as (by_ & Hby & Hz). exists by_. split; [|done].
      rewrite Hout0; [done| |].
      - intros ->. apply (rtc_rank _ rank bound m1 Hinv1) in Hay. lia.
      - intros (c & Hc & Hsub). by eapply Hdisj. }
    assert (detach a ab (bones s0) = alter (without a) k (bones s0)) as Hdet.
    { unfold detach.
      destruct Ha as (b1' & Hb1' & Hain).
      destruct (inv_children _ _ _ _ Hinv1 k b1' a Hb1' Hain) as (cb & Hcb & Hp).
      assert (cb = ab) as -> by congruence. rewrite Hp.
      rewrite truthy_is_Some; [done|]. intros ->.
      rewrite (inv_nonempty _ _ _ _ Hinv1) in Hb1. done. }
    exists st1. split; [done|]. split; [done|]. split; [|split; [|split]].
    + intros j (c & Hc & Hsub). apply elem_of_app in Hc as [Hc|Hc].
      * destruct (bones st1 !! j) as [bj1|] eqn:Hj1; [|done].
        destruct (Hsubst1 j bj1 Hj1) as (bj0 & Hbj0 & _).
        rewrite Hin0 in Hbj0; [done|]. by exists c.
      * apply list_elem_of_singleton in Hc as ->. by apply Hin1, Hbwd.
    + intros j Hjk Hnr. rewrite Hout1, Hdet.
      * rewrite lookup_alter_ne by done. apply Hout0; [done|].
        intros (c & Hc & Hsub). apply Hnr. exists c. split; [|done].
        apply elem_of_app. by left.
      * intros H. apply Hnr. exists a. split; [|by apply Hfwd].
        apply elem_of_app. right. by apply list_elem_of_singleton.
    + rewrite Hout1, Hdet.
      * rewrite lookup_alter_eq. destruct Hk0 as [bk ->]. by eexists.
      * intros H. apply Hfwd, (rtc_rank _ rank bound m1 Hinv1) in H. lia.
    + intros j bj1 Hj1. destruct (Hsubst1 j bj1 Hj1) as (bj0 & Hbj0 & Hs0).
      destruct (Hsub0 j bj0 Hbj0) as (bj & Hbj & Hs). exists bj. split; [done|].
      by etrans.
  - rewrite E. eexists. split; [reflexivity|]. cbn [bones].
    split; [by apply delete_inv|]. split; [|split].
    + intros j Hkj. apply rtc_inv in Hkj as [<-|(c & Hc & Hcj)]; [apply lookup_delete_eq|].
      apply lookup_delete_None. right. apply Hin2.
      destruct Hc as (b' & Hb' & Hc). assert (b' = b) as -> by congruence.
      pose proof (Hkids c Hc) as Hch. exists c. split.
      * destruct Hch as (b1' & Hb1' & Hc1b). congruence.
      * apply Hdown; [|done]. apply (child_rank _ rank bound m1 Hinv1). done.
    + intros j Hnj. assert (j ≠ k) as Hjk by (intros ->; by apply Hnj).
      rewrite lookup_delete_ne by done. apply Hout2; [done|].
      intros (c & Hc & Hsub). apply Hnj. eapply rtc_l.
      * apply Hc1'. by exists b1.
      * eapply rtc_subrel; [|exact Hsub]. done.
    + intros j bj' Hj. apply lookup_delete_Some in Hj as [_ Hj].
      destruct (Hsub2 j bj' Hj) as (bj1 & Hbj1 & Hs1).
      destruct (Hsub1 j bj1 Hbj1) as (bj & Hbj & Hs). exists bj. split; [done|].
      by etrans.
Qed.

(** ** The selection across a deletion *)

Lemma selection_survives_refl st : selection_survives st st.
Proof.
  split; [by right|]. split; [done|]. split; [|done]. intros s H1 H2. done.
Qed.

Lemma selection_survives_trans st s0 s1 :
  selection_survives st s0 → selection_survives s0 s1 → selection_survives st s1.
Proof.
  intros (A1 & A2 & A3 & A4) (B1 & B2 & B3 & B4). split; [|split; [|split]].
  - destruct B1 as [-> | ->]; [by left|done].
  - intros s Hs Hsel. apply B2; [|done]. apply A2; [done|].
    destruct B1 as [B1|B1]; congruence.
  - intros s Hsel Hne. destruct (decide (selectedBoneId s0 = Some s)) as [H0|H0].
    + destruct (B3 s H0 Hne) as [Hs0 Hs1]. split; [by apply A4|done].
    + destruct (A3 s Hsel H0) as [Hs Hs0]. split; [done|].
      destruct (bones s1 !! s) eqn:E; [|done].
      destruct (B4 s) as [x Hx]; [by rewrite E|]. congruence.
  - intros s Hs. by apply A4, B4.
Qed.

Lemma deleteBone_selection_survives fuel k st st' :
  deleteBone fuel k st = Some st' → selection_survives st st'.
Proof.
  revert k st st'. induction fuel as [|f IH]; intros k st st' E; [done|].
  cbn [deleteBone] in E.
  destruct (bones st !! k) as [bone|] eqn:Hb;
    [|injection E as <-; apply selection_survives_refl].
  fold (without k) in E. fold (detach k bone (bones st)) in E.
  set (m1 := detach k bone (bones st)) in E.
  destruct (forEach (deleteBone f) _ (set_bones m1 st)) as [st2|] eqn:E2; [|done].
  injection E as <-.
  assert (∀ s, is_Some (m1 !! s) ↔ is_Some (bones st !! s)) as Hdom.
  { intros s. unfold m1, detach. destruct (truthy (bone_parentId bone)) as [pid|]; [|done].
    rewrite lookup_alter. destruct (decide (pid = s)) as [->|]; [|done].
    by rewrite fmap_is_Some. }
  assert (selection_survives st st2) as (A1 & A2 & A3 & A4).
  { eapply (forEach_inv (selection_survives st)); [| |exact E2].
    - split; [by right|]. split; [intros s Hs _; by apply Hdom|].
      split; [done|]. intros s Hs. by apply Hdom.
    - intros a s0 s1 _ H0 E0. eapply selection_survives_trans; [exact H0|by eapply IH]. }
  split; [|split; [|split]]; cbn [bones selectedBoneId].
  - destruct (decide (selectedBoneId st2 = Some k)); [by left|done].
  - intros s Hs Hsel. destruct (decide (selectedBoneId st2 = Some k)) as [|Hne]; [done|].
    rewrite lookup_delete_ne by congruence. by apply A2.
  - intros s Hsel Hne. destruct (decide (selectedBoneId st2 = Some s)) as [H2|H2].
    + destruct (decide (selectedBoneId st2 = Some k)) as [Hk|Hk]; [|done].
      assert (s = k) as -> by congruence. split; [by rewrite Hb|apply lookup_delete_eq].
    + destruct (A3 s Hsel H2) as [Hs Hs2]. split; [done|].
      apply lookup_delete_None. by right.
  - intros s Hs. apply A4. apply lookup_delete_is_Some in Hs. tauto.
Qed.

(** X20: [deleteBone] removes the bone and exactly the bones below it: on
    every hierarchy that the operations reach it returns; the bone and
    its descendants are gone; every other bone is as it was, except that
    the parent has lost the id in its children; the selection is cleared
    when it was on a removed bone and kept otherwise. *)
Theorem deleteBone_removes_subtree st boneId bone :
  reachable st → bones st !! boneId = Some bone →
  ∃ N, ∀ fuel, (N ≤ fuel)%nat →
    ∃ st', deleteBone fuel boneId st = Some st'
      ∧ (∀ k, in_subtree (bones st) boneId k → bones st' !! k = None)
      ∧ (∀ k, ¬ in_subtree (bones st) boneId k →
           bones st' !! k = detach boneId bone (bones st) !! k)
      ∧ (∀ k pid, ¬ in_subtree (bones st) boneId k →
           truthy (bone_parentId bone) = Some pid → k ≠ pid →
           bones st' !! k = bones st !! k)
      ∧ (∀ pid, truthy (bone_parentId bone) = Some pid →
           bones st' !! pid = without boneId <$> bones st !! pid)
      ∧ (truthy (bone_parentId bone) = None →
           ∀ k, ¬ in_subtree (bones st) boneId k → bones st' !! k = bones st !! k)
      ∧ (∀ s, selectedBoneId st = Some s → in_subtree (bones st) boneId s →
           selectedBoneId st' = None)
      ∧ (∀ s, selectedBoneId st = Some s → ¬ in_subtree (bones st) boneId s →
           selectedBoneId st' = Some s)
      ∧ (selectedBoneId st = None → selectedBoneId st' = None).
Proof.
  intros Hr Hb. destruct (reachable_wf st Hr) as (rank & bound & Hinv).
  exists bound. intros fuel Hfuel.
  destruct (deleteBone_spec rank bound fuel ∅ st boneId bone Hinv Hb)
    as (st' & E & Hinv' & Hin & Hout & _); [lia|].
  destruct (deleteBone_selection_survives _ _ _ _ E) as (A1 & A2 & A3 & A4).
  assert (∀ k, in_subtree (bones st) boneId k → bones st' !! k = None) as Hin'.
  { intros k Hk. apply Hin. by apply in_subtree_rtc. }
  assert (∀ k, ¬ in_subtree (bones st) boneId k →
            bones st' !! k = detach boneId bone (bones st) !! k) as Hout'.
  { intros k Hk. apply Hout. intros H. by apply Hk, in_subtree_rtc. }
  assert (∀ pid parent, bones st !! pid = Some parent →
            truthy (bone_parentId bone) = Some pid → ¬ in_subtree (bones st) boneId pid)
    as Hpar.
  { intros pid parent Hp Ht Hsub. apply truthy_Some in Ht as [Ht _].
    destruct (inv_parents _ _ _ _ Hinv boneId bone pid parent Hb Ht Hp) as [Hc|Hc];
      [|set_solver].
    assert (child_of (bones st) pid boneId) as Hch by (by exists parent).
    apply (descendant_irrefl rank bound (bones st) Hinv boneId).
    destruct Hsub as [->|Hd]; [by apply tc_once|by eapply tc_r]. }
  exists st'. split; [done|]. split; [done|]. split; [done|].
  split; [|split; [|split; [|split; [|split]]]].
  - intros k pid Hk Ht Hne. rewrite Hout' by done. unfold detach. rewrite Ht.
    by rewrite lookup_alter_ne.
  - intros pid Ht. destruct (bones st !! pid) as [parent|] eqn:Hp.
    + rewrite Hout' by (by eapply Hpar). unfold detach. rewrite Ht.
      by rewrite lookup_alter_eq, Hp.
    + cbn. destruct (bones st' !! pid) eqn:E'; [|done].
      destruct (A4 pid) as [x Hx]; [by rewrite E'|]. congruence.
  - intros Ht k Hk. rewrite Hout' by done. unfold detach. by rewrite Ht.
  - intros s Hsel Hsub. destruct A1 as [A1|A1]; [done|].
    assert (is_Some (bones st !! s)) as Hs.
    { destruct Hsub as [->|Hd]; [by rewrite Hb|].
      apply (descendant_inv_r (bones st)) in Hd as (y & _ & Hy).
      exact (child_of_exists rank bound (bones st) Hinv y s Hy). }
    destruct (A2 s Hs) as [x Hx]; [congruence|]. rewrite Hin' in Hx by done. done.
  - intros s Hsel Hsub. destruct (decide (selectedBoneId st' = Some s)) as [|Hne]; [done|].
    destruct (A3 s Hsel Hne) as [[x Hx] Hnone]. rewrite Hout' in Hnone by done.
    unfold detach in Hnone. destruct (truthy (bone_parentId bone)) as [pid|]; [|congruence].
    rewrite lookup_alter in Hnone. destruct (decide (pid = s)) as [->|]; [|congruence].
    rewrite Hx in Hnone. done.
  - intros Hn. destruct A1 as [A1|A1]; congruence.
Qed.

Lemma deleteBone_removes_subtree_witness :
  ∃ N, ∀ fuel, (N ≤ fuel)%nat →
    ∃ st', deleteBone fuel "bone_a" arm_chain = Some st'
      ∧ bones st' !! "bone_b" = None.
Proof.
  destruct (deleteBone_removes_subtree arm_chain "bone_a" arm_a arm_chain_reachable)
    as (N & H).
  { rewrite arm_chain_bones. apply arm_lookup_a. }
  exists N. intros fuel Hf. destruct (H fuel Hf) as (st' & E & Hin & _).
  exists st'. split; [done|]. apply Hin. right. apply tc_once.
  exists arm_a. split; [rewrite arm_chain_bones; apply arm_lookup_a|].
  cbn. left.
Defined.

(** ** More fuel gives the same result *)

Lemma forEach_mono {S : Type} (body body' : string → S → option S) l s s' :
  (∀ a s0 s1, body a s0 = Some s1 → body' a s0 = Some s1) →
  forEach body l s = Some s' → forEach body' l s = Some s'.
Proof.
  intros H. revert s. induction l as [|a l IH]; intros s E; cbn [forEach] in *; [done|].
  destruct (body a s) as [s1|] eqn:E1; [|done]. rewrite (H _ _ _ E1). by apply IH.
Qed.

Lemma updateBonePosition_mono f f' k m m' :
  (f ≤ f')%nat → updateBonePosition f k m = Some m' → updateBonePosition f' k m = Some m'.
Proof.
  revert f' k m m'. induction f as [|f IH]; intros f' k m m' Hle E; [done|].
  destruct f' as [|f']; [lia|]. rewrite updateBonePosition_S in *.
  destruct (m !! k) as [b|]; [|done].
  eapply forEach_mono; [|exact E]. intros a s0 s1 E1. cbn beta in *.
  destruct (s0 !! a); [|done]. apply (IH f'); [lia|done].
Qed.

Lemma moveChildren_mono f f' k dx dy m m' :
  (f ≤ f')%nat → moveChildren f k dx dy m = Some m' → moveChildren f' k dx dy m = Some m'.
Proof.
  revert f' k m m'. induction f as [|f IH]; intros f' k m m' Hle E; [done|].
  destruct f' as [|f']; [lia|]. cbn [moveChildren] in *.
  destruct (m !! k) as [b|]; [|done].
  eapply forEach_mono; [|exact E]. intros a s0 s1 E1. cbn beta in *.
  destruct (s0 !! a); [|done]. apply (IH f'); [lia|done].
Qed.

Lemma deleteBone_mono f f' k st st' :
  (f ≤ f')%nat → deleteBone f k st = Some st' → deleteBone f' k st = Some st'.
Proof.
  revert f' k st st'. induction f as [|f IH]; intros f' k st st' Hle E; [done|].
  destruct f' as [|f']; [lia|]. cbn [deleteBone] in *.
  destruct (bones st !! k) as [b|]; [|done].
  destruct (forEach (deleteBone f) _ _) as [st2|] eqn:E2; [|done].
  erewrite (forEach_mono (deleteBone f) (deleteBone f')); [exact E| |exact E2].
  intros a s0 s1 E1. apply (IH f'); [lia|done].
Qed.

(** ** Membership in a subtree can be decided *)

Lemma children_reach_decidable (m : gmap string BoneData) (l : list string) j :
  Forall (λ c, rtc (child_of m) c j ∨ ¬ rtc (child_of m) c j) l →
  (∃ c, c ∈ l ∧ rtc (child_of m) c j) ∨ (∀ c, c ∈ l → ¬ rtc (child_of m) c j).
Proof.
  induction 1 as [|c l [Hc|Hc] _ [IH|IH]].
  - right. intros c Hc. by inversion Hc.
  - left. exists c. split; [left|done].
  - left. exists c. split; [left|done].
  - left. destruct IH as (c' & Hc' & Hr). exists c'. split; [by right|done].
  - right. intros c' Hc'. apply elem_of_cons in Hc' as [->|Hc']; [done|by apply IH].
Qed.

Lemma subtree_decidable rank bound m a j :
  inv ∅ rank bound m → rtc (child_of m) a j ∨ ¬ rtc (child_of m) a j.
Proof.
  intros Hinv. remember (bound - rank a)%nat as n eqn:Hn.
  revert a Hn. induction n as [n IH] using lt_wf_ind. intros a Hn.
  destruct (decide (a = j)) as [->|Hne]; [by left|].
  destruct (m !! a) as [b|] eqn:Hb.
  - destruct (children_reach_decidable m (bone_children b) j) as [(c & Hc & Hr)|Hnone].
    + apply Forall_forall. intros c Hc.
      assert (child_of m a c) as Hch by (by exists b).
      pose proof (child_rank ∅ rank bound m Hinv a c Hch) as Hrk.
      destruct (child_in_store ∅ rank bound m Hinv a c Hch) as [cb Hcb].
      destruct (inv_ranked _ _ _ _ Hinv) as [Hlt _]. specialize (Hlt c cb Hcb).
      apply (IH (bound - rank c)%nat); [lia|done].
    + left. eapply rtc_l; [|exact Hr]. by exists b.
    + right. intros Hr. apply rtc_inv in Hr as [?|(c & (b' & Hb' & Hc) & Hr)]; [done|].
      assert (b' = b) as -> by congruence. by apply (Hnone c).
  - right. intros Hr. apply rtc_inv in Hr as [?|(c & (b' & Hb' & Hc) & Hr)]; [done|].
    congruence.
Qed.

Lemma in_subtree_decidable rank bound m a j :
  inv ∅ rank bound m → in_subtree m a j ∨ ¬ in_subtree m a j.
Proof.
  intros Hinv. destruct (subtree_decidable rank bound m a j Hinv) as [H|H].
  - left. by apply in_subtree_rtc.
  - right. intros H'. by apply H, in_subtree_rtc.
Qed.

(** ** Bones that start where their parent ends *)

Lemma attached_geometry m m' j :
  geometry_from m m' j →
  (∀ bj pid, m' !! j = Some bj → truthy (bone_parentId bj) = Some pid →
     geometry_from m m' pid) →
  attached m j → attached m' j.
Proof.
  intros Hj Hp Ha b' pid parent' Hb' Ht Hpar.
  destruct (Hj b' Hb') as (b & Hb & Hg).
  destruct (Hp b' pid Hb' Ht parent' Hpar) as (parent & Hpb & Hgp).
  unfold geometry in Hg, Hgp. injection Hg as Hx Hy _ _ Hpid.
  injection Hgp as Hpx Hpy Hpl Hpa _.
  rewrite <- Hpid in Ht. pose proof (Ha b pid parent Hb Ht Hpb) as Hatt.
  unfold getBoneStart, getBoneEnd in *. rewrite <- Hx, <- Hy, <- Hpx, <- Hpy, <- Hpl, <- Hpa.
  done.
Qed.

(** The parent of a bone outside a subtree is outside of it. *)
Lemma parent_outside rank bound m k j bj pid parent :
  inv ∅ rank bound m → m !! j = Some bj → truthy (bone_parentId bj) = Some pid →
  m !! pid = Some parent → ¬ in_subtree m k j → ¬ in_subtree m k pid.
Proof.
  intros Hinv Hj Ht Hp Hn Hsub. apply Hn. right.
  pose proof (parent_child_of _ _ _ _ _ _ _ Hinv Hj Ht Hp) as Hch.
  destruct Hsub as [->|Hd]; [by apply tc_once|by eapply tc_r].
Qed.

Lemma geometry_from_attached m m' :
  (∀ x, geometry_from m m' x) → (∀ j, attached m j) → ∀ j, attached m' j.
Proof. intros Hg Ha j. apply (attached_geometry m m'); auto. Qed.

(** Turning a joint and propagating keeps every bone attached. *)
Lemma turn_attached rank bound fuel k (g : BoneData → R) m b m' :
  inv ∅ rank bound m → m !! k = Some b → (∀ j, attached m j) →
  updateBonePosition fuel k (alter (λ b, set_angle (g b) b) k m) = Some m' →
  ∀ j, attached m' j.
Proof.
  intros Hinv Hb Ha E j.
  set (m0 := alter (λ b, set_angle (g b) b) k m) in *.
  assert (same_shape m m0) as Hsh.
  { apply same_shape_alter. intros; apply shape_set_angle. }
  pose proof (inv_shape _ _ _ _ _ Hsh Hinv) as Hinv0.
  assert (m0 !! k = Some (set_angle (g b) b)) as Hb0.
  { unfold m0. by rewrite lookup_alter_eq, Hb. }
  apply (updateBonePosition_mono fuel (fuel + bound)) in E; [|lia].
  destruct (updateBonePosition_attaches rank bound (fuel + bound) k m0 _ Hinv0 Hb0)
    as (m'' & E' & Hsb & Hin & Hout); [lia|].
  assert (m'' = m') as -> by congruence.
  destruct (in_subtree_decidable rank bound m0 k j Hinv0) as [Hsub|Hsub]; [by apply Hin|].
  intros b' pid parent' Hb' Ht Hpar.
  assert (j ≠ k) as Hjk by (intros ->; apply Hsub; by left).
  rewrite (Hout j Hsub) in Hb'.
  pose proof (same_but_positions_shape _ _ Hsb) as Hsh'.
  destruct (same_shape_lookup _ _ _ _ (same_shape_sym _ _ Hsh') Hpar) as (parent0 & Hp0 & _).
  pose proof (parent_outside rank bound m0 k j b' pid parent0 Hinv0 Hb' Ht Hp0 Hsub) as Hnp.
  rewrite (Hout pid Hnp) in Hpar.
  assert (pid ≠ k) as Hpk by (intros ->; apply Hnp; by left).
  unfold m0 in Hb', Hpar. rewrite lookup_alter_ne in Hb', Hpar by done.
  by eapply Ha.
Qed.

Lemma ccdJoint_attached rank bound fuel chain target j m r m' :
  inv ∅ rank bound m → (∀ x, attached m x) →
  ccdJoint fuel chain target j m = Some (r, m') → ∀ x, attached m' x.
Proof.
  intros Hinv Ha E. unfold ccdJoint in E.
  destruct (m !! j) as [cur|] eqn:Hj; [|by simplify_eq].
  destruct (getChainEnd chain m) as [e|]; [|by simplify_eq].
  destruct (Rlt_dec (distance e target) ikTolerance); [by simplify_eq|].
  destruct (updateBonePosition fuel j _) as [m2|] eqn:E2; [|done].
  injection E as _ <-.
  by eapply (turn_attached rank bound fuel j
               (λ b, bone_angle b + angleDiff cur e target) m cur).
Qed.

Lemma ccdPass_attached rank bound fuel chain target joints m r m' :
  inv ∅ rank bound m → (∀ x, attached m x) →
  ccdPass fuel chain target joints m = Some (r, m') → ∀ x, attached m' x.
Proof.
  revert m. induction joints as [|j joints IH]; intros m Hinv Ha E; cbn [ccdPass] in E.
  { by simplify_eq. }
  destruct (ccdJoint fuel chain target j m) as [[[|] m1]|] eqn:E1; [| |done].
  - injection E as _ <-. by eapply ccdJoint_attached.
  - eapply (IH m1); [|by eapply ccdJoint_attached|done].
    eapply inv_shape; [by eapply ccdJoint_shape|done].
Qed.

Lemma ccdIterations_attached rank bound fuel chain target n m r m' :
  inv ∅ rank bound m → (∀ x, attached m x) →
  ccdIterations fuel chain target n m = Some (r, m') → ∀ x, attached m' x.
Proof.
  revert m. induction n as [|n IH]; intros m Hinv Ha E; cbn [ccdIterations] in E.
  { by simplify_eq. }
  destruct (ccdPass fuel chain target (rev chain) m) as [[[|] m1]|] eqn:E1; [| |done].
  - injection E as _ <-. by eapply ccdPass_attached.
  - eapply (IH m1); [|by eapply ccdPass_attached|done].
    eapply inv_shape; [by eapply ccdPass_shape|done].
Qed.

Lemma solveIK_attached rank bound fuel boneId target st st' :
  inv ∅ rank bound (bones st) → (∀ x, attached (bones st) x) →
  solveIK fuel boneId target st = Some st' → ∀ x, attached (bones st') x.
Proof.
  intros Hinv Ha E. unfold solveIK, solveIK_outcome in E.
  destruct (bones st !! boneId);
    [|cbn [fmap option_fmap option_map snd] in E; by simplify_eq].
  destruct (buildChain fuel boneId [] (bones st)) as [chain|]; [|done].
  destruct (ccdIterations fuel chain target ikIterations (bones st)) as [[r m]|] eqn:E1;
    [|done].
  cbn [fmap option_fmap option_map snd] in E. injection E as <-. cbn [bones set_bones].
  by eapply ccdIterations_attached.
Qed.

Lemma setBoneAngle_attached rank bound fuel boneId angle st st' :
  inv ∅ rank bound (bones st) → (∀ x, attached (bones st) x) →
  setBoneAngle fuel boneId angle st = Some st' → ∀ x, attached (bones st') x.
Proof.
  intros Hinv Ha E. unfold setBoneAngle in E.
  destruct (bones st !! boneId) as [b|] eqn:Hb; [|by simplify_eq].
  destruct (updateBonePosition fuel boneId _) as [m|] eqn:E1; [|done].
  injection E as <-. cbn [bones set_bones].
  by eapply (turn_attached rank bound fuel boneId (λ _, angle) (bones st) b).
Qed.

Lemma deleteBone_attached rank bound fuel boneId st st' :
  inv ∅ rank bound (bones st) → (∀ x, attached (bones st) x) →
  deleteBone fuel boneId st = Some st' → ∀ x, attached (bones st') x.
Proof.
  intros Hinv Ha E.
  destruct (bones st !! boneId) as [b|] eqn:Hb.
  2:{ destruct fuel; [done|]. cbn [deleteBone] in E. rewrite Hb in E. by simplify_eq. }
  apply (deleteBone_mono fuel (fuel + bound)) in E; [|lia].
  destruct (deleteBone_spec rank bound (fuel + bound) ∅ st boneId b Hinv Hb)
    as (st'' & E' & _ & Hin & Hout & _); [lia|].
  assert (st'' = st') as -> by congruence.
  apply (geometry_from_attached (bones st)); [|done].
  intros x b' Hx. rewrite Hout in Hx.
  - unfold detach in Hx. destruct (truthy (bone_parentId b)) as [pid|]; [|by exists b'].
    rewrite lookup_alter in Hx. destruct (decide (pid = x)) as [->|]; [|by exists b'].
    destruct (bones st !! x) as [bx|]; [|done]. cbn in Hx. injection Hx as <-.
    by exists bx.
  - intros Hr. rewrite (Hin x Hr) in Hx. done.
Qed.

Lemma selectBone_attached boneId st :
  (∀ x, attached (bones st) x) → ∀ x, attached (bones (selectBone boneId st)) x.
Proof.
  apply geometry_from_attached. intros x b' Hx. unfold selectBone in Hx. cbn [bones] in Hx.
  set (m1 := match truthy (selectedBoneId st) with
             | Some prev => alter (set_isSelected false) prev (bones st)
             | None => bones st end) in Hx.
  assert (∀ y b1, m1 !! y = Some b1 →
            ∃ b0, bones st !! y = Some b0 ∧ geometry b0 = geometry b1) as H1.
  { intros y b1 Hy. unfold m1 in Hy. destruct (truthy (selectedBoneId st)) as [prev|];
      [|by exists b1].
    rewrite lookup_alter in Hy. destruct (decide (prev = y)) as [->|]; [|by exists b1].
    destruct (bones st !! y) as [b0|]; [|done]. cbn in Hy. injection Hy as <-. by exists b0. }
  destruct (truthy boneId) as [t|]; [|by apply H1].
  rewrite lookup_alter in Hx. destruct (decide (t = x)) as [->|]; [|by apply H1].
  destruct (m1 !! x) as [b1|] eqn:Hb1; [|done]. cbn in Hx. injection Hx as <-.
  destruct (H1 x b1 Hb1) as (b0 & Hb0 & Hg). by exists b0.
Qed.

Lemma createBone_attached id name x y len angle type parentId st :
  fresh_id id parentId st → (∀ j, attached (bones st) j) →
  ∀ j, attached (bones (fst (createBone id name x y len angle type parentId st))) j.
Proof.
  intros (Hid & Hnew & Hpid & Hnopar) Ha j. unfold createBone. cbn [fst bones set_bones].
  set (bone := mkBone id name x y len angle "#00ff88" 3 parentId [] type false).
  set (m := bones st) in *. set (mi := <[id := bone]> m).
  set (m' := match truthy parentId with
             | Some pid => match mi !! pid with
                           | Some parent =>
                               alter (set_position (getBoneEnd parent)) id
                                 (alter (λ p, set_children (bone_children p ++ [id]) p) pid mi)
                           | None => mi end
             | None => mi end).
  assert (∀ z, z ≠ id → geometry_from m m' z) as Hold.
  { intros z Hz b' Hb'. unfold m' in Hb'.
    assert (mi !! z = m !! z) as Hmi by (unfold mi; by rewrite lookup_insert_ne).
    destruct (truthy parentId) as [pid|]; [|rewrite Hmi in Hb'; by exists b'].
    destruct (mi !! pid) as [parent|]; [|rewrite Hmi in Hb'; by exists b'].
    rewrite lookup_alter_ne, lookup_alter in Hb' by done.
    destruct (decide (pid = z)) as [->|]; [|rewrite Hmi in Hb'; by exists b'].
    rewrite Hmi in Hb'. destruct (m !! z) as [bz|]; [|done]. cbn in Hb'.
    injection Hb' as <-. by exists bz. }
  destruct (decide (j = id)) as [->|Hj].
  - intros b' pid parent' Hb' Ht Hpar. unfold m' in Hb', Hpar.
    destruct (truthy parentId) as [pid0|] eqn:Ht0.
    + apply truthy_Some in Ht0 as [-> Hne0].
      assert (pid0 ≠ id) as Hp0 by congruence.
      destruct (mi !! pid0) as [parent|] eqn:Hmp.
      * rewrite lookup_alter_eq, lookup_alter_ne in Hb' by done.
        unfold mi in Hb'. rewrite lookup_insert_eq in Hb'. cbn in Hb'. injection Hb' as <-.
        cbn [bone_parentId set_position bone] in Ht.
        rewrite truthy_is_Some in Ht by done. injection Ht as <-.
        rewrite lookup_alter_ne, lookup_alter_eq, Hmp in Hpar by done.
        cbn in Hpar. injection Hpar as <-. done.
      * unfold mi in Hb'. rewrite lookup_insert_eq in Hb'. injection Hb' as <-.
        cbn [bone_parentId bone] in Ht. rewrite truthy_is_Some in Ht by done.
        injection Ht as <-. congruence.
    + unfold mi in Hb'. rewrite lookup_insert_eq in Hb'. injection Hb' as <-.
      cbn [bone_parentId bone] in Ht. congruence.
  - apply (attached_geometry m m'); [by apply Hold| |done].
    intros bj pid Hbj Ht. apply Hold. intros ->.
    destruct (Hold j Hj bj Hbj) as (b0 & Hb0 & Hg).
    unfold geometry in Hg. injection Hg as _ _ _ _ Hp.
    apply truthy_Some in Ht as [Ht _]. rewrite <- Hp in Ht. by apply (Hnopar j b0).
Qed.

Lemma translate_attached dx dy b parent :
  getBoneStart b = getBoneEnd parent →
  getBoneStart (translate dx dy b) = getBoneEnd (translate dx dy parent).
Proof.
  unfold getBoneStart, getBoneEnd, translate. cbn. intros [= Hx Hy].
  f_equal; [rewrite Hx|rewrite Hy]; ring.
Qed.

Lemma moveBone_attached rank bound fuel boneId position st st' :
  inv ∅ rank bound (bones st) → (∀ x, attached (bones st) x) →
  fk_op (OpMoveBone boneId position) st →
  moveBone fuel boneId position st = Some st' → ∀ x, attached (bones st') x.
Proof.
  intros Hinv Ha Hroot E. unfold moveBone in E.
  destruct (bones st !! boneId) as [bk|] eqn:Hb; [|by simplify_eq].
  set (dx := vx position - bone_x bk) in *. set (dy := vy position - bone_y bk) in *.
  set (m := bones st) in *. set (m0 := alter (set_position position) boneId m) in *.
  destruct (moveChildren fuel boneId dx dy m0) as [m'|] eqn:Em; [|done].
  injection E as <-. cbn [bones set_bones].
  assert (same_shape m m0) as Hsh by (apply same_shape_alter; done).
  pose proof (inv_shape _ _ _ _ _ Hsh Hinv) as Hinv0.
  assert (m0 !! boneId = Some (translate dx dy bk)) as Hb0.
  { unfold m0. rewrite lookup_alter_eq, Hb. cbn. by rewrite set_position_translate. }
  assert (∀ j, j ≠ boneId → m0 !! j = m !! j) as Hne.
  { intros j Hj. unfold m0. by rewrite lookup_alter_ne. }
  pose proof (moveChildren_same_but_positions _ _ _ _ _ _ Em) as Hsb.
  apply (moveChildren_mono fuel (fuel + bound)) in Em; [|lia].
  destruct (moveChildren_spec rank bound dx dy (fuel + bound) boneId m0 _ Hinv0 Hb0)
    as (m'' & E' & Hin & Hout); [lia|].
  assert (m'' = m') as -> by congruence.
  assert (m' !! boneId = Some (translate dx dy bk)) as Hk'.
  { rewrite Hout; [done|]. apply (descendant_irrefl rank bound m0 Hinv0). }
  assert (∀ j, descendant m boneId j → j ≠ boneId) as Hdk.
  { intros j Hd ->. by apply (descendant_irrefl rank bound m Hinv boneId). }
  assert (∀ j bj, descendant m boneId j → m !! j = Some bj →
            m' !! j = Some (translate dx dy bj)) as Hin'.
  { intros j bj Hd Hj. rewrite Hin by (by eapply descendant_shape).
    rewrite Hne by (by apply Hdk). by rewrite Hj. }
  assert (∀ j, ¬ in_subtree m boneId j → m' !! j = m !! j) as Hout'.
  { intros j Hn. rewrite Hout.
    - apply Hne. intros ->. apply Hn. by left.
    - intros Hd. apply Hn. right. eapply descendant_shape; [|exact Hd].
      by apply same_shape_sym. }
  pose proof (same_but_positions_shape _ _ Hsb) as Hsh'.
  assert (same_shape m m') as Hshape by (by eapply same_shape_trans).
  intros j bj' pid parent' Hj' Ht Hpar'.
  destruct (same_shape_lookup _ _ _ _ (same_shape_sym _ _ Hshape) Hj') as (bj & Hj & Hshj).
  destruct (same_shape_lookup _ _ _ _ (same_shape_sym _ _ Hshape) Hpar')
    as (parent & Hpar & _).
  apply shape_fields in Hshj as (_ & Hpj & _).
  assert (truthy (bone_parentId bj) = Some pid) as Ht0 by (by rewrite Hpj).
  pose proof (Ha j bj pid parent Hj Ht0 Hpar) as Hatt.
  pose proof (parent_child_of _ _ _ _ _ _ _ Hinv Hj Ht0 Hpar) as Hch.
  destruct (in_subtree_decidable rank bound m boneId j Hinv) as [[->|Hd]|Hn].
  - rewrite Hb in Hj. injection Hj as <-. pose proof (Hroot bk pid Hb Ht0) as Hnone.
    change (m !! pid = None) in Hnone. congruence.
  - rewrite (Hin' j bj Hd Hj) in Hj'. injection Hj' as <-.
    assert (in_subtree m boneId pid) as Hpsub.
    { apply (descendant_inv_r m) in Hd as (y & Hy & Hyj).
      assert (y = pid) as -> by (by eapply (child_of_unique_parent rank bound m Hinv)).
      by apply in_subtree_rtc. }
    destruct Hpsub as [->|Hpd].
    + rewrite Hk' in Hpar'. injection Hpar' as <-.
      rewrite Hb in Hpar. injection Hpar as <-. by apply translate_attached.
    + rewrite (Hin' pid parent Hpd Hpar) in Hpar'. injection Hpar' as <-.
      by apply translate_attached.
  - rewrite (Hout' j Hn) in Hj'.
    pose proof (parent_outside rank bound m boneId j bj pid parent Hinv Hj Ht0 Hpar Hn) as Hnp.
    rewrite (Hout' pid Hnp) in Hpar'. by eapply Ha.
Qed.

Lemma posed_reachable st : posed st → reachable st.
Proof.
  induction 1 as [|st op fuel st' _ IH Hv _ E]; [apply reachable_empty|].
  by eapply reachable_step.
Qed.

Lemma exec_attached fuel op st st' :
  wf (bones st) → valid_op op st → fk_op op st → (∀ k, attached (bones st) k) →
  exec fuel op st = Some st' → ∀ k, attached (bones st') k.
Proof.
  intros (rank & bound & Hinv) Hv Hfk IH E. destruct op; cbn [exec] in E.
  - injection E as <-. by apply createBone_attached.
  - by eapply deleteBone_attached.
  - by eapply moveBone_attached.
  - by eapply setBoneAngle_attached.
  - by eapply solveIK_attached.
  - injection E as <-. by apply selectBone_attached.
Qed.

Lemma posed_attached st : posed st → ∀ k, attached (bones st) k.
Proof.
  induction 1 as [|st op fuel st' Hp IH Hv Hfk E]; [done|].
  eapply exec_attached; [apply reachable_wf, posed_reachable, Hp|done..].
Qed.

(** X21: forward kinematics is kept: in every hierarchy reached by
    operations that apply [moveBone] only to bones without a parent in
    the store, every bone whose parent is in the store starts exactly
    where that parent ends (numbers as reals). *)
Theorem posed_bones_attached st :
  posed st →
  ∀ k b pid parent,
    bones st !! k = Some b → truthy (bone_parentId b) = Some pid →
    bones st !! pid = Some parent →
    getBoneStart b = getBoneEnd parent.
Proof.
  intros Hp. change (∀ k, attached (bones st) k).
  induction Hp as [|st op fuel st' Hp IH Hv Hfk E]; [done|].
  pose proof (reachable_wf st (posed_reachable st Hp)) as Hwf.
  intros k. revert k. by eapply exec_attached.
Qed.

Lemma posed_bones_attached_witness :
  posed arm_chain
  ∧ ∀ k b pid parent,
      bones arm_chain !! k = Some b → truthy (bone_parentId b) = Some pid →
      bones arm_chain !! pid = Some parent →
      getBoneStart b = getBoneEnd parent.
Proof.
  assert (posed arm_chain) as Hp.
  { eapply (posed_step arm_root
              (OpCreateBone "bone_b" "forearm" 0 0 1 0 IK (Some "bone_a")) 0);
      [|apply arm_chain_valid|done|done].
    eapply (posed_step empty (OpCreateBone "bone_a" "arm" 0 0 1 0 IK None) 0);
      [apply posed_empty|apply arm_root_valid|done|done]. }
  split; [exact Hp|]. apply (posed_bones_attached arm_chain Hp).
Defined.

(** ** The direction of [atan2] *)

Lemma hypot_nonneg a b : 0 <= hypot a b.
Proof. unfold hypot. apply sqrt_pos. Qed.

Lemma hypot_scaled x t : 0 <= x → hypot x (t * x) = x * sqrt (1 + t²).
Proof.
  intros Hx. unfold hypot, Rsqr.
  replace (x * x + t * x * (t * x)) with (x * x * (1 + t * t)) by ring.
  rewrite sqrt_mult by nra. by rewrite sqrt_square.
Qed.

Lemma sqrt_1_sqr_pos t : 0 < sqrt (1 + t²).
Proof. apply sqrt_lt_R0. unfold Rsqr. nra. Qed.

Lemma hypot_opp x y : hypot (- x) (- y) = hypot x y.
Proof. unfold hypot. f_equal. ring. Qed.

(** [atan2 y x] is an angle of the direction [(x, y)]: its cosine and
    sine, scaled by the length of the vector, give back [x] and [y]. *)
Lemma atan2_polar y x :
  cos (atan2 y x) * hypot x y = x ∧ sin (atan2 y x) * hypot x y = y.
Proof.
  unfold atan2. destruct (Rlt_dec 0 x) as [Hx|Hx].
  - set (t := y / x). assert (y = t * x) as Hy by (unfold t; field; lra).
    assert (hypot x y = x * sqrt (1 + t²)) as Hh.
    { rewrite <- hypot_scaled by lra. f_equal. exact Hy. }
    rewrite Hh, cos_atan, sin_atan. pose proof (sqrt_1_sqr_pos t) as Hs.
    split; [field; lra|]. rewrite Hy at 1. field. lra.
  - destruct (Rlt_dec x 0) as [Hx'|Hx'].
    + set (t := y / x). assert (y = t * x) as Hy by (unfold t; field; lra).
      assert (hypot x y = - x * sqrt (1 + t²)) as Hh.
      { rewrite <- hypot_opp. rewrite <- hypot_scaled by lra. f_equal. rewrite Hy at 1. ring. }
      pose proof (sqrt_1_sqr_pos t) as Hs. rewrite Hh.
      destruct (Rle_dec 0 y).
      * rewrite neg_cos, neg_sin, cos_atan, sin_atan.
        split; [field; lra|]. rewrite Hy at 1. field. lra.
      * unfold Rminus. rewrite cos_plus, sin_plus, cos_neg, sin_neg, cos_PI, sin_PI.
        rewrite cos_atan, sin_atan.
        split; [field; lra|]. rewrite Hy at 1. field. lra.
    + assert (x = 0) as -> by lra. rewrite hypot_0_y.
      destruct (Rlt_dec 0 y).
      * rewrite cos_PI2, sin_PI2, Rabs_right by lra. lra.
      * destruct (Rlt_dec y 0).
        -- replace (- PI / 2) with (- (PI / 2)) by field.
           rewrite cos_neg, sin_neg, cos_PI2, sin_PI2, Rabs_left by lra. lra.
        -- assert (y = 0) as -> by lra. rewrite Rabs_R0. lra.
Qed.

(** ** The angle that a CCD step adds *)

Lemma normalize_sqr v :
  0 < hypot (vx v) (vy v) →
  vx (normalize v) * vx (normalize v) + vy (normalize v) * vy (normalize v) = 1.
Proof.
  intros H. rewrite <- hypot_sqr, normalize_unit by done. ring.
Qed.

(** X22: the angle that a CCD step adds to a joint is the signed angle from
    the direction of the target to the direction of the end-effector
    (both seen from the joint): its cosine is the dot product of the two
    unit vectors and its sine is their cross product taken as
    target × end-effector, whenever neither the target nor the
    end-effector sits on the joint (numbers as reals). *)
Theorem angleDiff_direction cur e target :
  0 < hypot (vx target - bone_x cur) (vy target - bone_y cur) →
  0 < hypot (vx e - bone_x cur) (vy e - bone_y cur) →
  let toTarget := normalize {| vx := vx target - bone_x cur;
                               vy := vy target - bone_y cur |} in
  let toEnd := normalize {| vx := vx e - bone_x cur; vy := vy e - bone_y cur |} in
  cos (angleDiff cur e target) = vx toTarget * vx toEnd + vy toTarget * vy toEnd
  ∧ sin (angleDiff cur e target) = vx toTarget * vy toEnd - vy toTarget * vx toEnd.
Proof.
  intros Ht He. cbn zeta. unfold angleDiff.
  set (u := normalize {| vx := vx target - bone_x cur; vy := vy target - bone_y cur |}).
  set (v := normalize {| vx := vx e - bone_x cur; vy := vy e - bone_y cur |}).
  pose proof (normalize_sqr {| vx := vx target - bone_x cur; vy := vy target - bone_y cur |} Ht)
    as Hu.
  pose proof (normalize_sqr {| vx := vx e - bone_x cur; vy := vy e - bone_y cur |} He) as Hv.
  fold u in Hu. fold v in Hv.
  set (cross := vx u * vy v - vy u * vx v). set (dot := vx u * vx v + vy u * vy v).
  assert (hypot dot cross = 1) as Hh.
  { unfold hypot. replace (dot * dot + cross * cross) with 1; [apply sqrt_1|].
    unfold dot, cross.
    transitivity ((vx u * vx u + vy u * vy u) * (vx v * vx v + vy v * vy v)); [|ring].
    rewrite Hu, Hv. ring. }
  destruct (atan2_polar cross dot) as [Hc Hs]. rewrite Hh in Hc, Hs. lra.
Qed.

Lemma angleDiff_direction_witness :
  sin (angleDiff (mkBone "bone_a" "arm" 0 0 1 0 "#00ff88" 3 None [] IK false)
         {| vx := 1; vy := 0 |} {| vx := 0; vy := 1 |})
  = vx (normalize {| vx := 0 - 0; vy := 1 - 0 |}) * vy (normalize {| vx := 1 - 0; vy := 0 - 0 |})
    - vy (normalize {| vx := 0 - 0; vy := 1 - 0 |}) * vx (normalize {| vx := 1 - 0; vy := 0 - 0 |}).
Proof.
  apply (angleDiff_direction (mkBone "bone_a" "arm" 0 0 1 0 "#00ff88" 3 None [] IK false)
           {| vx := 1; vy := 0 |} {| vx := 0; vy := 1 |}); cbn [vx vy bone_x bone_y].
  - replace (0 - 0) with 0 by ring. replace (1 - 0) with 1 by ring.
    rewrite hypot_0_y, Rabs_R1. lra.
  - replace (0 - 0) with 0 by ring. replace (1 - 0) with 1 by ring.
    rewrite hypot_x_0, Rabs_R1. lra.
Defined.

(** ** Dragging a bone *)

(** Propagation leaves a bone without a parent in the store where it
    is. *)
Lemma updateBonePosition_root rank bound fuel k m b m' :
  inv ∅ rank bound m → m !! k = Some b → (bound ≤ fuel + rank k)%nat →
  (∀ pid parent, truthy (bone_parentId b) = Some pid → m !! pid = Some parent → False) →
  updateBonePosition fuel k m = Some m' → m' !! k = Some b.
Proof.
  intros Hinv Hb Hfuel Hroot E. destruct fuel as [|f]; [done|].
  rewrite updateBonePosition_S, Hb in E.
  assert (match truthy (bone_parentId b) with
          | Some pid => match m !! pid with
                        | Some parent => alter (set_position (getBoneEnd parent)) k m
                        | None => m end
          | None => m end = m) as Hm1.
  { destruct (truthy (bone_parentId b)) as [pid|] eqn:Ht; [|done].
    destruct (m !! pid) as [parent|] eqn:Hp; [|done]. exfalso. by eapply Hroot. }
  rewrite Hm1 in E.
  cut (same_but_positions m m' ∧ m' !! k = Some b); [tauto|].
  revert E. apply forEach_inv with (I := λ m0, same_but_positions m m0 ∧ m0 !! k = Some b).
  { split; [apply same_but_positions_refl|done]. }
  intros a m0 m1 Ha [Hsb H0] E. destruct (m0 !! a) as [ab|] eqn:Hab; [|by simplify_eq].
  pose proof (same_but_positions_shape _ _ Hsb) as Hsh.
  pose proof (inv_shape _ _ _ _ _ Hsh Hinv) as Hinv0.
  assert (child_of m k a) as Hch by (by exists b).
  pose proof (descendant_rank rank bound m Hinv k a (tc_once _ _ _ Hch)) as Hrk.
  destruct (updateBonePosition_attaches rank bound f a m0 ab Hinv0 Hab)
    as (m1' & E' & Hsb1 & _ & Hout); [lia|].
  assert (m1' = m1) as -> by congruence.
  split; [by eapply same_but_positions_trans|].
  rewrite Hout; [done|]. intros Hsub.
  apply (in_subtree_shape _ _ _ _ (same_shape_sym _ _ Hsh)) in Hsub.
  destruct Hsub as [->|Hd]; [lia|].
  pose proof (descendant_rank rank bound m Hinv a k Hd). lia.
Qed.

Lemma unplaced_length b b' : unplaced b = unplaced b' → bone_length b = bone_length b'.
Proof.
  intros H. change (bone_length (unplaced b) = bone_length (unplaced b')). by rewrite H.
Qed.

(** X23: dragging an FK bone turns it towards the pointer: in a hierarchy
    whose bones start at the end of their parents, a [pointermove] on a
    dragged FK bone returns, leaves the start and the length of the bone
    as they are, and puts its end on the ray from the start through the
    pointer: (end - start) * |pointer - start| = (pointer - start) *
    length (numbers as reals). *)
Theorem drag_FK_aims_at_pointer st boneId bone localPos :
  posed st → bones st !! boneId = Some bone → bone_type bone = FK →
  let dx := vx localPos - bone_x bone in
  let dy := vy localPos - bone_y bone in
  ∃ N, ∀ fuel, (N ≤ fuel)%nat →
    ∃ st' b',
      pointermove fuel boneId localPos st = Some st'
      ∧ bones st' !! boneId = Some b'
      ∧ getBoneStart b' = getBoneStart bone
      ∧ bone_length b' = bone_length bone
      ∧ (vx (getBoneEnd b') - bone_x bone) * hypot dx dy = dx * bone_length bone
      ∧ (vy (getBoneEnd b') - bone_y bone) * hypot dx dy = dy * bone_length bone.
Proof.
  intros Hposed Hb Hfk. cbn zeta.
  destruct (reachable_wf st (posed_reachable st Hposed)) as (rank & bound & Hinv).
  pose proof (posed_attached st Hposed) as Hatt.
  exists bound. intros fuel Hfuel. unfold pointermove. rewrite Hb, Hfk. cbn zeta.
  set (a := atan2 (vy localPos - bone_y bone) (vx localPos - bone_x bone)).
  unfold setBoneAngle. rewrite Hb.
  set (m := bones st) in *. set (m0 := alter (set_angle a) boneId m).
  assert (same_shape m m0) as Hsh.
  { apply same_shape_alter. intros; apply shape_set_angle. }
  pose proof (inv_shape _ _ _ _ _ Hsh Hinv) as Hinv0.
  assert (m0 !! boneId = Some (set_angle a bone)) as Hb0.
  { unfold m0. by rewrite lookup_alter_eq, Hb. }
  destruct (updateBonePosition_attaches rank bound fuel boneId m0 (set_angle a bone) Hinv0 Hb0)
    as (m' & E & Hsb & Hin & Hout); [lia|].
  rewrite E. pose proof (Hsb boneId) as Hk. rewrite Hb0 in Hk.
  destruct (m' !! boneId) as [b'|] eqn:Hb'; [|done].
  cbn in Hk. assert (unplaced (set_angle a bone) = unplaced b') as Hu by congruence.
  pose proof (unplaced_angle _ _ Hu) as Hangle. pose proof (unplaced_length _ _ Hu) as Hlen.
  cbn [bone_angle bone_length set_angle] in Hangle, Hlen.
  assert (getBoneStart b' = getBoneStart bone) as Hstart.
  { destruct (truthy (bone_parentId bone)) as [pid|] eqn:Ht.
    - destruct (m !! pid) as [parent|] eqn:Hp.
      + pose proof (parent_child_of _ _ _ _ _ _ _ Hinv Hb Ht Hp) as Hch.
        assert (pid ≠ boneId) as Hne.
        { intros ->. apply (descendant_irrefl rank bound m Hinv boneId). by apply tc_once. }
        assert (m' !! pid = Some parent) as Hp'.
        { rewrite Hout.
          - unfold m0. by rewrite lookup_alter_ne.
          - intros Hsub. apply (in_subtree_shape _ _ _ _ (same_shape_sym _ _ Hsh)) in Hsub.
            apply (descendant_irrefl rank bound m Hinv boneId).
            destruct Hsub as [->|Hd]; [by apply tc_once|by eapply tc_r]. }
        rewrite (Hatt boneId bone pid parent Hb Ht Hp).
        apply (Hin boneId (or_introl eq_refl) b' pid parent Hb'); [|done].
        apply unplaced_shape, shape_fields in Hu as (_ & Hpar & _).
        cbn [bone_parentId set_angle] in Hpar. by rewrite <- Hpar.
      + rewrite (updateBonePosition_root rank bound fuel boneId m0 (set_angle a bone) m')
          in Hb'; [by simplify_eq|done|done|lia| |done].
        intros pid' parent' Ht' Hp'. cbn [bone_parentId set_angle] in Ht'.
        assert (pid' = pid) as -> by congruence.
        assert (pid ≠ boneId) as Hne by (intros ->; congruence).
        unfold m0 in Hp'. rewrite lookup_alter_ne in Hp' by done. congruence.
    - rewrite (updateBonePosition_root rank bound fuel boneId m0 (set_angle a bone) m')
        in Hb'; [by simplify_eq|done|done|lia| |done].
      intros pid' parent' Ht'. cbn [bone_parentId set_angle] in Ht'. congruence. }
  exists (set_bones m' st), b'. cbn [bones set_bones].
  split; [done|]. split; [done|]. split; [done|]. split; [done|].
  unfold getBoneStart in Hstart. injection Hstart as Hx Hy.
  destruct (atan2_polar (vy localPos - bone_y bone) (vx localPos - bone_x bone)) as [Hc Hs].
  fold a in Hc, Hs. unfold getBoneEnd. cbn [vx vy]. rewrite <- Hangle, Hx, Hy, <- Hlen.
  cbn [bone_length set_angle].
  split.
  - transitivity (cos a * hypot (vx localPos - bone_x bone) (vy localPos - bone_y bone)
                  * bone_length bone); [ring|]. by rewrite Hc.
  - transitivity (sin a * hypot (vx localPos - bone_x bone) (vy localPos - bone_y bone)
                  * bone_length bone); [ring|]. by rewrite Hs.
Qed.

Lemma drag_FK_aims_at_pointer_witness :
  ∃ N, ∀ fuel, (N ≤ fuel)%nat →
    ∃ st' b',
      pointermove fuel "bone_1" {| vx := 3; vy := 4 |} orphan = Some st'
      ∧ bones st' !! "bone_1" = Some b'
      ∧ (vx (getBoneEnd b') - 0) * hypot (3 - 0) (4 - 0) = (3 - 0) * 50.
Proof.
  assert (posed orphan) as Hp.
  { eapply (posed_step empty (OpCreateBone "bone_1" "arm" 0 0 50 0 FK (Some "ghost")) 0);
      [apply posed_empty|apply orphan_valid|done|done]. }
  destruct (drag_FK_aims_at_pointer orphan "bone_1"
              (mkBone "bone_1" "arm" 0 0 50 0 "#00ff88" 3 (Some "ghost") [] FK false)
              {| vx := 3; vy := 4 |} Hp) as (N & H); [done|done|].
  exists N. intros fuel Hf.
  destruct (H fuel Hf) as (st' & b' & E & Hb' & _ & _ & Hx & _).
  exists st', b'. split; [done|]. split; [done|]. exact Hx.
Defined.

End BonesSpecFacts.
